(** * denoiser.enhance: the enhancement orchestration pipeline

    A shallow embedding of [src/denoiser/enhance.py] and the properties its
    specification states about it.

    Conventions of the embedding.
    - A Python call that may raise is a value of [Py.result]; code that also
      performs effects (logging, directory creation, audio files written)
      lives in the writer/error monad [Eff.io], whose log is the list of
      effects performed up to the return or the raise.  The file-system
      calls of [enhance.py] itself ([os.makedirs], [torchaudio.save]) are
      taken to succeed; the progress lines of [LogProgress] and the thread
      setting of [torch.set_num_threads] are not part of the log.
    - Audio samples are exact rationals ([Qc]); torch's float32 rounding,
      infinities and NaN are outside the model.  A tensor of rank n is an
      n-fold nested list; the tensors of this file have rank 2
      ([channels, samples]) or rank 3 ([batch, channels, samples]).
    - Python strings are [string]; the [os.path] functions are the POSIX
      ones ([posixpath]).
    - Collaborators that are imported by [enhance.py] but defined elsewhere
      (the pretrained model registry, the streaming engine, the JSON and
      audio readers, the distributed runtime) are fields of [Collab].
    - The process pool is a state machine moved by a schedule: the
      coordinator (the body of [enhance]) and the workers take turns, a
      worker's call takes effect as a whole when the job finishes, and
      leaving the [with] block waits for every submitted job. *)

From Stdlib Require Import QArith Qcanon Qcabs ZArith Lia Ascii String List.
From stdpp Require Import base numbers option strings list.

Set Warnings "-register-all".

(** ** Python results and effects *)

Module Py.

(** The exceptions that cross [enhance.py].  None of them is caught there. *)
Inductive exn : Type :=
| JSONDecodeError
| OSError
| ValueError
| IndexError
| RuntimeError
| InferenceError  (* whatever the model's forward pass raises *)
| OtherError (name : string).

Inductive result (A : Type) : Type :=
| Ok (a : A)
| Raise (e : exn).
Arguments Ok {A} a.
Arguments Raise {A} e.

Definition rbind {A B} (k : A → result B) (r : result A) : result B :=
  match r with
  | Ok a => k a
  | Raise e => Raise e
  end.

(** Python truthiness of an optional string ([None] and [''] are false). *)
Definition truthy (s : option string) : bool :=
  match s with
  | Some (String _ _) => true
  | _ => false
  end.

(** [max(a, b)] of two numbers: the first one unless the second is
    strictly greater. *)
Definition max (a b : Qc) : Qc :=
  match (a ?= b)%Qc with
  | Lt => b
  | _ => a
  end.

End Py.

#[global] Instance result_ret : MRet Py.result := @Py.Ok.
#[global] Instance result_bind : MBind Py.result := @Py.rbind.

#[global] Instance exn_eq_dec : EqDecision Py.exn.
Proof. solve_decision. Defined.

#[global] Instance result_eq_dec `{EqDecision A} : EqDecision (Py.result A).
Proof. solve_decision. Defined.

(** ** Tensors *)

Module Tensor.

Definition tensor1 : Type := list Qc.
Definition tensor2 : Type := list tensor1.
Definition tensor3 : Type := list tensor2.

(** [k * t] for a Python scalar [k]. *)
Definition scale1 (k : Qc) (t : tensor1) : tensor1 := map (Qcmult k) t.
Definition scale2 (k : Qc) (t : tensor2) : tensor2 := map (scale1 k) t.
Definition scale3 (k : Qc) (t : tensor3) : tensor3 := map (scale2 k) t.

(** [t / d] for a Python scalar [d]. *)
Definition div2 (t : tensor2) (d : Qc) : tensor2 :=
  map (map (λ x, (x / d)%Qc)) t.

(** One axis of a broadcasting binary operation: sizes must agree, or one
    of them is 1 and that slice is repeated; anything else is torch's
    size-mismatch [RuntimeError]. *)
Section Broadcast.
Context {A : Type} (f : A → A → Py.result A).

Fixpoint zip_same (a b : list A) : Py.result (list A) :=
  match a, b with
  | [], [] => Py.Ok []
  | x :: a', y :: b' => z ← f x y; r ← zip_same a' b'; Py.Ok (z :: r)
  | _, _ => Py.Raise Py.RuntimeError
  end.

Fixpoint repeat_left (x : A) (b : list A) : Py.result (list A) :=
  match b with
  | [] => Py.Ok []
  | y :: b' => z ← f x y; r ← repeat_left x b'; Py.Ok (z :: r)
  end.

Fixpoint repeat_right (a : list A) (y : A) : Py.result (list A) :=
  match a with
  | [] => Py.Ok []
  | x :: a' => z ← f x y; r ← repeat_right a' y; Py.Ok (z :: r)
  end.

Definition broadcast (a b : list A) : Py.result (list A) :=
  if decide (length a = length b) then zip_same a b
  else match a, b with
       | [x], _ => repeat_left x b
       | _, [y] => repeat_right a y
       | _, _ => Py.Raise Py.RuntimeError
       end.

End Broadcast.

(** [a + b]. *)
Definition add1 : tensor1 → tensor1 → Py.result tensor1 :=
  broadcast (λ x y, Py.Ok (x + y)%Qc).
Definition add2 : tensor2 → tensor2 → Py.result tensor2 := broadcast add1.
Definition add3 : tensor3 → tensor3 → Py.result tensor3 := broadcast add2.

(** [torch.cat([a, b], dim=1)] on rank 2: the channels are paired and
    their sample axes appended; a different number of channels is a
    [RuntimeError]. *)
Fixpoint cat_dim1 (a b : tensor2) : Py.result tensor2 :=
  match a, b with
  | [], [] => Py.Ok []
  | x :: a', y :: b' => r ← cat_dim1 a' b'; Py.Ok ((x ++ y) :: r)
  | _, _ => Py.Raise Py.RuntimeError
  end.

(** [t[None]]: a new leading axis of size 1. *)
Definition unsqueeze0 (t : tensor2) : tensor3 := [t].

(** [t[0]]. *)
Definition index0 (t : tensor3) : Py.result tensor2 :=
  match t with
  | [] => Py.Raise Py.IndexError
  | x :: _ => Py.Ok x
  end.

(** [t.abs()]. *)
Definition abs2 (t : tensor2) : tensor2 := map (map Qcabs) t.

Definition Qcmax (a b : Qc) : Qc :=
  match (a ?= b)%Qc with
  | Lt => b
  | _ => a
  end.

(** [t.max().item()]: the largest element; a tensor without elements is a
    [RuntimeError]. *)
Definition max_item (t : tensor2) : Py.result Qc :=
  match concat t with
  | [] => Py.Raise Py.RuntimeError
  | x :: xs => Py.Ok (foldl Qcmax x xs)
  end.

(** Shapes agree, axis by axis. *)
Definition same_shape1 (a b : tensor1) : Prop := length a = length b.
Definition same_shape2 (a b : tensor2) : Prop := Forall2 same_shape1 a b.
Definition same_shape3 (a b : tensor3) : Prop := Forall2 same_shape2 a b.

(** The sample-by-sample combination of two tensors of one shape. *)
Definition pointwise3 (g : Qc → Qc → Qc) : tensor3 → tensor3 → tensor3 :=
  zip_with (zip_with (zip_with g)).

End Tensor.

(** ** Python strings and [posixpath] *)

Module Str.

Local Open Scope string_scope.

Fixpoint take (n : nat) (s : string) : string :=
  match n, s with
  | S n', String c r => String c (take n' r)
  | _, _ => ""
  end.

Fixpoint drop (n : nat) (s : string) : string :=
  match n, s with
  | S n', String _ r => drop n' r
  | _, _ => s
  end.

(** [s[i:j]] for [0 <= i]. *)
Definition slice (i j : Z) (s : string) : string :=
  take (Z.to_nat (j - i)) (drop (Z.to_nat i) s).

(** [s.rfind(c)]: the index of the last [c], or -1. *)
Fixpoint rfind (c : ascii) (s : string) : Z :=
  match s with
  | "" => -1
  | String a r =>
      let i := rfind c r in
      if (0 <=? i)%Z then (1 + i)%Z
      else if Ascii.eqb a c then 0%Z else (-1)%Z
  end.

Definition startswith (c : ascii) (s : string) : bool :=
  match s with
  | String a _ => Ascii.eqb a c
  | "" => false
  end.

Fixpoint endswith (c : ascii) (s : string) : bool :=
  match s with
  | "" => false
  | String a "" => Ascii.eqb a c
  | String _ r => endswith c r
  end.

(** Every character of [s] is [c] (true of the empty string). *)
Fixpoint all_chars (c : ascii) (s : string) : bool :=
  match s with
  | "" => true
  | String a r => Ascii.eqb a c && all_chars c r
  end.

(** [s.rstrip(c)]. *)
Fixpoint rstrip (c : ascii) (s : string) : string :=
  match s with
  | "" => ""
  | String a r =>
      match rstrip c r with
      | "" => if Ascii.eqb a c then "" else String a ""
      | r' => String a r'
      end
  end.

(** [s.split(c)]. *)
Fixpoint split (c : ascii) (s : string) : list string :=
  match s with
  | "" => [""]
  | String a r =>
      if Ascii.eqb a c then "" :: split c r
      else match split c r with
           | h :: t => String a h :: t
           | [] => [String a ""]
           end
  end.

(** [s.rsplit(c, 1)[0]]: what precedes the last [c], or all of [s]. *)
Definition rsplit1_head (c : ascii) (s : string) : string :=
  let i := rfind c s in
  if (i <? 0)%Z then s else take (Z.to_nat i) s.

End Str.

Module PosixPath.

Local Open Scope string_scope.

Definition sep : ascii := "/"%char.
Definition extsep : ascii := "."%char.
Definition curdir : string := ".".
Definition pardir : string := "..".

Definition isabs (p : string) : bool := Str.startswith sep p.

(** One round of the loop of [join]. *)
Definition join1 (path b : string) : string :=
  if Str.startswith sep b then b
  else if bool_decide (path = "") || Str.endswith sep path then path ++ b
  else path ++ "/" ++ b.

(** [os.path.join(a, *p)]. *)
Definition join (a : string) (p : list string) : string := foldl join1 a p.

(** [os.path.splitext(p)].  The extension starts at the last dot of the
    last component, unless only dots precede it in that component. *)
Definition splitext (p : string) : string * string :=
  let sepIndex := Str.rfind sep p in
  let dotIndex := Str.rfind extsep p in
  if (sepIndex <? dotIndex)%Z
  then if Str.all_chars extsep (Str.slice (sepIndex + 1) dotIndex p)
       then (p, "")
       else (Str.take (Z.to_nat dotIndex) p, Str.drop (Z.to_nat dotIndex) p)
  else (p, "").

(** [os.path.basename(p)]. *)
Definition basename (p : string) : string :=
  Str.drop (Z.to_nat (Str.rfind sep p + 1)) p.

(** [os.path.dirname(p)]. *)
Definition dirname (p : string) : string :=
  let head := Str.take (Z.to_nat (Str.rfind sep p + 1)) p in
  if negb (bool_decide (head = "")) && negb (Str.all_chars sep head)
  then Str.rstrip sep head
  else head.

(** The component stack of [normpath]. *)
Definition norm_step (initial_slashes : nat) (new_comps : list string)
    (comp : string) : list string :=
  if bool_decide (comp = "") || bool_decide (comp = curdir) then new_comps
  else if negb (bool_decide (comp = pardir))
          || (bool_decide (initial_slashes = 0%nat)
              && bool_decide (new_comps = []))
          || bool_decide (list.last new_comps = Some pardir)
  then (new_comps ++ [comp])%list
  else removelast new_comps.

(** The leading slashes that [normpath] keeps: POSIX tells two of them
    from one, and three or more are one. *)
Definition initial_slashes (path : string) : nat :=
  if Str.startswith sep path
  then if Str.startswith sep (Str.drop 1 path)
          && negb (Str.startswith sep (Str.drop 2 path))
       then 2%nat else 1%nat
  else 0%nat.

(** The components that [normpath] keeps. *)
Definition norm_comps (path : string) : list string :=
  foldl (norm_step (initial_slashes path)) [] (Str.split sep path).

(** [os.path.normpath(path)]. *)
Definition normpath (path : string) : string :=
  if bool_decide (path = "") then curdir
  else
    let comps := norm_comps path in
    let path' := String.concat "/" comps in
    let path' :=
      match initial_slashes path with
      | 0%nat => path'
      | 1%nat => "/" ++ path'
      | _ => "//" ++ path'
      end in
    if bool_decide (path' = "") then curdir else path'.

(** [os.path.abspath(path)], with [cwd] the value of [os.getcwd()]. *)
Definition abspath (cwd path : string) : string :=
  normpath (if isabs path then path else join cwd [path]).

(** Length of the longest common prefix of two component lists:
    [len(commonprefix([a, b]))]. *)
Fixpoint common_prefix_len (a b : list string) : nat :=
  match a, b with
  | x :: a', y :: b' =>
      if bool_decide (x = y) then S (common_prefix_len a' b') else 0%nat
  | _, _ => 0%nat
  end.

(** [os.path.relpath(path, start)]. *)
Definition relpath (cwd path start : string) : Py.result string :=
  if bool_decide (path = "") then Py.Raise Py.ValueError
  else
    let nonempty := filter (λ x : string, x ≠ "") in
    let start_list := nonempty (Str.split sep (abspath cwd start)) in
    let path_list := nonempty (Str.split sep (abspath cwd path)) in
    let i := common_prefix_len start_list path_list in
    let rel_list :=
      (replicate (length start_list - i) pardir ++ List.skipn i path_list)%list in
    match rel_list with
    | [] => Py.Ok curdir
    | a :: p => Py.Ok (join a p)
    end.

(** A name that a normalized path is made of; a name like a file's or a
    directory's. *)
Definition path_name (x : string) : Prop :=
  x ≠ "" ∧ Str.rfind sep x = (-1)%Z.

Definition normal_name (x : string) : Prop :=
  path_name x ∧ x ≠ curdir ∧ x ≠ pardir.

(** What [join] puts before a relative last argument: nothing, or
    something that ends with a separator. *)
Definition is_dir_prefix (pre : string) : Prop :=
  pre = "" ∨ Str.endswith sep pre = true.

End PosixPath.


(** ** Effects *)

Module Eff.
Import Tensor.

(** What [enhance.py] does to the world, in the order it does it. *)
Inductive effect : Type :=
| Warning (msg : string)               (* logger.warning(msg) *)
| Stdout (msg : string)                (* print(msg) *)
| Open (path : string)                 (* open(path) *)
| Makedirs (path : string)             (* os.makedirs(path, exist_ok=True) *)
| Barrier                              (* distrib.barrier() *)
| Save (path : string) (wav : tensor2) (sr : Z).
                                       (* torchaudio.save(path, wav, sr) *)

(** A computation: the effects performed, then a value or the exception
    that ended it. *)
Definition io (A : Type) : Type := list effect * Py.result A.

Definition io_ret {A} (a : A) : io A := ([], Py.Ok a).

Definition io_bind {A B} (k : A → io B) (m : io A) : io B :=
  match m with
  | (l, Py.Ok a) => let '(l', r) := k a in (l ++ l', r)
  | (l, Py.Raise e) => (l, Py.Raise e)
  end.

Definition emit (e : effect) : io unit := ([e], Py.Ok tt).

Definition lift {A} (r : Py.result A) : io A := ([], r).

(** The paths of the audio files a log has written, oldest first. *)
Definition saved (l : list effect) : list string :=
  omap (λ e, match e with Save p _ _ => Some p | _ => None end) l.

End Eff.

#[global] Instance effect_eq_dec : EqDecision Eff.effect.
Proof. solve_decision. Defined.

#[global] Instance io_ret_inst : MRet Eff.io := @Eff.io_ret.
#[global] Instance io_bind_inst : MBind Eff.io := @Eff.io_bind.

(** ** [denoiser/enhance.py] *)

Module Enhance.
Import Tensor Eff.
Local Open Scope string_scope.

(** The model object, as far as [enhance.py] uses it: two attributes and
    the call [model(noisy)].  [model.eval()] and [.to(device)] return the
    same object. *)
Record Model : Type := {
  sample_rate : Z;
  chin : Z;
  forward : tensor3 → Py.result tensor3;
}.

(** [args.dset], for the callers that pass a configuration with one. *)
Record Paths : Type := {
  dset_noisy_dir : option string;
  dset_noisy_json : option string;
}.

(** The namespace built by [parser] (lines 27-54); [dset] is [None] for
    it, [hasattr(args, 'dset')] being false. *)
Record Args : Type := {
  device : string;
  dry : Qc;
  num_workers : Z;
  streaming : bool;
  out_dir : string;
  batch_size : Z;
  noisy_dir : option string;
  noisy_json : option string;
  dset : option Paths;
}.

(** The same namespace with another [--batch_size]. *)
Definition with_batch_size (b : Z) (a : Args) : Args :=
  {| device := device a; dry := dry a; num_workers := num_workers a;
     streaming := streaming a; out_dir := out_dir a; batch_size := b;
     noisy_dir := noisy_dir a; noisy_json := noisy_json a;
     dset := dset a |}.

(** Python values as [json.load] builds them. *)
Inductive pyval : Type :=
| PyNone
| PyBool (b : bool)
| PyNum (n : Z)
| PyStr (s : string)
| PyList (l : list pyval)
| PyDict (l : list (string * pyval)).

(** One element of the loader: [noisy_signals, filenames]. *)
Definition batch : Type := tensor3 * list string.

(** What [enhance.py] imports from the rest of the package and from the
    interpreter. *)
Class Collab : Type := {
  (** [denoiser.demucs.DemucsStreamer]: a stateful object. *)
  streamer : Type;
  DemucsStreamer : Model → Qc → Py.result streamer;
  feed : streamer → tensor2 → Py.result (tensor2 * streamer);
  flush : streamer → Py.result (tensor2 * streamer);
  (** [pretrained.get_model(args).to(args.device)]. *)
  get_model : Args → Py.result Model;
  (** [open(path)] followed by [json.load(f)]: the decoded document, or
      the exception of whichever of the two fails. *)
  json_load : string → Py.result pyval;
  (** [denoiser.audio.find_audio_files] and [Audioset(files, with_path,
      sample_rate, channels, convert)]. *)
  find_audio_files : string → Py.result pyval;
  dataset : Type;
  Audioset : pyval → bool → Z → Z → bool → Py.result dataset;
  (** [distrib.loader(dset, batch_size)], [distrib.rank]. *)
  loader : dataset → Z → list batch;
  rank : Z;
  (** [os.getcwd()], read by [os.path.relpath]. *)
  getcwd : string;
}.

Section WithCollab.
Context `{Collab}.

(** Lines 57-69.  [torch.set_num_threads(1)] and [torch.no_grad()] do not
    change the values computed. *)
Definition get_estimate (model : Model) (noisy : tensor3) (args : Args) :
    Py.result tensor3 :=
  if streaming args then
    streamer ← DemucsStreamer model (dry args);
    x ← index0 noisy;
    '(fed, streamer) ← feed streamer x;
    '(flushed, _) ← flush streamer;
    estimate ← cat_dim1 fed flushed;
    Py.Ok (unsqueeze0 estimate)
  else
    estimate ← forward model noisy;
    add3 (scale3 (1 - dry args) estimate) (scale3 (dry args) noisy).

(** Lines 88-91. *)
Definition write (wav : tensor2) (filename : string) (sr : Z) : io unit :=
  peak ← lift (max_item (abs2 wav));
  let wav := div2 wav (Py.max peak 1) in
  emit (Save filename wav sr).

(** Lines 75-83: the value of [output_path] when [write] is called. *)
Definition output_path (filename out_dir : string)
    (input_root : option string) : io string :=
  if Py.truthy input_root then
    rel_path ← lift (PosixPath.relpath getcwd filename (default "" input_root));
    let output_path := PosixPath.join out_dir [rel_path] in
    let output_path := fst (PosixPath.splitext output_path) ++ ".wav" in
    emit (Makedirs (PosixPath.dirname output_path));;
    mret output_path
  else
    mret (PosixPath.join out_dir
            [Str.rsplit1_head "." (PosixPath.basename filename) ++ ".wav"]).

(** Lines 72-85.  [zip] stops at the shortest of its three arguments. *)
Fixpoint save_wavs (estimates noisy_sigs : tensor3) (filenames : list string)
    (out_dir : string) (input_root : option string) (sr : Z) : io unit :=
  match estimates, noisy_sigs, filenames with
  | estimate :: estimates, _ :: noisy_sigs, filename :: filenames =>
      path ← output_path filename out_dir input_root;
      write estimate path sr;;
      save_wavs estimates noisy_sigs filenames out_dir input_root sr
  | _, _, _ => mret tt
  end.

(** [x if x else None]. *)
Definition or_none (x : option string) : option string :=
  if Py.truthy x then x else None.

(** Lines 113-116.  [Args] has the attribute [noisy_dir]. *)
Definition _estimate_and_save (model : Model) (noisy_signals : tensor3)
    (filenames : list string) (out_dir : string) (args : Args) : io unit :=
  estimate ← lift (get_estimate model noisy_signals args);
  let input_root := or_none (noisy_dir args) in
  save_wavs estimate noisy_signals filenames out_dir input_root
    (sample_rate model).

Definition no_input_warning : string :=
  "Small sample set was not provided by either noisy_dir or noisy_json. "
  ++ "Skipping enhancement.".

(** Lines 95-98: where [get_dataset] looks for the input. *)
Definition input_paths (args : Args) : Paths :=
  match dset args with
  | Some paths => paths
  | None => {| dset_noisy_dir := noisy_dir args;
               dset_noisy_json := noisy_json args |}
  end.

(** Lines 94-110. *)
Definition get_dataset (args : Args) (sample_rate channels : Z) :
    io (option dataset) :=
  let paths := input_paths args in
  if Py.truthy (dset_noisy_json paths) then
    let path := default "" (dset_noisy_json paths) in
    emit (Open path);;
    files ← lift (json_load path);
    d ← lift (Audioset files true sample_rate channels true);
    mret (Some d)
  else if Py.truthy (dset_noisy_dir paths) then
    files ← lift (find_audio_files (default "" (dset_noisy_dir paths)));
    d ← lift (Audioset files true sample_rate channels true);
    mret (Some d)
  else
    emit (Warning no_input_warning);;
    mret None.

(** *** The manifest check of the dataset *)

(** Modelled from the spec: the manifest format of section 6, "a list of
    file path strings, one entry per audio file to process".  The check
    is made by [Audioset] (denoiser/audio.py), which [get_dataset] hands
    the decoded manifest to; [enhance.py] makes none of its own. *)
Definition is_file_list (files : pyval) : bool :=
  match files with
  | PyList l =>
      forallb (λ v, match v with PyStr _ => true | _ => false end) l
  | _ => false
  end.

(** Modelled from the spec: the [ConfigError] of section 7, raised for a
    malformed manifest. *)
Definition ConfigError : Py.exn := Py.OtherError "ConfigError".


(** *** The loop of [enhance] (lines 138-158)

    The coordinator runs the statements of [enhance]; the processes of the
    [ProcessPoolExecutor] run the submitted jobs.  One step of the whole is
    a move of one of them, and a run is a list of moves (a schedule).  The
    effects of a job are logged when it finishes: the log orders the
    effects of one job among themselves and the jobs by the time they
    finish, and says nothing of how the file-system calls of two jobs that
    run at the same time interleave. *)

(** What stays the same during one run. *)
Record Run : Type := {
  run_model : Model;
  run_args : Args;
  run_out_dir : string;
}.

(** A job of the pool: its work and how far it got.  The other arguments
    of [pool.submit] (model, out_dir, args) are those of the run. *)
Inductive status : Type :=
| Queued
| Running
| Done (r : Py.result unit).

Record job : Type := {
  work : batch;
  st : status;
}.

(** Where the coordinator stands. *)
Inductive phase : Type :=
| Dispatching (rest : list batch)      (* the [for data in iterator] loop *)
| Draining (rest : list nat)           (* the [for pending in ...] loop *)
| Exiting (r : Py.result unit)         (* leaving [with]: shutdown(wait=True) *)
| Returned (r : Py.result unit).

(** [pendings] and [joined] hold futures, each the index of its job in
    the pool. *)
Record state : Type := {
  pc : phase;
  pool : list job;
  pendings : list nat;
  joined : list nat;
  log : list effect;
}.

Inductive actor : Type :=
| Coordinator
| Start (i : nat)
| Finish (i : nat).

#[global] Instance actor_eq_dec : EqDecision actor.
Proof. solve_decision. Defined.

(** Line 145. *)
Definition use_pool (args : Args) : bool :=
  bool_decide (device args = "cpu") && (1 <? num_workers args)%Z.

(** Lines 150-153. *)
Definition inline (r : Run) (data : batch) : io unit :=
  let '(noisy_signals, filenames) := data in
  estimate ← lift (get_estimate (run_model r) noisy_signals (run_args r));
  let input_root := or_none (noisy_dir (run_args r)) in
  save_wavs estimate noisy_signals filenames (run_out_dir r) input_root
    (sample_rate (run_model r)).

(** The call a worker makes for a job (lines 147-148). *)
Definition run_job (r : Run) (data : batch) : io unit :=
  let '(noisy_signals, filenames) := data in
  _estimate_and_save (run_model r) noisy_signals filenames (run_out_dir r)
    (run_args r).

Definition is_done (j : job) : bool :=
  match st j with Done _ => true | _ => false end.

Definition is_running (j : job) : bool :=
  match st j with Running => true | _ => false end.

(** The number of jobs that are running. *)
Definition running (pl : list job) : nat :=
  length (filter (λ j, is_running j = true) pl).

Definition coordinator (r : Run) (s : state) : option state :=
  match pc s with
  | Dispatching (data :: rest) =>
      if use_pool (run_args r) then
        Some {| pc := Dispatching rest;
                pool := pool s ++ [{| work := data; st := Queued |}];
                pendings := pendings s ++ [length (pool s)];
                joined := joined s;
                log := log s |}
      else
        let '(l, res) := inline r data in
        Some {| pc := match res with
                      | Py.Ok _ => Dispatching rest
                      | Py.Raise e => Exiting (Py.Raise e)
                      end;
                pool := pool s;
                pendings := pendings s;
                joined := joined s;
                log := log s ++ l |}
  | Dispatching [] =>
      match pendings s with
      | [] => Some {| pc := Exiting (Py.Ok tt); pool := pool s;
                      pendings := pendings s; joined := joined s;
                      log := log s |}
      | _ => Some {| pc := Draining (pendings s); pool := pool s;
                     pendings := pendings s; joined := joined s;
                     log := log s ++ [Stdout "Waiting for pending jobs..."] |}
      end
  | Draining (pending :: rest) =>
      match st <$> pool s !! pending with
      | Some (Done res) =>
          Some {| pc := match res with
                        | Py.Ok _ => Draining rest
                        | Py.Raise e => Exiting (Py.Raise e)
                        end;
                  pool := pool s;
                  pendings := pendings s;
                  joined := joined s ++ [pending];
                  log := log s |}
      | _ => None
      end
  | Draining [] =>
      Some {| pc := Exiting (Py.Ok tt); pool := pool s;
              pendings := pendings s; joined := joined s; log := log s |}
  | Exiting res =>
      if forallb is_done (pool s)
      then Some {| pc := Returned res; pool := pool s;
                   pendings := pendings s; joined := joined s;
                   log := log s |}
      else None
  | Returned _ => None
  end.

Definition worker_start (r : Run) (i : nat) (s : state) : option state :=
  match pool s !! i with
  | Some {| work := data; st := Queued |} =>
      if (Z.of_nat (running (pool s)) <? num_workers (run_args r))%Z
      then Some {| pc := pc s;
                   pool := <[i := {| work := data; st := Running |}]> (pool s);
                   pendings := pendings s; joined := joined s;
                   log := log s |}
      else None
  | _ => None
  end.

(** A running job comes to its end.  What its call did is put in the log
    here, in one piece; the place of that piece among the effects of the
    other jobs stands for any interleaving with them. *)
Definition worker_finish (r : Run) (i : nat) (s : state) : option state :=
  match pool s !! i with
  | Some {| work := data; st := Running |} =>
      let '(l, res) := run_job r data in
      Some {| pc := pc s;
              pool := <[i := {| work := data; st := Done res |}]> (pool s);
              pendings := pendings s; joined := joined s;
              log := log s ++ l |}
  | _ => None
  end.

Definition step (r : Run) (a : actor) (s : state) : option state :=
  match a with
  | Coordinator => coordinator r s
  | Start i => worker_start r i s
  | Finish i => worker_finish r i s
  end.

Fixpoint exec (r : Run) (sched : list actor) (s : state) : option state :=
  match sched with
  | [] => Some s
  | a :: sched => s' ← step r a s; exec r sched s'
  end.

Definition initial (l : list effect) (items : list batch) : state :=
  {| pc := Dispatching items; pool := []; pendings := []; joined := [];
     log := l |}.

(** Lines 121-123: the model that [enhance] uses. *)
Definition resolve_model (args : Args) (model : option Model) :
    Py.result Model :=
  match model with
  | Some m => Py.Ok m
  | None => get_model args
  end.

(** Lines 119-138, up to the creation of the pool: the run and the items
    of the loader, or [None] when there is no dataset. *)
Definition enhance_init (args : Args) (model : option Model)
    (local_out_dir : option string) : io (option (Run * list batch)) :=
  model ← lift (resolve_model args model);
  let out_dir :=
    if Py.truthy local_out_dir then default "" local_out_dir
    else out_dir args in
  dset ← get_dataset args (sample_rate model) (chin model);
  match dset with
  | None => mret None
  | Some dset =>
      let items := loader dset 1%Z in
      (if bool_decide (rank = 0%Z) then emit (Makedirs out_dir) else mret tt);;
      emit Barrier;;
      (* ProcessPoolExecutor(max_workers) refuses max_workers <= 0 *)
      (if (num_workers args <=? 0)%Z then lift (Py.Raise Py.ValueError)
       else mret tt);;
      mret (Some ({| run_model := model; run_args := args;
                     run_out_dir := out_dir |}, items))
  end.

(** Lines 119-158 under a schedule: the log and how the call ended, or
    [None] when the schedule does not take the call to its end. *)
Definition enhance (sched : list actor) (args : Args) (model : option Model)
    (local_out_dir : option string) : option (list effect * Py.result unit) :=
  match enhance_init args model local_out_dir with
  | (l, Py.Raise e) => Some (l, Py.Raise e)
  | (l, Py.Ok None) => Some (l, Py.Ok tt)
  | (l, Py.Ok (Some (r, items))) =>
      s ← exec r sched (initial l items);
      match pc s with
      | Returned res => Some (log s, res)
      | _ => None
      end
  end.

(** Lines 161-165: the log and the exit status of the process (1 for an
    exception that nothing caught). *)
Definition main (sched : list actor) (args : Args) : option (list effect * Z) :=
  '(l, res) ← enhance sched args None (Some (out_dir args));
  Some (l, match res with Py.Ok _ => 0%Z | Py.Raise _ => 1%Z end).

(** A schedule that takes a run with [n] items to its end: the
    coordinator first submits or runs everything, then each job is run in
    turn, then the coordinator joins and leaves. *)
Definition sequential (n : nat) : list actor :=
  (replicate (S n) Coordinator
   ++ flat_map (λ i, [Start i; Finish i]) (seq 0 n)
   ++ replicate (S (S n)) Coordinator)%list.

(** The items run one after the other, up to the first failure. *)
Fixpoint run_inline (r : Run) (items : list batch) : io unit :=
  match items with
  | [] => mret tt
  | data :: rest => inline r data;; run_inline r rest
  end.

(** *** How far a run is from its end

    A bound on the number of moves left: every move lowers it. *)

Definition job_weight (j : job) : nat :=
  match st j with
  | Queued => 2
  | Running => 1
  | Done _ => 0
  end.

Definition measure (s : state) : nat :=
  match pc s with
  | Dispatching rest => 4 * length rest + length (pool s) + 3
  | Draining rest => length rest + 2
  | Exiting _ => 1
  | Returned _ => 0
  end + sum_list_with job_weight (pool s).

Definition returned (s : state) : bool :=
  match pc s with
  | Returned _ => true
  | _ => false
  end.

(** *** What holds of every state of a run that uses the pool *)

(** The results of the jobs for [items], in the order of the items. *)
Definition results (r : Run) (items : list batch) : list (Py.result unit) :=
  map (λ data, (run_job r data).2) items.

(** How often an actor moves in a schedule. *)
Definition occurrences (a : actor) (sched : list actor) : nat :=
  length (filter (λ x, x = a) sched).

(** The effects [x] are in the log [l], together and in order. *)
Definition within (x l : list effect) : Prop :=
  ∃ before after : list effect, l = (before ++ x ++ after)%list.

(** The futures joined and the way the drain ended, for jobs with the
    results [rs]: all of them joined and no failure, or the futures up to
    the first failure joined and that failure raised. *)
Definition drained (rs : list (Py.result unit)) (joined : list nat)
    (res : Py.result unit) : Prop :=
  match res with
  | Py.Ok _ => joined = seq 0 (length rs) ∧ Forall (λ x, x = Py.Ok tt) rs
  | Py.Raise e =>
      ∃ k, joined = seq 0 (S k) ∧ rs !! k = Some (Py.Raise e)
           ∧ ∀ i, (i < k)%nat → rs !! i = Some (Py.Ok tt)
  end.

(** The job [j] of index [i] after the moves [done], with the log [lg]:
    a queued job was never started, a running one was started once, and
    a job that is done was started and finished once, holds the result of
    its call, and its effects are in the log. *)
Definition job_ok (r : Run) (done : list actor) (lg : list effect)
    (i : nat) (j : job) : Prop :=
  match st j with
  | Queued => occurrences (Start i) done = 0
              ∧ occurrences (Finish i) done = 0
  | Running => occurrences (Start i) done = 1
               ∧ occurrences (Finish i) done = 0
  | Done res => occurrences (Start i) done = 1
                ∧ occurrences (Finish i) done = 1
                ∧ res = (run_job r (work j)).2
                ∧ within (run_job r (work j)).1 lg
  end.

(** The state [s] reached from [initial l0 items] by the moves [done]. *)
Record inv (r : Run) (l0 : list effect) (items : list batch)
    (done : list actor) (s : state) : Prop := {
  inv_work : work <$> pool s = take (length (pool s)) items;
  inv_pendings : pendings s = seq 0 (length (pool s));
  inv_status : ∀ i j, pool s !! i = Some j → job_ok r done (log s) i j;
  inv_fresh : ∀ i, (length (pool s) ≤ i)%nat →
    occurrences (Start i) done = 0 ∧ occurrences (Finish i) done = 0;
  inv_log : l0 `prefix_of` log s;
  inv_phase :
    match pc s with
    | Dispatching rest =>
        rest = drop (length (pool s)) items ∧ joined s = []
    | Draining rest =>
        length (pool s) = length items
        ∧ ∃ k, joined s = seq 0 k ∧ rest = seq k (length items - k)
               ∧ (k ≤ length items)%nat
               ∧ ∀ i, (i < k)%nat → results r items !! i = Some (Py.Ok tt)
    | Exiting res =>
        length (pool s) = length items
        ∧ drained (results r items) (joined s) res
    | Returned res =>
        length (pool s) = length items
        ∧ drained (results r items) (joined s) res
        ∧ Forall (λ j, is_done j = true) (pool s)
    end;
}.

(** *** What a run has logged *)

(** The effects of the calls that the jobs for [items] make, item by
    item. *)
Definition job_effects (r : Run) (items : list batch) : list effect :=
  flat_map (λ data, (run_job r data).1) items.

(** The effects of the jobs of a pool that are done. *)
Definition done_effects (r : Run) (pl : list job) : list effect :=
  flat_map (λ j, if is_done j then (run_job r (work j)).1 else []) pl.

(** What the coordinator has printed by itself (lines 155-156). *)
Definition printed (s : state) : list effect :=
  match pc s with
  | Dispatching _ => []
  | _ => match pendings s with
         | [] => []
         | _ => [Stdout "Waiting for pending jobs..."]
         end
  end.

End WithCollab.
End Enhance.

(** ** A concrete set of collaborators

    Used to run the definitions above on concrete inputs. *)

Module Demo.
Import Tensor Eff Enhance.
Local Open Scope string_scope.

Definition q (n : Z) (d : positive) : Qc := Q2Qc (n # d).

(** A model that halves every sample and fails on the clip [[[-3]]]. *)
Definition model : Model :=
  {| sample_rate := 16000;
     chin := 1;
     forward := λ t,
       if bool_decide (t = [[[q (-3) 1]]]) then Py.Raise Py.InferenceError
       else Py.Ok (scale3 (q 1 2) t) |}.

(** A streaming engine that applies its own gain, and holds the last
    sample of every channel back until it is flushed. *)
Record engine : Type := {
  gain : Qc;
  held : tensor2;
}.

#[global] Instance engine_eq_dec : EqDecision engine.
Proof. solve_decision. Defined.

Definition engine_new (m : Model) (dry : Qc) : Py.result engine :=
  Py.Ok {| gain := ((1 - dry) * q 1 2 + dry)%Qc; held := [] |}.

Definition engine_feed (e : engine) (x : tensor2) :
    Py.result (tensor2 * engine) :=
  let y := scale2 (gain e) x in
  Py.Ok (map (λ ch, take (length ch - 1) ch) y,
         {| gain := gain e; held := map (λ ch, drop (length ch - 1) ch) y |}).

Definition engine_flush (e : engine) : Py.result (tensor2 * engine) :=
  Py.Ok (held e, {| gain := gain e; held := [] |}).

(** The manifests and directories of the file system. *)
Definition manifests (path : string) : Py.result pyval :=
  if bool_decide (path = "/m.json") then Py.Ok (PyList [PyStr "/x/c.mp3"])
  else if bool_decide (path = "/obj.json")
  then Py.Ok (PyDict [("a", PyNum 1)])
  else if bool_decide (path = "/bad.json") then Py.Raise Py.JSONDecodeError
  else Py.Raise Py.OSError.

Definition directories (path : string) : Py.result pyval :=
  if bool_decide (path = "/in")
  then Py.Ok (PyList [PyStr "/in/a.wav"; PyStr "/in/d/b.wav"])
  else if bool_decide (path = "/five")
  then Py.Ok (PyList [PyStr "/five/1.wav"; PyStr "/five/2.wav";
                      PyStr "/five/3.wav"; PyStr "/five/4.wav";
                      PyStr "/five/5.wav"])
  else Py.Ok (PyList []).

(** The decoded audio of a file. *)
Definition audio (path : string) : tensor2 :=
  if bool_decide (path = "/in/a.wav") then [[q 1 2; q (-1) 4]]
  else if bool_decide (path = "/in/d/b.wav") then [[q 3 1; q (-1) 1]]
  else if bool_decide (path = "/x/c.mp3") then [[q 1 4]]
  else if bool_decide (path = "/five/1.wav") then [[q 1 1]]
  else if bool_decide (path = "/five/2.wav") then [[q 2 1]]
  else if bool_decide (path = "/five/3.wav") then [[q (-3) 1]]
  else if bool_decide (path = "/five/4.wav") then [[q 4 1]]
  else if bool_decide (path = "/five/5.wav") then [[q 5 1]]
  else [[0%Qc]].

(** Modelled from the spec: [Audioset] (denoiser/audio.py).  Built from
    a list of file path strings it keeps the list and reads no file; a
    manifest of any other shape is a configuration error (sections 4.1
    and 6). *)
Definition audioset (files : pyval) (with_path : bool)
    (sample_rate channels : Z) (convert : bool) : Py.result pyval :=
  if is_file_list files then Py.Ok files else Py.Raise ConfigError.

Definition path_strings (files : pyval) : list string :=
  match files with
  | PyList l => omap (λ v, match v with PyStr s => Some s | _ => None end) l
  | _ => []
  end.

Fixpoint chunks {A} (fuel n : nat) (l : list A) : list (list A) :=
  match fuel, l with
  | S fuel, _ :: _ => take n l :: chunks fuel n (drop n l)
  | _, _ => []
  end.

(** A loader that yields the files in order, [batch_size] at a time. *)
Definition batches (files : pyval) (batch_size : Z) : list batch :=
  let paths := path_strings files in
  if (batch_size <=? 0)%Z then []
  else map (λ ps, (map audio ps, ps))
           (chunks (length paths) (Z.to_nat batch_size) paths).

#[export] Instance collab : Collab :=
  {| streamer := engine;
     DemucsStreamer := engine_new;
     feed := engine_feed;
     flush := engine_flush;
     get_model := λ _, Py.Ok model;
     json_load := manifests;
     find_audio_files := directories;
     dataset := pyval;
     Audioset := audioset;
     loader := batches;
     rank := 0;
     getcwd := "/home/u" |}.

Definition args0 : Args :=
  {| device := "cpu"; dry := 0; num_workers := 10; streaming := false;
     out_dir := "enhanced"; batch_size := 1; noisy_dir := None;
     noisy_json := None; dset := None |}.

Definition with_input (dir json : option string) (a : Args) : Args :=
  {| device := device a; dry := dry a; num_workers := num_workers a;
     streaming := streaming a; out_dir := out_dir a;
     batch_size := batch_size a; noisy_dir := dir; noisy_json := json;
     dset := dset a |}.

Definition with_workers (n : Z) (a : Args) : Args :=
  {| device := device a; dry := dry a; num_workers := n;
     streaming := streaming a; out_dir := out_dir a;
     batch_size := batch_size a; noisy_dir := noisy_dir a;
     noisy_json := noisy_json a; dset := dset a |}.

Definition with_dry (d : Qc) (streaming : bool) (a : Args) : Args :=
  {| device := device a; dry := d; num_workers := num_workers a;
     streaming := streaming; out_dir := out_dir a;
     batch_size := batch_size a; noisy_dir := noisy_dir a;
     noisy_json := noisy_json a; dset := dset a |}.

Definition with_out_dir (d : string) (a : Args) : Args :=
  {| device := device a; dry := dry a; num_workers := num_workers a;
     streaming := streaming a; out_dir := d;
     batch_size := batch_size a; noisy_dir := noisy_dir a;
     noisy_json := noisy_json a; dset := dset a |}.

(** A run over the five files of [/five], the third of which the model
    fails on, with a pool of four workers. *)
Definition five_args : Args :=
  with_out_dir "/out" (with_workers 4 (with_input (Some "/five") None args0)).

Definition five_run : Run :=
  {| run_model := model; run_args := five_args; run_out_dir := "/out" |}.

Definition five_items : list batch :=
  batches (PyList [PyStr "/five/1.wav"; PyStr "/five/2.wav";
                   PyStr "/five/3.wav"; PyStr "/five/4.wav";
                   PyStr "/five/5.wav"]) 1.

(** All five items are submitted; the first three jobs run, the third
    one failing; the coordinator joins them and meets the failure. *)
Definition until_failure : list actor :=
  replicate 6 Coordinator
  ++ [Start 0; Start 1; Start 2; Finish 0; Finish 1; Finish 2]
  ++ replicate 3 Coordinator.

(** The two jobs left run, and the coordinator leaves. *)
Definition after_failure : list actor :=
  [Start 3; Start 4; Finish 3; Finish 4; Coordinator].

(** The same collaborators over a file system whose directories cannot
    be listed. *)
Definition unreadable : Collab :=
  {| streamer := engine;
     DemucsStreamer := engine_new;
     feed := engine_feed;
     flush := engine_flush;
     get_model := λ _, Py.Ok model;
     json_load := manifests;
     find_audio_files := λ _, Py.Raise Py.OSError;
     dataset := pyval;
     Audioset := audioset;
     loader := batches;
     rank := 0;
     getcwd := "/home/u" |}.

(** Another schedule of the same run: the jobs are run from the last
    one to the first, and the coordinator joins once all are done. *)
Definition last_first : list actor :=
  replicate 6 Coordinator
  ++ [Start 4; Finish 4; Start 3; Finish 3; Start 2; Start 1; Start 0;
      Finish 0; Finish 2; Finish 1]
  ++ replicate 4 Coordinator.

(** A run over the two files of [/in], which the model does not fail
    on, with [n] workers. *)
Definition in_run (n : Z) : Run :=
  {| run_model := model;
     run_args :=
       with_out_dir "/out"
         (with_workers n (with_input (Some "/in") None args0));
     run_out_dir := "/out" |}.

Definition in_items : list batch :=
  batches (PyList [PyStr "/in/a.wav"; PyStr "/in/d/b.wav"]) 1.

End Demo.

(** * Properties *)

(** Closes a goal that is a decidable statement about concrete values. *)
Ltac by_computation :=
  apply (bool_decide_unpack _); vm_compute; exact I.

(** ** Tensor arithmetic *)

Module TensorFacts.
Import Tensor.

Lemma zip_same_ok {A} (f : A → A → Py.result A) (g : A → A → A) a b :
  Forall2 (λ x y, f x y = Py.Ok (g x y)) a b →
  zip_same f a b = Py.Ok (zip_with g a b).
Proof.
  induction 1 as [|x y a b Hxy _ IH]; [done|].
  cbn. rewrite Hxy. cbn. rewrite IH. done.
Qed.

Lemma broadcast_ok {A} (f : A → A → Py.result A) (g : A → A → A) a b :
  Forall2 (λ x y, f x y = Py.Ok (g x y)) a b →
  broadcast f a b = Py.Ok (zip_with g a b).
Proof.
  intros Hab. unfold broadcast.
  rewrite decide_True by eauto using Forall2_length.
  by apply zip_same_ok.
Qed.

Lemma add1_ok a b :
  same_shape1 a b → add1 a b = Py.Ok (zip_with Qcplus a b).
Proof.
  intros Hab. apply broadcast_ok.
  apply Forall2_same_length_lookup_2; [done|]. done.
Qed.

Lemma add2_ok a b :
  same_shape2 a b → add2 a b = Py.Ok (zip_with (zip_with Qcplus) a b).
Proof.
  intros Hab. apply broadcast_ok.
  eapply Forall2_impl; [exact Hab|]. intros x y. apply add1_ok.
Qed.

Lemma add3_ok a b :
  same_shape3 a b →
  add3 a b = Py.Ok (pointwise3 Qcplus a b).
Proof.
  intros Hab. apply broadcast_ok.
  eapply Forall2_impl; [exact Hab|]. intros x y. apply add2_ok.
Qed.

Lemma same_shape3_scale k k' a b :
  same_shape3 a b → same_shape3 (scale3 k a) (scale3 k' b).
Proof.
  unfold same_shape3, scale3. intros Hab.
  apply Forall2_fmap. eapply Forall2_impl; [exact Hab|].
  intros x y Hxy. unfold scale2. apply Forall2_fmap.
  eapply Forall2_impl; [exact Hxy|].
  intros u v Huv. unfold same_shape1, scale1 in *. cbn.
  by rewrite !length_map.
Qed.

Lemma pointwise3_scale k k' a b :
  pointwise3 Qcplus (scale3 k a) (scale3 k' b)
  = pointwise3 (λ x y, k * x + k' * y)%Qc a b.
Proof.
  unfold pointwise3, scale3, scale2, scale1.
  rewrite zip_with_fmap_l, zip_with_fmap_r.
  apply zip_with_ext; [|done..]. intros x y.
  rewrite zip_with_fmap_l, zip_with_fmap_r.
  apply zip_with_ext; [|done..]. intros u v.
  by rewrite zip_with_fmap_l, zip_with_fmap_r.
Qed.

Lemma zip_with_fst_same {A B} (g : A → B → A) a b :
  Forall2 (λ x y, g x y = x) a b → zip_with g a b = a.
Proof. induction 1; cbn; congruence. Qed.

Lemma zip_with_snd_same {A} (g : A → A → A) a b :
  Forall2 (λ x y, g x y = y) a b → zip_with g a b = b.
Proof. induction 1; cbn; congruence. Qed.

Lemma pointwise3_left g a b :
  (∀ x y, g x y = x) → same_shape3 a b → pointwise3 g a b = a.
Proof.
  intros Hg Hab. unfold pointwise3.
  apply zip_with_fst_same.
  eapply Forall2_impl; [exact Hab|]. intros x y Hxy.
  apply zip_with_fst_same.
  eapply Forall2_impl; [exact Hxy|]. intros u v Huv.
  apply zip_with_fst_same.
  apply Forall2_same_length_lookup_2; [done|]. intros; apply Hg.
Qed.

Lemma pointwise3_right g a b :
  (∀ x y, g x y = y) → same_shape3 a b → pointwise3 g a b = b.
Proof.
  intros Hg Hab. unfold pointwise3.
  apply zip_with_snd_same.
  eapply Forall2_impl; [exact Hab|]. intros x y Hxy.
  apply zip_with_snd_same.
  eapply Forall2_impl; [exact Hxy|]. intros u v Huv.
  apply zip_with_snd_same.
  apply Forall2_same_length_lookup_2; [done|]. intros; apply Hg.
Qed.

End TensorFacts.

(** ** The estimator (lines 57-69) *)

Section Estimator.
Import Tensor TensorFacts Enhance.
Context `{Collab}.

Lemma get_estimate_whole_clip model noisy raw args :
  streaming args = false →
  forward model noisy = Py.Ok raw →
  get_estimate model noisy args
  = add3 (scale3 (1 - dry args) raw) (scale3 (dry args) noisy).
Proof. intros Hs Hraw. unfold get_estimate. rewrite Hs, Hraw. done. Qed.

End Estimator.

(** C3: without streaming, the estimate is the model's output on the whole
    clip blended sample by sample with the input,
    [(1 - dry) * raw + dry * noisy], for every [dry] (so for those of
    [0, 1]); [dry = 0] gives the model's output and [dry = 1] the input. *)
Theorem get_estimate_blend `{Enhance.Collab} (model : Enhance.Model)
    (noisy raw : Tensor.tensor3) (args : Enhance.Args) :
  Enhance.streaming args = false →
  Enhance.forward model noisy = Py.Ok raw →
  Tensor.same_shape3 raw noisy →
  Enhance.get_estimate model noisy args
  = Py.Ok (Tensor.pointwise3
             (λ e n, (1 - Enhance.dry args) * e + Enhance.dry args * n)%Qc
             raw noisy)
  ∧ (Enhance.dry args = 0%Qc →
     Enhance.get_estimate model noisy args = Py.Ok raw)
  ∧ (Enhance.dry args = 1%Qc →
     Enhance.get_estimate model noisy args = Py.Ok noisy).
Proof.
  intros Hs Hraw Hshape.
  assert (Hblend : Enhance.get_estimate model noisy args
    = Py.Ok (Tensor.pointwise3
               (λ e n, (1 - Enhance.dry args) * e + Enhance.dry args * n)%Qc
               raw noisy)).
  { rewrite (get_estimate_whole_clip _ _ raw) by done.
    rewrite TensorFacts.add3_ok
      by (by apply TensorFacts.same_shape3_scale).
    by rewrite TensorFacts.pointwise3_scale. }
  split; [exact Hblend|]. split; intros Hdry; rewrite Hblend, Hdry; f_equal.
  - apply TensorFacts.pointwise3_left; [|done]. intros x y. ring.
  - apply TensorFacts.pointwise3_right; [|done]. intros x y. ring.
Qed.

Lemma get_estimate_blend_witness :
  Enhance.get_estimate (H := Demo.collab) Demo.model
    [[[Demo.q 1 2; Demo.q (-1) 4]]]
    (Demo.with_dry (Demo.q 1 4) false Demo.args0)
  = Py.Ok (Tensor.pointwise3 (λ e n, (1 - Demo.q 1 4) * e + Demo.q 1 4 * n)%Qc
             [[[Demo.q 1 4; Demo.q (-1) 8]]]
             [[[Demo.q 1 2; Demo.q (-1) 4]]]).
Proof.
  refine (proj1 (get_estimate_blend (H := Demo.collab) Demo.model
                   [[[Demo.q 1 2; Demo.q (-1) 4]]]
                   [[[Demo.q 1 4; Demo.q (-1) 8]]]
                   (Demo.with_dry (Demo.q 1 4) false Demo.args0) _ _ _)).
  - reflexivity.
  - by_computation.
  - repeat constructor.
Defined.

(** C6: with streaming, the estimate is what [feed] returned for the clip
    followed, along the time axis of every channel, by what [flush]
    returned; the engine is the one built from the model and [dry], and
    nothing else is done to its output. *)
Theorem get_estimate_streaming `{Enhance.Collab} (model : Enhance.Model)
    (clip : Tensor.tensor2) (rest : Tensor.tensor3) (args : Enhance.Args)
    (s0 s1 s2 : Enhance.streamer) (fed flushed : Tensor.tensor2) :
  Enhance.streaming args = true →
  Enhance.DemucsStreamer model (Enhance.dry args) = Py.Ok s0 →
  Enhance.feed s0 clip = Py.Ok (fed, s1) →
  Enhance.flush s1 = Py.Ok (flushed, s2) →
  length fed = length flushed →
  Enhance.get_estimate model (clip :: rest) args
  = Py.Ok [zip_with app fed flushed].
Proof.
  intros Hs Hnew Hfeed Hflush Hlen. unfold Enhance.get_estimate.
  rewrite Hs, Hnew. cbn. rewrite Hfeed. cbn. rewrite Hflush. cbn.
  assert (Hcat : Tensor.cat_dim1 fed flushed
                 = Py.Ok (zip_with app fed flushed)).
  { clear -Hlen. revert flushed Hlen.
    induction fed as [|x fed IH]; intros [|y flushed] Hlen;
      try discriminate; [done|].
    cbn. rewrite IH by (cbn in Hlen; lia). done. }
  rewrite Hcat. done.
Qed.

Lemma get_estimate_streaming_witness :
  Enhance.get_estimate (H := Demo.collab) Demo.model
    [[[Demo.q 1 1; Demo.q 2 1; Demo.q 4 1]]]
    (Demo.with_dry 1%Qc true Demo.args0)
  = Py.Ok [[[Demo.q 1 1; Demo.q 2 1; Demo.q 4 1]]].
Proof.
  refine (get_estimate_streaming (H := Demo.collab) Demo.model
            [[Demo.q 1 1; Demo.q 2 1; Demo.q 4 1]] []
            (Demo.with_dry 1%Qc true Demo.args0)
            {| Demo.gain := 1%Qc; Demo.held := [] |}
            {| Demo.gain := 1%Qc; Demo.held := [[Demo.q 4 1]] |}
            {| Demo.gain := 1%Qc; Demo.held := [] |}
            [[Demo.q 1 1; Demo.q 2 1]] [[Demo.q 4 1]] _ _ _ _ _).
  - reflexivity.
  - cbn. by_computation.
  - cbn. by_computation.
  - cbn. by_computation.
  - reflexivity.
Defined.

(** ** The writer (lines 88-91) *)

Module WriterFacts.
Import Tensor.
Local Open Scope Qc_scope.

Lemma Qcmax_cases a b : (a < b ∧ Qcmax a b = b) ∨ (b ≤ a ∧ Qcmax a b = a).
Proof.
  unfold Qcmax. destruct (a ?= b) eqn:Hc.
  - right. split; [|done]. apply Qceq_alt in Hc. subst. apply Qcle_refl.
  - left. split; [|done]. by apply Qclt_alt.
  - right. split; [|done]. apply Qclt_le_weak. by apply Qcgt_alt.
Qed.

Lemma Py_max_cases a b : (a < b ∧ Py.max a b = b) ∨ (b ≤ a ∧ Py.max a b = a).
Proof. apply Qcmax_cases. Qed.

(** The running maximum is an element and bounds every element. *)
Lemma foldl_Qcmax_spec xs x :
  foldl Qcmax x xs ∈ x :: xs ∧ Forall (λ y, y ≤ foldl Qcmax x xs) (x :: xs).
Proof.
  revert x. induction xs as [|y xs IH]; intros x; cbn.
  - split; [left|]. repeat constructor. apply Qcle_refl.
  - destruct (IH (Qcmax x y)) as [Hin Hall].
    apply Forall_cons in Hall as [Hm Hall].
    destruct (Qcmax_cases x y) as [[Hlt Heq]|[Hle Heq]]; rewrite Heq in *.
    + split.
      * right. done.
      * constructor; [|constructor; done].
        eapply Qcle_trans; [apply Qclt_le_weak, Hlt|done].
    + split.
      * apply elem_of_cons in Hin as [->|Hin]; [left|right; right; done].
      * constructor; [done|]. constructor; [|done].
        eapply Qcle_trans; [exact Hle|done].
Qed.

(** An element that bounds every element is the maximum. *)
Lemma foldl_Qcmax_unique xs x m :
  m ∈ x :: xs → Forall (λ y, y ≤ m) (x :: xs) → foldl Qcmax x xs = m.
Proof.
  intros Hin Hall. destruct (foldl_Qcmax_spec xs x) as [Hin' Hall'].
  apply Qcle_antisym.
  - eapply Forall_forall in Hall; [exact Hall|done].
  - eapply Forall_forall in Hall'; [exact Hall'|done].
Qed.

Lemma concat_map_map {A B} (f : A → B) (t : list (list A)) :
  concat (map (map f) t) = map f (concat t).
Proof.
  induction t as [|x t IH]; [done|]. cbn. by rewrite IH, map_app.
Qed.

Lemma max_item_spec t m :
  max_item t = Py.Ok m ↔ m ∈ concat t ∧ Forall (λ y, y ≤ m) (concat t).
Proof.
  unfold max_item. destruct (concat t) as [|x xs].
  - split; [done|]. intros [Hin _]. by apply elem_of_nil in Hin.
  - split.
    + intros [= <-]. apply foldl_Qcmax_spec.
    + intros [Hin Hall]. f_equal. by apply foldl_Qcmax_unique.
Qed.

Lemma max_item_nonempty t :
  concat t ≠ [] → ∃ m, max_item t = Py.Ok m.
Proof. unfold max_item. destruct (concat t); [done|eauto]. Qed.

Lemma Qcinv_nonneg p : 0 < p → 0 ≤ / p.
Proof.
  intros Hp. apply (Qcmult_lt_0_le_reg_r _ _ p); [done|].
  rewrite Qcmult_0_l, Qcmult_inv_l.
  - done.
  - intros ->. by apply (Qclt_not_eq 0 0).
Qed.

Lemma Qcabs_div x p : 0 < p → Qcabs (x / p) = Qcabs x / p.
Proof.
  intros Hp. unfold Qcdiv. rewrite Qcabs_Qcmult.
  f_equal. apply Qcabs_pos. by apply Qcinv_nonneg.
Qed.

Lemma div2_one t : div2 t 1 = t.
Proof.
  unfold div2. rewrite <-(list_fmap_id t) at 2.
  apply list_fmap_ext. intros _ ch _. rewrite <-(list_fmap_id ch) at 2.
  apply list_fmap_ext. intros _ x _. cbn.
  unfold Qcdiv. replace (/ 1) with 1 by (by apply Qc_is_canon).
  apply Qcmult_1_r.
Qed.

Lemma Qcdiv_self p : 0 < p → p / p = 1.
Proof.
  intros Hp. apply Qcmult_inv_r. intros ->. by apply (Qclt_not_eq 0 0).
Qed.

Lemma Qcdiv_le_one x p : 0 < p → x ≤ p → x / p ≤ 1.
Proof.
  intros Hp Hx. rewrite <-(Qcdiv_self p) by done.
  apply Qcmult_le_compat_r; [done|]. by apply Qcinv_nonneg.
Qed.

Lemma Qcdiv_shrinks x d : 0 ≤ x → 1 ≤ d → x / d ≤ x.
Proof.
  intros Hx Hd.
  assert (Hpos : 0 < d) by (eapply Qclt_le_trans; [|exact Hd]; done).
  apply (Qcmult_lt_0_le_reg_r _ _ d); [done|].
  unfold Qcdiv. rewrite <-Qcmult_assoc, Qcmult_inv_l.
  - rewrite Qcmult_1_r. rewrite <-(Qcmult_1_r x) at 1.
    by apply Qcmult_le_mono_nonneg_l.
  - intros ->. by apply (Qclt_not_eq 0 0).
Qed.

Lemma Py_max_one_ge peak : 1 ≤ Py.max peak 1.
Proof.
  destruct (Py_max_cases peak 1) as [[_ ->]|[Hle ->]];
    [apply Qcle_refl|done].
Qed.

End WriterFacts.

(** C4: [write] persists the waveform divided by [max(peak, 1)], where
    [peak] is its largest absolute sample.  No sample grows; a waveform
    whose peak is at most 1 is persisted as it is; one whose peak exceeds
    1 is persisted with peak exactly 1. *)
Theorem write_normalizes (wav : Tensor.tensor2) (filename : string) (sr : Z)
    (peak : Qc) :
  Tensor.max_item (Tensor.abs2 wav) = Py.Ok peak →
  (Exists (λ x, Qcabs x = peak) (concat wav)
   ∧ Forall (λ x, (Qcabs x ≤ peak)%Qc) (concat wav))
  ∧ Enhance.write wav filename sr
    = ([Eff.Save filename (Tensor.div2 wav (Py.max peak 1)) sr], Py.Ok tt)
  ∧ Forall2 (Forall2 (λ x y, (Qcabs y ≤ Qcabs x)%Qc)) wav
      (Tensor.div2 wav (Py.max peak 1))
  ∧ ((peak ≤ 1)%Qc → Tensor.div2 wav (Py.max peak 1) = wav)
  ∧ ((1 < peak)%Qc →
     Tensor.max_item (Tensor.abs2 (Tensor.div2 wav (Py.max peak 1)))
     = Py.Ok 1%Qc).
Proof.
  intros Hpeak.
  pose proof Hpeak as Hspec. apply WriterFacts.max_item_spec in Hspec.
  unfold Tensor.abs2 in Hspec. rewrite WriterFacts.concat_map_map in Hspec.
  destruct Hspec as [Hin Hall].
  apply list_elem_of_fmap in Hin as (x0 & Hx0 & Hin).
  assert (Hbound : Forall (λ x, (Qcabs x ≤ peak)%Qc) (concat wav)).
  { apply Forall_forall. intros x Hx.
    apply (proj1 (Forall_forall _ _) Hall).
    apply list_elem_of_fmap. eauto. }
  clear Hall. rename Hbound into Hall.
  split; [|split; [|split; [|split]]].
  - split; [|exact Hall]. apply Exists_exists. eauto.
  - unfold Enhance.write. rewrite Hpeak. done.
  - unfold Tensor.div2. apply Forall2_fmap_r, Forall_Forall2_diag.
    apply Forall_forall. intros ch _.
    apply Forall2_fmap_r, Forall_Forall2_diag.
    apply Forall_forall. intros x _. cbn.
    pose proof (WriterFacts.Py_max_one_ge peak) as Hd.
    rewrite WriterFacts.Qcabs_div
      by (eapply Qclt_le_trans; [|exact Hd]; done).
    apply WriterFacts.Qcdiv_shrinks; [apply Qcabs_nonneg|done].
  - intros Hle.
    destruct (WriterFacts.Py_max_cases peak 1) as [[_ ->]|[Hge ->]].
    + apply WriterFacts.div2_one.
    + replace peak with 1%Qc by (by apply Qcle_antisym).
      apply WriterFacts.div2_one.
  - intros Hgt.
    assert (Hpos : (0 < peak)%Qc) by (eapply Qclt_trans; [|exact Hgt]; done).
    destruct (WriterFacts.Py_max_cases peak 1) as [[Hlt _]|[_ ->]].
    { exfalso. eapply Qclt_not_le; [exact Hlt|]. by apply Qclt_le_weak. }
    apply WriterFacts.max_item_spec.
    unfold Tensor.abs2, Tensor.div2.
    rewrite !WriterFacts.concat_map_map. split.
    + apply list_elem_of_fmap. exists (x0 / peak)%Qc. split.
      * rewrite WriterFacts.Qcabs_div, <-Hx0 by done.
        symmetry. by apply WriterFacts.Qcdiv_self.
      * apply list_elem_of_fmap. eauto.
    + apply Forall_forall. intros y Hy.
      apply list_elem_of_fmap in Hy as (z & -> & Hz).
      apply list_elem_of_fmap in Hz as (x & -> & Hx).
      rewrite WriterFacts.Qcabs_div by done.
      apply WriterFacts.Qcdiv_le_one; [done|].
      by apply (proj1 (Forall_forall _ _) Hall).
Qed.

Lemma write_normalizes_witness :
  Enhance.write [[Demo.q 3 1; Demo.q (-1) 1]] "/out/d/b.wav" 16000
  = ([Eff.Save "/out/d/b.wav"
        (Tensor.div2 [[Demo.q 3 1; Demo.q (-1) 1]] (Py.max (Demo.q 3 1) 1))
        16000], Py.Ok tt).
Proof.
  refine (proj1 (proj2 (write_normalizes [[Demo.q 3 1; Demo.q (-1) 1]]
                          "/out/d/b.wav" 16000 (Demo.q 3 1) _))).
  by_computation.
Defined.

(** ** Strings and paths *)

Module StrFacts.
Import Str.
Local Open Scope string_scope.
Local Open Scope Z_scope.

Local Abbreviation len s := (Z.of_nat (String.length s)).

Lemma app_cons x a b : String x a ++ b = String x (a ++ b).
Proof. reflexivity. Qed.

Lemma app_nil_l a : "" ++ a = a.
Proof. reflexivity. Qed.

Lemma length_app a b :
  String.length (a ++ b) = (String.length a + String.length b)%nat.
Proof.
  induction a as [|x a IH]; [done|]. rewrite app_cons. cbn. by rewrite IH.
Qed.

Lemma app_assoc a b c : (a ++ b) ++ c = a ++ (b ++ c).
Proof.
  induction a as [|x a IH]; [done|]. rewrite !app_cons. by rewrite IH.
Qed.

Lemma app_nil_r a : a ++ "" = a.
Proof.
  induction a as [|x a IH]; [done|]. rewrite app_cons. by rewrite IH.
Qed.

Lemma take_app a b k :
  take (String.length a + k) (a ++ b) = a ++ take k b.
Proof.
  induction a as [|x a IH]; [done|]. rewrite !app_cons. cbn. by rewrite IH.
Qed.

Lemma drop_app a b k :
  drop (String.length a + k) (a ++ b) = drop k b.
Proof.
  induction a as [|x a IH]; [done|]. rewrite !app_cons. cbn. by rewrite IH.
Qed.

Lemma take_drop k s : take k s ++ drop k s = s.
Proof.
  revert s. induction k as [|k IH]; intros [|x s]; try done.
  cbn [take drop]. rewrite app_cons. by rewrite IH.
Qed.

Lemma rfind_bounds c s : -1 ≤ rfind c s < len s.
Proof.
  induction s as [|x s IH]; cbn [rfind String.length]; [lia|].
  destruct (0 <=? rfind c s) eqn:Hi; [lia|].
  destruct (Ascii.eqb x c); lia.
Qed.

Lemma rfind_app c a b :
  rfind c (a ++ b)
  = if 0 <=? rfind c b then len a + rfind c b else rfind c a.
Proof.
  pose proof (rfind_bounds c b) as Hb.
  induction a as [|x a IH].
  - rewrite app_nil_l. cbn. destruct (0 <=? rfind c b) eqn:Hi; lia.
  - rewrite app_cons. cbn [rfind String.length]. rewrite IH. pose proof (rfind_bounds c a) as Ha.
    destruct (0 <=? rfind c b) eqn:Hi.
    + rewrite (proj2 (Z.leb_le _ _)) by lia. lia.
    + done.
Qed.

(** The last character, as [endswith] and [rfind] see it. *)
Lemma endswith_snoc c s : endswith c s = true → ∃ s', s = s' ++ String c "".
Proof.
  induction s as [|x s IH]; [done|]. cbn. destruct s as [|y s].
  - intros ->%Ascii.eqb_eq. by exists "".
  - intros [s' ->]%IH. by exists (String x s').
Qed.

Lemma rfind_snoc_same c s : rfind c (s ++ String c "") = len s.
Proof. rewrite rfind_app. cbn. rewrite Ascii.eqb_refl. cbn. lia. Qed.

Lemma rfind_snoc_other c d s :
  c ≠ d → rfind d (s ++ String c "") = rfind d s.
Proof.
  intros Hcd. rewrite rfind_app. cbn.
  by rewrite (proj2 (Ascii.eqb_neq _ _)).
Qed.

End StrFacts.

Module PathFacts.
Import Str StrFacts PosixPath.
Local Open Scope string_scope.
Local Open Scope Z_scope.

Local Abbreviation len s := (Z.of_nat (String.length s)).

Lemma join1_relative path b :
  startswith sep b = false →
  ∃ pre, is_dir_prefix pre ∧ ∀ b', startswith sep b' = false →
    join1 path b' = pre ++ b'.
Proof.
  intros _. unfold join1.
  destruct (bool_decide (path = "")) eqn:Hempty; cbn.
  - apply bool_decide_eq_true in Hempty as ->.
    exists "". split; [by left|]. intros b' ->. done.
  - destruct (endswith sep path) eqn:Hend.
    + exists path. split; [by right|]. intros b' ->. done.
    + exists (path ++ "/"). split.
      * right. clear. induction path as [|x [|y p] IH]; done.
      * intros b' ->. by rewrite app_assoc.
Qed.

Lemma rfind_sep_prefix pre r :
  is_dir_prefix pre → rfind sep (pre ++ r) = len pre + rfind sep r.
Proof.
  intros Hpre. rewrite rfind_app. pose proof (rfind_bounds sep r).
  destruct (0 <=? rfind sep r) eqn:Hi; [done|].
  destruct Hpre as [->|[pre' ->]%endswith_snoc]; [cbn; lia|].
  rewrite rfind_snoc_same, length_app. cbn. lia.
Qed.

Lemma rfind_dot_prefix pre r :
  is_dir_prefix pre →
  rfind extsep (pre ++ r)
  = (if 0 <=? rfind extsep r then len pre + rfind extsep r
     else rfind extsep pre)
  ∧ rfind extsep pre ≤ len pre + rfind sep r.
Proof.
  intros Hpre. split; [apply rfind_app|].
  pose proof (rfind_bounds sep r).
  destruct Hpre as [->|[pre' ->]%endswith_snoc]; [cbn; lia|].
  rewrite rfind_snoc_other by done.
  pose proof (rfind_bounds extsep pre'). rewrite length_app. cbn. lia.
Qed.

(** [splitext] looks at the last component only. *)
Lemma splitext_prefix pre r :
  is_dir_prefix pre →
  splitext (pre ++ r) = (pre ++ fst (splitext r), snd (splitext r)).
Proof.
  intros Hpre. unfold splitext.
  rewrite rfind_sep_prefix by done.
  destruct (rfind_dot_prefix pre r Hpre) as [-> Hlt].
  pose proof (rfind_bounds sep r) as Hs.
  pose proof (rfind_bounds extsep r) as Hd.
  destruct (0 <=? rfind extsep r) eqn:Hi.
  - apply Z.leb_le in Hi.
    replace (len pre + rfind sep r <? len pre + rfind extsep r)
      with (rfind sep r <? rfind extsep r) by lia.
    destruct (rfind sep r <? rfind extsep r); [|done].
    assert (Hslice : slice (len pre + rfind sep r + 1)
                       (len pre + rfind extsep r) (pre ++ r)
                     = slice (rfind sep r + 1) (rfind extsep r) r).
    { unfold slice.
      replace (len pre + rfind extsep r - (len pre + rfind sep r + 1))
        with (rfind extsep r - (rfind sep r + 1)) by lia.
      replace (Z.to_nat (len pre + rfind sep r + 1))
        with (String.length pre + Z.to_nat (rfind sep r + 1))%nat by lia.
      by rewrite drop_app. }
    rewrite Hslice.
    destruct (all_chars extsep _); [done|]. cbn.
    replace (Z.to_nat (len pre + rfind extsep r))
      with (String.length pre + Z.to_nat (rfind extsep r))%nat by lia.
    by rewrite take_app, drop_app.
  - apply Z.leb_gt in Hi.
    rewrite (proj2 (Z.ltb_ge _ _)) by lia.
    rewrite (proj2 (Z.ltb_ge _ _)) by lia. done.
Qed.

(** The root that [splitext] returns starts as its argument does. *)
Lemma splitext_root_startswith c r :
  startswith c (fst (splitext r)) = startswith c r.
Proof.
  unfold splitext.
  pose proof (rfind_bounds sep r) as Hs.
  destruct (rfind sep r <? rfind extsep r) eqn:Hlt; [|done].
  apply Z.ltb_lt in Hlt.
  destruct (all_chars extsep _) eqn:Hall; [done|]. cbn.
  destruct r as [|x r]; [done|].
  destruct (Z.to_nat (rfind extsep (String x r))) as [|k] eqn:Hk; [|done].
  exfalso. unfold slice in Hall.
  replace (Z.to_nat (rfind extsep (String x r) - (rfind sep (String x r) + 1)))
    with 0%nat in Hall by lia.
  by destruct (Z.to_nat _), (String x r).
Qed.

Lemma startswith_app c a b :
  startswith c (a ++ b) = if bool_decide (a = "") then startswith c b
                          else startswith c a.
Proof. by destruct a. Qed.


Lemma join1_startswith path b :
  startswith sep path = false → startswith sep b = false →
  startswith sep (join1 path b) = false.
Proof.
  intros Hpath Hb. unfold join1. rewrite Hb.
  destruct (bool_decide (path = "") || endswith sep path) eqn:Hc;
    rewrite startswith_app; case_bool_decide as Hp; try done.
Qed.



(** Replacing the extension after joining is joining the path with its
    extension replaced. *)
Lemma splitext_join out_dir rel :
  startswith sep rel = false →
  fst (splitext (join out_dir [rel])) ++ ".wav"
  = join out_dir [fst (splitext rel) ++ ".wav"].
Proof.
  intros Hrel. unfold join. cbn [foldl].
  destruct (join1_relative out_dir rel Hrel) as (pre & Hpre & Hjoin).
  rewrite (Hjoin rel Hrel), splitext_prefix by done. cbn [fst].
  rewrite Hjoin, app_assoc; [done|].
  rewrite startswith_app, splitext_root_startswith, Hrel.
  by case_bool_decide.
Qed.

Lemma basename_app dir name :
  rfind sep name = -1 → basename (dir ++ "/" ++ name) = name.
Proof.
  intros Hname. unfold basename.
  rewrite rfind_app. change ("/" ++ name) with (String sep name).
  cbn [rfind]. rewrite Hname. cbn.
  replace (Z.to_nat (len dir + 0 + 1)) with (String.length dir + 1)%nat
    by lia.
  by rewrite drop_app.
Qed.

Lemma rsplit1_head_app stem ext :
  rfind extsep ext = -1 →
  rsplit1_head extsep (stem ++ "." ++ ext) = stem.
Proof.
  intros Hext. unfold rsplit1_head.
  rewrite rfind_app. change ("." ++ ext) with (String extsep ext).
  cbn [rfind]. rewrite Hext. cbn.
  rewrite (proj2 (Z.ltb_ge _ _)) by lia.
  replace (Z.to_nat (len stem + 0)) with (String.length stem + 0)%nat by lia.
  rewrite take_app. cbn. apply app_nil_r.
Qed.

(** *** [relpath] below its start *)

Lemma split_nonempty c s : split c s ≠ [].
Proof.
  destruct s as [|a s]; cbn; [done|].
  destruct (Ascii.eqb a c); [done|]. by destruct (split c s).
Qed.

Lemma split_app_sep c a b :
  split c (a ++ String c b) = (split c a ++ split c b)%list.
Proof.
  induction a as [|x a IH].
  - rewrite app_nil_l. cbn. by rewrite Ascii.eqb_refl.
  - rewrite app_cons. cbn [split]. rewrite IH.
    destruct (Ascii.eqb x c); [done|].
    pose proof (split_nonempty c a). by destruct (split c a).
Qed.

Lemma rfind_cons_none c a s :
  rfind c (String a s) = -1 → Ascii.eqb a c = false ∧ rfind c s = -1.
Proof.
  cbn [rfind]. pose proof (rfind_bounds c s).
  destruct (0 <=? rfind c s) eqn:Hi; [lia|].
  apply Z.leb_gt in Hi. destruct (Ascii.eqb a c); [lia|]. lia.
Qed.

Lemma split_name c x : rfind c x = -1 → split c x = [x].
Proof.
  induction x as [|a x IH]; [done|].
  intros [Ha Hx]%rfind_cons_none. cbn. by rewrite Ha, IH.
Qed.

Lemma split_slash_free c s : Forall (λ x, rfind c x = -1) (split c s).
Proof.
  induction s as [|a s IH]; cbn [split]; [by repeat constructor|].
  destruct (Ascii.eqb a c) eqn:Hac; [by constructor|].
  destruct (split c s) as [|h t]; [by repeat constructor; cbn; rewrite Hac|].
  apply Forall_cons in IH as [Hh IH]. constructor; [|done].
  cbn [rfind]. by rewrite Hh, Hac.
Qed.

Lemma concat_cons x y l :
  String.concat "/" (x :: y :: l) = x ++ "/" ++ String.concat "/" (y :: l).
Proof. reflexivity. Qed.

Lemma split_concat comps :
  comps ≠ [] → Forall path_name comps →
  split sep (String.concat "/" comps) = comps.
Proof.
  induction comps as [|x [|y l] IH]; intros Hne Hall; [done|..].
  - apply Forall_cons in Hall as [[_ Hx] _]. by apply split_name.
  - apply Forall_cons in Hall as [[_ Hx] Hall]. rewrite concat_cons.
    change ("/" ++ ?s) with (String sep s).
    rewrite split_app_sep, IH by done. by rewrite split_name.
Qed.

Lemma endswith_rfind c s : endswith c s = true → 0 ≤ rfind c s.
Proof.
  intros [s' ->]%endswith_snoc. rewrite rfind_snoc_same. lia.
Qed.

Lemma name_not_dir x : path_name x → endswith sep x = false.
Proof.
  intros [_ Hx]. destruct (endswith sep x) eqn:He; [|done].
  apply endswith_rfind in He. lia.
Qed.

Lemma name_relative x : path_name x → startswith sep x = false.
Proof.
  intros [Hne Hx]. destruct x as [|a x]; [done|].
  apply rfind_cons_none in Hx as [Ha _]. exact Ha.
Qed.

Lemma endswith_app c a b : b ≠ "" → endswith c (a ++ b) = endswith c b.
Proof.
  intros Hb. induction a as [|x a IH]; [done|].
  rewrite app_cons. cbn [endswith]. rewrite IH.
  destruct (a ++ b) eqn:Hab; [|done].
  destruct a, b; done.
Qed.

(** [join] of names is [sep.join]. *)
Lemma join_names path p :
  path ≠ "" → endswith sep path = false → Forall path_name p →
  join path p = String.concat "/" (path :: p).
Proof.
  intros Hne Hend Hp. revert path Hne Hend. unfold join.
  induction Hp as [|b p Hb _ IH]; intros path Hne Hend; [done|].
  cbn [foldl]. unfold join1 at 2.
  rewrite (name_relative b Hb), Hend, bool_decide_eq_false_2 by done. cbn.
  rewrite IH.
  - destruct p as [|b' p]; [done|]. rewrite !concat_cons.
    by rewrite !app_assoc.
  - by destruct path.
  - rewrite endswith_app by (by destruct b, Hb).
    rewrite endswith_app by (by destruct Hb). by apply name_not_dir.
Qed.

Lemma norm_step_name ns new_comps comp :
  normal_name comp →
  norm_step ns new_comps comp = (new_comps ++ [comp])%list.
Proof.
  intros ([Hne _] & Hcur & Hpar). unfold norm_step.
  by rewrite !bool_decide_eq_false_2 by done.
Qed.

Lemma norm_step_names ns new_comps comps :
  Forall normal_name comps →
  foldl (norm_step ns) new_comps comps = (new_comps ++ comps)%list.
Proof.
  intros Hall. revert new_comps.
  induction Hall as [|x comps Hx _ IH]; intros new_comps.
  - by rewrite (right_id_L [] (++)%list).
  - cbn. by rewrite norm_step_name, IH, <-(assoc_L (++)%list).
Qed.

Lemma norm_step_good ns new_comps xs :
  Forall path_name new_comps → Forall (λ x, rfind sep x = -1) xs →
  Forall path_name (foldl (norm_step ns) new_comps xs).
Proof.
  intros Hnew Hxs. revert new_comps Hnew.
  induction Hxs as [|x xs Hx _ IH]; intros new_comps Hnew; [done|].
  cbn. apply IH. unfold norm_step.
  destruct (bool_decide (x = "")) eqn:Hempty; [done|].
  apply bool_decide_eq_false in Hempty. cbn.
  destruct (bool_decide (x = curdir)); [done|].
  destruct (_ || _ || _).
  - apply Forall_app. split; [done|]. by repeat constructor.
  - clear -Hnew. induction Hnew as [|y [|z l] Hy Hl IH]; cbn; [done..|].
    constructor; [done|]. exact IH.
Qed.

Lemma normpath_abs p :
  isabs p = true →
  normpath p
  = (if bool_decide (initial_slashes p = 2%nat) then "//" else "/")
    ++ String.concat "/" (norm_comps p).
Proof.
  intros Habs. unfold normpath.
  rewrite bool_decide_eq_false_2 by (by destruct p).
  unfold initial_slashes. unfold isabs in Habs. rewrite Habs.
  by destruct (_ && _).
Qed.

Lemma filter_names comps :
  Forall path_name comps → filter (λ x : string, x ≠ "") comps = comps.
Proof.
  induction 1 as [|x comps [Hx _] _ IH]; [done|].
  by rewrite filter_cons_True, IH.
Qed.

Lemma split_concat_names comps :
  Forall path_name comps →
  filter (λ x : string, x ≠ "") (split sep (String.concat "/" comps))
  = comps.
Proof.
  intros Hall. destruct comps as [|x comps]; [done|].
  rewrite split_concat by done. by apply filter_names.
Qed.

Lemma split_abs (double : bool) comps :
  Forall path_name comps →
  filter (λ x : string, x ≠ "")
    (split sep ((if double then "//" else "/") ++ String.concat "/" comps))
  = comps.
Proof.
  intros Hall. destruct double.
  - change ("//" ++ ?s) with (String sep (String sep s)). cbn [split].
    rewrite Ascii.eqb_refl. rewrite !filter_cons_False by (by intros ?).
    by apply split_concat_names.
  - change ("/" ++ ?s) with (String sep s). cbn [split].
    rewrite Ascii.eqb_refl. rewrite !filter_cons_False by (by intros ?).
    by apply split_concat_names.
Qed.

Lemma concat_relative comps :
  Forall path_name comps →
  startswith sep (String.concat "/" comps) = false.
Proof.
  intros Hall. destruct comps as [|x [|y l]]; [done|..].
  - apply Forall_cons in Hall as [Hx _]. by apply name_relative.
  - apply Forall_cons in Hall as [Hx _]. rewrite concat_cons.
    rewrite startswith_app, bool_decide_eq_false_2 by (by destruct Hx).
    by apply name_relative.
Qed.

Lemma initial_slashes_join1 path b :
  isabs path = true → startswith sep b = false →
  initial_slashes (join1 path b) = initial_slashes path.
Proof.
  unfold isabs. intros Habs Hb. unfold join1. rewrite Hb.
  destruct path as [|c1 [|c2 [|c3 path]]]; [done|..].
  - apply Ascii.eqb_eq in Habs as ->.
    assert (bool_decide (String sep "" = "")
            || endswith sep (String sep "") = true) as -> by done.
    rewrite app_cons, app_nil_l. unfold initial_slashes.
    cbn [startswith drop]. by rewrite Hb.
  - apply Ascii.eqb_eq in Habs as ->.
    destruct (Ascii.eqb c2 sep) eqn:Hc2.
    + apply Ascii.eqb_eq in Hc2 as ->.
      assert (bool_decide (String sep (String sep "") = "")
              || endswith sep (String sep (String sep "")) = true) as ->
        by done.
      rewrite !app_cons, app_nil_l. unfold initial_slashes.
      cbn [startswith drop]. by rewrite Hb.
    + assert (bool_decide (String sep (String c2 "") = "")
              || endswith sep (String sep (String c2 "")) = false) as ->
        by (cbn; by rewrite Hc2).
      rewrite !app_cons, app_nil_l. unfold initial_slashes.
      cbn [startswith drop]. by rewrite Hc2.
  - destruct (_ || _); by rewrite !app_cons.
Qed.

Lemma norm_step_empty ns new_comps : norm_step ns new_comps "" = new_comps.
Proof. done. Qed.

Lemma norm_comps_join1 path comps :
  isabs path = true → comps ≠ [] → Forall normal_name comps →
  norm_comps (join1 path (String.concat "/" comps))
  = (norm_comps path ++ comps)%list.
Proof.
  intros Habs Hne Hall.
  assert (Hnames : Forall path_name comps).
  { eapply Forall_impl; [exact Hall|]. by intros x [? _]. }
  pose proof (concat_relative comps Hnames) as Hrel.
  unfold norm_comps. rewrite initial_slashes_join1 by done.
  unfold join1. rewrite Hrel.
  rewrite bool_decide_eq_false_2 by (by destruct path). cbn [orb].
  destruct (endswith sep path) eqn:Hend.
  - apply endswith_snoc in Hend as [path' ->].
    rewrite app_assoc. change (String sep "" ++ ?s) with (String sep s).
    rewrite !split_app_sep, split_concat, !foldl_app by done.
    cbn [split foldl]. rewrite norm_step_empty.
    by apply norm_step_names.
  - change ("/" ++ ?s) with (String sep s).
    rewrite split_app_sep, split_concat, foldl_app by done.
    by apply norm_step_names.
Qed.

Lemma norm_comps_good path : Forall path_name (norm_comps path).
Proof. apply norm_step_good; [done|apply split_slash_free]. Qed.

Lemma join1_assoc cwd root b :
  root ≠ "" → startswith sep root = false → startswith sep b = false →
  join1 cwd (join1 root b) = join1 (join1 cwd root) b.
Proof.
  intros Hroot Hrel Hb.
  destruct (join1_relative cwd root Hrel) as (pre & _ & Hpre).
  rewrite (Hpre root Hrel), (Hpre (join1 root b))
    by (by apply join1_startswith).
  unfold join1. rewrite Hb.
  rewrite !bool_decide_eq_false_2 by (by destruct pre, root). cbn [orb].
  rewrite endswith_app by done.
  destruct (endswith sep root); by rewrite !app_assoc.
Qed.

Lemma abspath_join1 cwd root b :
  isabs cwd = true → root ≠ "" → startswith sep b = false →
  ∃ path, isabs path = true ∧ abspath cwd root = normpath path
          ∧ abspath cwd (join1 root b) = normpath (join1 path b).
Proof.
  intros Hcwd Hroot Hb. unfold abspath, join. cbn [foldl].
  destruct (isabs root) eqn:Habs.
  - exists root. split_and!; [done..|].
    assert (isabs (join1 root b) = true) as ->; [|done].
    unfold isabs, join1 in *. rewrite Hb.
    destruct (_ || _); rewrite startswith_app;
      by rewrite bool_decide_eq_false_2.
  - exists (join1 cwd root). split_and!.
    + unfold isabs, join1 in *. rewrite Habs.
      destruct (_ || _); rewrite startswith_app;
        by rewrite bool_decide_eq_false_2 by (by destruct cwd).
    + done.
    + assert (isabs (join1 root b) = false) as ->
        by (by apply join1_startswith).
      by rewrite join1_assoc.
Qed.

Lemma common_prefix_len_app a b :
  common_prefix_len a (a ++ b)%list = length a.
Proof.
  induction a as [|x a IH]; [by destruct b|].
  cbn. by rewrite bool_decide_eq_true_2, IH.
Qed.

(** A file below the start, given by names, is that far from it. *)
Lemma relpath_below cwd root comps :
  isabs cwd = true → root ≠ "" → comps ≠ [] → Forall normal_name comps →
  relpath cwd (join root [String.concat "/" comps]) root
  = Py.Ok (String.concat "/" comps).
Proof.
  intros Hcwd Hroot Hne Hall.
  assert (Hnames : Forall path_name comps).
  { eapply Forall_impl; [exact Hall|]. by intros x [? _]. }
  pose proof (concat_relative comps Hnames) as Hrel.
  change (join root [String.concat "/" comps])
    with (join1 root (String.concat "/" comps)).
  unfold relpath.
  rewrite bool_decide_eq_false_2.
  2:{ unfold join1. rewrite Hrel.
      destruct (_ || _); by destruct root. }
  destruct (abspath_join1 cwd root _ Hcwd Hroot Hrel)
    as (path & Habs & -> & ->).
  assert (Habs' : isabs (join1 path (String.concat "/" comps)) = true).
  { unfold isabs, join1 in *. rewrite Hrel.
    destruct (_ || _); rewrite startswith_app;
      by rewrite bool_decide_eq_false_2 by (by destruct path). }
  rewrite !normpath_abs by done.
  rewrite initial_slashes_join1, norm_comps_join1 by done.
  pose proof (norm_comps_good path) as Hgood.
  rewrite !split_abs by first [done|by apply Forall_app].
  rewrite common_prefix_len_app, Nat.sub_diag. cbn [replicate app].
  rewrite drop_app_length.
  destruct comps as [|a p]; [done|].
  apply Forall_cons in Hnames as [Ha Hp].
  rewrite join_names; [done|by destruct Ha|by apply name_not_dir|done].
Qed.

Lemma splitext_name stem ext :
  all_chars extsep stem = false → rfind sep stem = -1 →
  rfind sep ext = -1 → rfind extsep ext = -1 →
  splitext (stem ++ "." ++ ext) = (stem, "." ++ ext).
Proof.
  intros Hstem Hs Hse He. unfold splitext.
  rewrite !rfind_app. change ("." ++ ext) with (String extsep ext).
  cbn [rfind]. rewrite Hse, He. cbn. rewrite Hs.
  rewrite (proj2 (Z.ltb_lt _ _)) by lia.
  unfold slice.
  replace (Z.to_nat (len stem + 0 - (-1 + 1)))
    with (String.length stem + 0)%nat by lia.
  replace (Z.to_nat (len stem + 0)) with (String.length stem + 0)%nat by lia.
  change (Z.to_nat (-1 + 1)) with 0%nat. cbn [drop].
  rewrite take_app, drop_app. cbn [take drop]. rewrite app_nil_r, Hstem.
  done.
Qed.

Lemma rfind_app_none c a b :
  rfind c (a ++ b) = -1 → rfind c a = -1 ∧ rfind c b = -1.
Proof.
  rewrite rfind_app. pose proof (rfind_bounds c b).
  destruct (0 <=? rfind c b) eqn:Hb; [lia|]. apply Z.leb_gt in Hb. lia.
Qed.

Lemma concat_snoc dirs :
  Forall path_name dirs →
  ∃ pre, is_dir_prefix pre
         ∧ ∀ y, String.concat "/" (dirs ++ [y]) = pre ++ y.
Proof.
  induction 1 as [|d dirs Hd _ (pre & Hpre & IH)].
  - exists "". split; [by left|done].
  - exists (d ++ "/" ++ pre). split.
    + right. destruct Hpre as [->|Hpre].
      * rewrite endswith_app by done. done.
      * rewrite !endswith_app; [done|by intros ->|].
        destruct pre; [done|]. by destruct d.
    + intros y. cbn [app]. destruct (dirs ++ [y])%list eqn:Hl.
      * by destruct dirs.
      * rewrite concat_cons, <-Hl, IH. by rewrite !app_assoc.
Qed.

(** The extension of the last name of a path of names. *)
Lemma splitext_names dirs stem ext :
  Forall path_name dirs → path_name (stem ++ "." ++ ext) →
  all_chars extsep stem = false → rfind extsep ext = -1 →
  fst (splitext (String.concat "/" (dirs ++ [stem ++ "." ++ ext])))
    ++ ".wav"
  = String.concat "/" (dirs ++ [stem ++ ".wav"]).
Proof.
  intros Hdirs [_ Hname] Hstem Hext.
  apply rfind_app_none in Hname as [Hs Hname].
  apply (rfind_app_none _ ".") in Hname as [_ He].
  destruct (concat_snoc dirs Hdirs) as (pre & Hpre & Hcat).
  rewrite !Hcat, splitext_prefix, splitext_name by done. cbn [fst].
  by rewrite app_assoc.
Qed.

End PathFacts.

(** ** The output path (lines 72-85) *)



(** ** Dataset resolution and the start of a run (lines 94-137) *)

Module InitFacts.
Import Tensor Eff Enhance.

Section Init.
Context `{Collab}.

Lemma get_dataset_no_input args sr ch :
  Py.truthy (dset_noisy_json (input_paths args)) = false →
  Py.truthy (dset_noisy_dir (input_paths args)) = false →
  get_dataset args sr ch = ([Warning no_input_warning], Py.Ok None).
Proof. intros Hj Hd. unfold get_dataset. by rewrite Hj, Hd. Qed.


Lemma enhance_no_dataset sched args model local m l :
  resolve_model args model = Py.Ok m →
  get_dataset args (sample_rate m) (chin m) = (l, Py.Ok None) →
  enhance sched args model local = Some (l, Py.Ok tt).
Proof.
  intros Hm Hd. unfold enhance, enhance_init.
  rewrite Hm. cbn. rewrite Hd. cbn. by rewrite app_nil_r.
Qed.

Lemma enhance_dataset_raises sched args model local m l e :
  resolve_model args model = Py.Ok m →
  get_dataset args (sample_rate m) (chin m) = (l, Py.Raise e) →
  enhance sched args model local = Some (l, Py.Raise e).
Proof.
  intros Hm Hd. unfold enhance, enhance_init.
  rewrite Hm. cbn. by rewrite Hd.
Qed.

End Init.
End InitFacts.

(** C8: when neither [noisy_dir] nor [noisy_json] is set, dataset
    resolution logs a warning and yields no dataset; the call of
    [enhance] returns at once, whatever the schedule, having written no
    file; and the process ends with status 0. *)
Theorem no_input_is_noop `{Enhance.Collab} (sched : list Enhance.actor)
    (args : Enhance.Args) (model : option Enhance.Model)
    (local_out_dir : option string) (m : Enhance.Model) :
  Enhance.dset args = None →
  Py.truthy (Enhance.noisy_dir args) = false →
  Py.truthy (Enhance.noisy_json args) = false →
  Enhance.resolve_model args model = Py.Ok m →
  Enhance.get_dataset args (Enhance.sample_rate m) (Enhance.chin m)
  = ([Eff.Warning Enhance.no_input_warning], Py.Ok None)
  ∧ Enhance.enhance sched args model local_out_dir
    = Some ([Eff.Warning Enhance.no_input_warning], Py.Ok tt)
  ∧ (model = None →
     Enhance.main sched args
     = Some ([Eff.Warning Enhance.no_input_warning], 0%Z))
  ∧ Eff.saved [Eff.Warning Enhance.no_input_warning] = [].
Proof.
  intros Hdset Hdir Hjson Hm.
  assert (Hd : Enhance.get_dataset args (Enhance.sample_rate m)
                 (Enhance.chin m)
               = ([Eff.Warning Enhance.no_input_warning], Py.Ok None)).
  { apply InitFacts.get_dataset_no_input;
      unfold Enhance.input_paths; by rewrite Hdset. }
  split; [exact Hd|]. split; [|split; [|done]].
  - by apply (InitFacts.enhance_no_dataset _ _ _ _ m).
  - intros ->. unfold Enhance.main.
    by rewrite (InitFacts.enhance_no_dataset _ _ _ _ m _ Hm Hd).
Qed.

Lemma no_input_is_noop_witness :
  Enhance.main (H := Demo.collab) [] Demo.args0
  = Some ([Eff.Warning Enhance.no_input_warning], 0%Z).
Proof.
  refine (proj1 (proj2 (proj2
    (no_input_is_noop (H := Demo.collab) [] Demo.args0 None None Demo.model
       _ _ _ _))) _); reflexivity.
Defined.

(** C10: [enhance] asks the loader for batches of one item, and
    [--batch_size] changes nothing: as long as the model used is the same
    (the provider does not read it), two calls that differ in it alone
    produce the same log and end the same way under every schedule. *)
Theorem batch_size_is_ignored `{Enhance.Collab} (sched : list Enhance.actor)
    (args : Enhance.Args) (b : Z) (model : option Enhance.Model)
    (local_out_dir : option string) :
  (∀ l r items,
     Enhance.enhance_init args model local_out_dir
     = (l, Py.Ok (Some (r, items))) →
     ∃ m d l',
       Enhance.get_dataset args (Enhance.sample_rate m) (Enhance.chin m)
       = (l', Py.Ok (Some d))
       ∧ items = Enhance.loader d 1)
  ∧ (Enhance.resolve_model (Enhance.with_batch_size b args) model
     = Enhance.resolve_model args model →
     Enhance.enhance sched (Enhance.with_batch_size b args) model
       local_out_dir
     = Enhance.enhance sched args model local_out_dir)
  ∧ (Enhance.get_model (Enhance.with_batch_size b args)
     = Enhance.get_model args →
     Enhance.main sched (Enhance.with_batch_size b args)
     = Enhance.main sched args).
Proof.
  assert (Hexec : ∀ m out sch s,
    Enhance.exec {| Enhance.run_model := m;
                    Enhance.run_args := Enhance.with_batch_size b args;
                    Enhance.run_out_dir := out |} sch s
    = Enhance.exec {| Enhance.run_model := m; Enhance.run_args := args;
                      Enhance.run_out_dir := out |} sch s).
  { intros m out sch. induction sch as [|a sch IH]; intros s; [done|].
    cbn [Enhance.exec].
    assert (Hstep : ∀ a0 s0,
      Enhance.step {| Enhance.run_model := m;
                      Enhance.run_args := Enhance.with_batch_size b args;
                      Enhance.run_out_dir := out |} a0 s0
      = Enhance.step {| Enhance.run_model := m; Enhance.run_args := args;
                        Enhance.run_out_dir := out |} a0 s0)
      by reflexivity.
    rewrite Hstep. destruct (Enhance.step _ a s); [apply IH|done]. }
  assert (Henh : ∀ mo lo,
    Enhance.resolve_model (Enhance.with_batch_size b args) mo
    = Enhance.resolve_model args mo →
    Enhance.enhance sched (Enhance.with_batch_size b args) mo lo
    = Enhance.enhance sched args mo lo).
  { intros mo lo Hres. unfold Enhance.enhance, Enhance.enhance_init.
    rewrite Hres. destruct (Enhance.resolve_model args mo) as [m|e]; [|done].
    cbn [mbind io_bind_inst Eff.io_bind Eff.lift].
    change (Enhance.get_dataset (Enhance.with_batch_size b args))
      with (Enhance.get_dataset args).
    destruct (Enhance.get_dataset args _ _) as [l [[d|]|e]]; [|done..].
    change (Enhance.num_workers (Enhance.with_batch_size b args))
      with (Enhance.num_workers args).
    change (Enhance.out_dir (Enhance.with_batch_size b args))
      with (Enhance.out_dir args).
    destruct (bool_decide (Enhance.rank = 0%Z)),
      (Enhance.num_workers args <=? 0)%Z; cbn; try done;
      by rewrite Hexec. }
  split; [|split].
  - intros l r items Hinit. unfold Enhance.enhance_init in Hinit.
    destruct (Enhance.resolve_model args model) as [m|e]; [|done].
    cbn [mbind io_bind_inst Eff.io_bind Eff.lift] in Hinit.
    destruct (Enhance.get_dataset args _ _) as [l' [[d|]|e]] eqn:Hd;
      [|done..].
    exists m, d, l'. split; [done|].
    destruct (bool_decide (Enhance.rank = 0%Z)),
      (Enhance.num_workers args <=? 0)%Z; cbn in Hinit; congruence.
  - apply Henh.
  - intros Hmodel. unfold Enhance.main.
    change (Enhance.out_dir (Enhance.with_batch_size b args))
      with (Enhance.out_dir args).
    by rewrite Henh.
Qed.

Lemma batch_size_is_ignored_witness :
  Enhance.main (H := Demo.collab) (Enhance.sequential 2)
    (Enhance.with_batch_size 8
       (Demo.with_input (Some "/in") None Demo.args0))
  = Enhance.main (H := Demo.collab) (Enhance.sequential 2)
      (Demo.with_input (Some "/in") None Demo.args0).
Proof.
  refine (proj2 (proj2
    (batch_size_is_ignored (H := Demo.collab) (Enhance.sequential 2)
       (Demo.with_input (Some "/in") None Demo.args0) 8 None None)) _).
  reflexivity.
Defined.



(** ** The loop of [enhance] (lines 138-158) *)

Module SchedFacts.
Import Tensor Eff Enhance.

Section Sched.
Context `{Collab} (r : Run).

Lemma exec_app sched1 sched2 s :
  exec r (sched1 ++ sched2) s = s' ← exec r sched1 s; exec r sched2 s'.
Proof.
  revert s. induction sched1 as [|a sched1 IH]; intros s; [done|].
  cbn. destruct (step r a s); [apply IH|done].
Qed.

Lemma exec_snoc sched a s :
  exec r (sched ++ [a]) s = s' ← exec r sched s; step r a s'.
Proof.
  rewrite exec_app. destruct (exec r sched s) as [s'|]; [|done].
  cbn. by destruct (step r a s').
Qed.

(** Induction on the moves made so far. *)
Lemma exec_ind (P : list actor → state → Prop) s0 :
  P [] s0 →
  (∀ done s a s', exec r done s0 = Some s → P done s →
                  step r a s = Some s' → P (done ++ [a]) s') →
  ∀ sched s, exec r sched s0 = Some s → P sched s.
Proof.
  intros H0 Hstep sched.
  induction sched as [|a sched IH] using rev_ind; intros s Hs.
  - by injection Hs as <-.
  - rewrite exec_snoc in Hs.
    destruct (exec r sched s0) as [s1|] eqn:H1; [|done].
    eapply Hstep; eauto.
Qed.

Lemma occurrences_snoc a b done :
  occurrences a (done ++ [b])
  = occurrences a done + (if decide (b = a) then 1 else 0).
Proof.
  unfold occurrences. rewrite filter_app, length_app. f_equal.
  rewrite filter_cons. by case_decide.
Qed.

Lemma within_grow x l l' : within x l → within x (l ++ l').
Proof.
  intros (a & b & ->). exists a, (b ++ l'). by rewrite <-!(assoc_L (++)).
Qed.

Lemma within_end x l : within x (l ++ x).
Proof. exists l, []. by rewrite app_nil_r. Qed.

Lemma drop_cons_inv {A} (l : list A) n x rest :
  x :: rest = drop n l →
  l !! n = Some x ∧ rest = drop (S n) l ∧ take (S n) l = take n l ++ [x].
Proof.
  intros Hd.
  assert (Hx : l !! n = Some x).
  { rewrite <-(Nat.add_0_r n), <-lookup_drop, <-Hd. done. }
  split; [done|]. split.
  - rewrite (drop_S _ _ _ Hx) in Hd. congruence.
  - by apply take_S_r.
Qed.

Lemma seq_cons_inv k n p rest :
  p :: rest = seq k n → p = k ∧ rest = seq (S k) (n - 1) ∧ 0 < n.
Proof.
  destruct n as [|n]; [done|]. cbn. intros [= -> ->].
  rewrite Nat.sub_0_r. split_and!; [done..|lia].
Qed.

(** The log only grows. *)
Lemma step_log a s s' : step r a s = Some s' → log s `prefix_of` log s'.
Proof.
  destruct a as [|i|i]; cbn; intros Hstep.
  - unfold coordinator in Hstep.
    destruct (pc s) as [[|data rest]|[|p rest]|res|res].
    + destruct (pendings s); injection Hstep as <-; cbn;
        [done|by apply prefix_app_r].
    + destruct (use_pool _); [by injection Hstep as <-|].
      destruct (inline r data). injection Hstep as <-. cbn.
      by apply prefix_app_r.
    + by injection Hstep as <-.
    + destruct (st <$> pool s !! p) as [[| |res]|]; try done.
      by injection Hstep as <-.
    + destruct (forallb _ _); [|done]. by injection Hstep as <-.
    + done.
  - unfold worker_start in Hstep.
    destruct (pool s !! i) as [[data [| |res]]|]; try done.
    destruct (_ <? _)%Z; [|done]. by injection Hstep as <-.
  - unfold worker_finish in Hstep.
    destruct (pool s !! i) as [[data [| |res]]|]; try done.
    destruct (run_job r data). injection Hstep as <-. cbn.
    by apply prefix_app_r.
Qed.

Lemma exec_log sched s s' :
  exec r sched s = Some s' → log s `prefix_of` log s'.
Proof.
  revert s. induction sched as [|a sched IH]; intros s; cbn.
  - by intros [= <-].
  - destruct (step r a s) as [s1|] eqn:Hstep; [|done]. cbn. intros Hs.
    etrans; [by eapply step_log|by apply IH].
Qed.

Lemma running_insert pl i j j' :
  pl !! i = Some j →
  running (<[i := j']> pl) + (if is_running j then 1 else 0)
  = running pl + (if is_running j' then 1 else 0).
Proof.
  intros Hi. unfold running.
  rewrite insert_take_drop by (by eapply lookup_lt_Some).
  rewrite <-(take_drop_middle pl i j Hi) at 3.
  rewrite !filter_app, !filter_cons, !length_app.
  destruct (is_running j), (is_running j');
    repeat case_decide; try done; cbn; lia.
Qed.

(** No more jobs run at a time than the pool has workers. *)
Lemma running_bound sched s0 s :
  exec r sched s0 = Some s →
  (Z.of_nat (running (pool s0)) ≤ Z.max 0 (num_workers (run_args r)))%Z →
  (Z.of_nat (running (pool s)) ≤ Z.max 0 (num_workers (run_args r)))%Z.
Proof.
  revert s0. induction sched as [|a sched IH]; intros s0; cbn.
  - by intros [= <-].
  - destruct (step r a s0) as [s1|] eqn:Hstep; [|done]. cbn.
    intros Hs H0. apply (IH s1 Hs). clear IH Hs.
    destruct a as [|i|i]; cbn in Hstep.
    + unfold coordinator in Hstep.
      destruct (pc s0) as [[|data rest]|[|p rest]|res|res].
      * by destruct (pendings s0); injection Hstep as <-.
      * destruct (use_pool _).
        -- injection Hstep as <-. cbn. unfold running in *.
           rewrite filter_app, filter_cons, filter_nil, decide_False by done.
           by rewrite app_nil_r.
        -- destruct (inline r data). by injection Hstep as <-.
      * by injection Hstep as <-.
      * destruct (st <$> pool s0 !! p) as [[| |res]|]; try done.
        by injection Hstep as <-.
      * destruct (forallb _ _); [|done]. by injection Hstep as <-.
      * done.
    + unfold worker_start in Hstep.
      destruct (pool s0 !! i) as [[data [| |res]]|] eqn:Hi; try done.
      destruct (_ <? _)%Z eqn:Hcap; [|done]. injection Hstep as <-.
      cbn [pool].
      pose proof (running_insert _ _ _ {| work := data; st := Running |} Hi)
        as Hrun. cbn in Hrun. apply Z.ltb_lt in Hcap. lia.
    + unfold worker_finish in Hstep.
      destruct (pool s0 !! i) as [[data [| |res]]|] eqn:Hi; try done.
      destruct (run_job r data) as [l res]. injection Hstep as <-.
      cbn [pool].
      pose proof (running_insert _ _ _ {| work := data; st := Done res |} Hi)
        as Hrun. cbn in Hrun. lia.
Qed.

Lemma weight_insert pl i j j' :
  pl !! i = Some j →
  sum_list_with job_weight (<[i := j']> pl) + job_weight j
  = sum_list_with job_weight pl + job_weight j'.
Proof.
  intros Hi.
  rewrite insert_take_drop by (by eapply lookup_lt_Some).
  rewrite <-(take_drop_middle pl i j Hi) at 3.
  rewrite !sum_list_with_app. cbn. lia.
Qed.

(** Every move lowers the measure. *)
Lemma step_measure a s s' :
  length (pendings s) ≤ length (pool s) → step r a s = Some s' →
  measure s' < measure s ∧ length (pendings s') ≤ length (pool s').
Proof.
  intros Hlen Hstep. destruct a as [|i|i]; cbn in Hstep.
  - unfold coordinator in Hstep. unfold measure.
    destruct (pc s) as [[|data rest]|[|p rest]|res|res].
    + destruct (pendings s) eqn:Hp; injection Hstep as <-; cbn;
        rewrite ?Hp; cbn in *; lia.
    + destruct (use_pool _).
      * injection Hstep as <-. cbn.
        rewrite sum_list_with_app, !length_app. cbn. lia.
      * destruct (inline r data) as [l [[]|e]]; injection Hstep as <-;
          cbn; lia.
    + injection Hstep as <-. cbn. lia.
    + destruct (st <$> pool s !! p) as [[| |[[]|e]]|]; try done;
        injection Hstep as <-; cbn; lia.
    + destruct (forallb _ _); [|done]. injection Hstep as <-. cbn. lia.
    + done.
  - unfold worker_start in Hstep.
    destruct (pool s !! i) as [[data [| |res]]|] eqn:Hi; try done.
    destruct (_ <? _)%Z; [|done]. injection Hstep as <-.
    pose proof (weight_insert _ _ _ {| work := data; st := Running |} Hi)
      as Hw. unfold measure. cbn in *. rewrite length_insert.
    split; [|done]. destruct (pc s); lia.
  - unfold worker_finish in Hstep.
    destruct (pool s !! i) as [[data [| |res]]|] eqn:Hi; try done.
    destruct (run_job r data) as [l res]. injection Hstep as <-.
    pose proof (weight_insert _ _ _ {| work := data; st := Done res |} Hi)
      as Hw. unfold measure. cbn in *. rewrite length_insert.
    split; [|done]. destruct (pc s); lia.
Qed.

(** A schedule is no longer than the measure of the state it starts in. *)
Lemma exec_measure sched s s' :
  length (pendings s) ≤ length (pool s) → exec r sched s = Some s' →
  length sched + measure s' ≤ measure s.
Proof.
  revert s. induction sched as [|a sched IH]; intros s Hlen; cbn.
  - intros [= <-]. lia.
  - destruct (step r a s) as [s1|] eqn:Hstep; [|done]. cbn. intros Hs.
    destruct (step_measure a s s1 Hlen Hstep) as [Hlt Hlen1].
    specialize (IH s1 Hlen1 Hs). lia.
Qed.

(** A job that is not done can move, or a running one can, when the pool
    has a worker. *)
Lemma worker_can_move s i j :
  (0 < num_workers (run_args r))%Z →
  pool s !! i = Some j → is_done j = false →
  ∃ a s', a ≠ Coordinator ∧ step r a s = Some s'.
Proof.
  intros Hnw Hi Hj. destruct j as [data [| |res]]; [| |done].
  - destruct (Z.of_nat (running (pool s)) <? num_workers (run_args r))%Z
      eqn:Hcap.
    + exists (Start i). eexists. split; [done|]. cbn. unfold worker_start.
      by rewrite Hi, Hcap.
    + apply Z.ltb_ge in Hcap.
      assert (Hrun : ∃ j', j' ∈ filter (λ j, is_running j = true) (pool s)).
      { unfold running in Hcap.
        destruct (filter _ (pool s)) as [|j' l]; [cbn in Hcap; lia|].
        exists j'. by left. }
      destruct Hrun as [j' [Hr Hin]%list_elem_of_filter].
      apply list_elem_of_lookup in Hin as [i' Hi'].
      destruct j' as [data' [| |res']]; try done.
      exists (Finish i'). destruct (run_job r data') as [l res] eqn:Hrun.
      eexists. split; [done|]. cbn. unfold worker_finish.
      by rewrite Hi', Hrun.
  - exists (Finish i). destruct (run_job r data) as [l res] eqn:Hrun.
    eexists. split; [done|]. cbn. unfold worker_finish. by rewrite Hi, Hrun.
Qed.

Lemma job_ok_keep done lg lg' a i j :
  job_ok r done lg i j → a ≠ Start i → a ≠ Finish i → lg `prefix_of` lg' →
  job_ok r (done ++ [a]) lg' i j.
Proof.
  unfold job_ok. intros Hj Hs Hf [l' ->]. rewrite !occurrences_snoc.
  rewrite !decide_False by done. rewrite !Nat.add_0_r.
  destruct (st j); [done..|].
  destruct Hj as (? & ? & ? & ?). eauto using within_grow.
Qed.

End Sched.

Section Pool.
Context `{Collab} (r : Run) (l0 : list effect) (items : list batch).
Hypothesis Hpool : use_pool (run_args r) = true.

Lemma inv_initial : inv r l0 items [] (initial l0 items).
Proof.
  constructor; cbn; done.
Qed.

Lemma result_of_job done s i j res :
  inv r l0 items done s → pool s !! i = Some j → st j = Done res →
  results r items !! i = Some res.
Proof.
  intros Hinv Hj Hst.
  pose proof (inv_status _ _ _ _ _ Hinv i j Hj) as Hok.
  unfold job_ok in Hok. rewrite Hst in Hok. destruct Hok as (_ & _ & -> & _).
  unfold results. rewrite list_lookup_fmap.
  assert (Hw : items !! i = Some (work j)).
  { assert (Hi : (work <$> pool s) !! i = Some (work j))
      by (by rewrite list_lookup_fmap, Hj).
    rewrite (inv_work _ _ _ _ _ Hinv) in Hi.
    by apply lookup_take_Some in Hi as [Hi _]. }
  by rewrite Hw.
Qed.

Lemma inv_coordinator done s s' :
  inv r l0 items done s → coordinator r s = Some s' →
  inv r l0 items (done ++ [Coordinator]) s'.
Proof.
  intros Hinv Hstep.
  pose proof Hinv as [Hwork Hpend Hstatus Hfresh Hlog Hphase].
  assert (Hkeep : ∀ lg', log s `prefix_of` lg' → ∀ i j,
            pool s !! i = Some j →
            job_ok r (done ++ [Coordinator]) lg' i j).
  { intros lg' Hlg i j Hj. apply (job_ok_keep r done (log s)); auto. }
  assert (Hfresh' : ∀ i, length (pool s) ≤ i →
            occurrences (Start i) (done ++ [Coordinator]) = 0
            ∧ occurrences (Finish i) (done ++ [Coordinator]) = 0).
  { intros i Hi. rewrite !occurrences_snoc, !decide_False by done.
    rewrite !Nat.add_0_r. by apply Hfresh. }
  unfold coordinator in Hstep.
  destruct (pc s) as [[|data rest]|[|p rest]|res|res] eqn:Hpc.
  - (* the loop is over *)
    destruct Hphase as [Hrest Hjoined].
    assert (Hlen : length (pool s) = length items).
    { apply (f_equal length) in Hwork.
      rewrite length_fmap, length_take in Hwork.
      symmetry in Hrest. apply drop_nil_inv in Hrest. lia. }
    destruct (pendings s) as [|p ps] eqn:Hp.
    + injection Hstep as <-. constructor; cbn.
      * done.
      * done.
      * by apply Hkeep.
      * done.
      * done.
      * split; [done|]. rewrite Hjoined.
        assert (Hn : length items = 0).
        { rewrite <-Hlen. apply (f_equal length) in Hpend.
          rewrite length_seq in Hpend. by rewrite <-Hpend. }
        unfold results. rewrite length_map, Hn.
        destruct items; [|done]. by split.
    + injection Hstep as <-. constructor; cbn.
      * done.
      * done.
      * apply Hkeep. by apply prefix_app_r.
      * done.
      * by apply prefix_app_r.
      * split; [done|]. exists 0. rewrite Nat.sub_0_r, <-Hlen, <-Hpend.
        split_and!; [done|done|lia|lia].
  - (* one more item *)
    rewrite Hpool in Hstep. injection Hstep as <-.
    destruct Hphase as [Hrest Hjoined].
    apply drop_cons_inv in Hrest as (Hdata & Hrest & Htake).
    constructor; cbn.
    + rewrite fmap_app, length_app, Hwork. cbn.
      by rewrite Nat.add_1_r, Htake.
    + rewrite length_app, Hpend. cbn. by rewrite Nat.add_1_r, seq_S.
    + intros i j Hj. apply lookup_app_Some in Hj as [Hj|[Hi Hj]].
      * by apply Hkeep.
      * apply list_lookup_singleton_Some in Hj as [Hi0 <-].
        unfold job_ok. cbn. apply Hfresh'. lia.
    + intros i Hi. rewrite length_app in Hi. cbn in Hi. apply Hfresh'. lia.
    + done.
    + split; [|done]. rewrite length_app. cbn. by rewrite Nat.add_1_r.
  - (* the drain is over *)
    injection Hstep as <-.
    destruct Hphase as (Hlen & k & Hjoined & Hrest & Hk & Hoks).
    assert (k = length items) as ->.
    { symmetry in Hrest. apply (f_equal length) in Hrest.
      rewrite length_seq in Hrest. cbn in Hrest. lia. }
    constructor; cbn.
    + done.
    + done.
    + by apply Hkeep.
    + done.
    + done.
    + split; [done|]. split.
      * unfold results. by rewrite length_map.
      * apply Forall_lookup. intros i x Hx.
        assert (Hi : i < length items).
        { apply lookup_lt_Some in Hx. unfold results in Hx.
          by rewrite length_map in Hx. }
        rewrite (Hoks i Hi) in Hx. congruence.
  - (* one more future *)
    destruct (st <$> pool s !! p) as [[| |res]|] eqn:Hp; try done.
    injection Hstep as <-.
    destruct Hphase as (Hlen & k & Hjoined & Hrest & Hk & Hoks).
    apply seq_cons_inv in Hrest as (-> & Hrest & Hpos).
    apply fmap_Some in Hp as (j & Hj & Hst). symmetry in Hst.
    pose proof (result_of_job done s k j res Hinv Hj Hst) as Hres.
    constructor; cbn.
    + done.
    + done.
    + by apply Hkeep.
    + done.
    + done.
    + destruct res as [[]|e].
      * split; [done|]. exists (S k). rewrite Hjoined, seq_S. cbn.
        split_and!; [done| |lia|].
        -- rewrite Hrest. f_equal. lia.
        -- intros i Hi. destruct (decide (i = k)) as [->|]; [done|].
           apply Hoks. lia.
      * split; [done|]. exists k. rewrite Hjoined, seq_S. done.
  - (* leaving the block *)
    destruct (forallb is_done (pool s)) eqn:Hall; [|done].
    injection Hstep as <-. destruct Hphase as [Hlen Hdrained].
    constructor; cbn.
    + done.
    + done.
    + by apply Hkeep.
    + done.
    + done.
    + split_and!; [done..|]. apply Forall_forall. intros j Hj.
      apply list_elem_of_In in Hj.
      by apply (proj1 (forallb_forall _ _) Hall).
  - done.
Qed.

Lemma work_insert (pl : list job) i data x y :
  pl !! i = Some {| work := data; st := x |} →
  work <$> <[i := {| work := data; st := y |}]> pl = work <$> pl.
Proof.
  intros Hi. rewrite list_fmap_insert. cbn. apply list_insert_id.
  by rewrite list_lookup_fmap, Hi.
Qed.

Lemma inv_phase_insert done s pl :
  inv r l0 items done s → length pl = length (pool s) →
  (∀ res, pc s = Returned res → Forall (λ j, is_done j = true) pl) →
  match pc s with
  | Dispatching rest => rest = drop (length pl) items ∧ joined s = []
  | Draining rest =>
      length pl = length items
      ∧ ∃ k, joined s = seq 0 k ∧ rest = seq k (length items - k)
             ∧ k ≤ length items
             ∧ ∀ i, i < k → results r items !! i = Some (Py.Ok tt)
  | Exiting res =>
      length pl = length items ∧ drained (results r items) (joined s) res
  | Returned res =>
      length pl = length items ∧ drained (results r items) (joined s) res
      ∧ Forall (λ j, is_done j = true) pl
  end.
Proof.
  intros Hinv Hlen Hret. pose proof (inv_phase _ _ _ _ _ Hinv) as Hphase.
  rewrite Hlen. destruct (pc s) as [rest|rest|res|res]; try done.
  destruct Hphase as (? & ? & _). eauto.
Qed.

Lemma inv_start done s i s' :
  inv r l0 items done s → worker_start r i s = Some s' →
  inv r l0 items (done ++ [Start i]) s'.
Proof.
  intros Hinv Hstep.
  pose proof Hinv as [Hwork Hpend Hstatus Hfresh Hlog Hphase].
  unfold worker_start in Hstep.
  destruct (pool s !! i) as [[data [| |res]]|] eqn:Hi; try done.
  destruct (_ <? _)%Z; [|done]. injection Hstep as <-.
  pose proof (lookup_lt_Some _ _ _ Hi) as Hlt.
  pose proof (Hstatus i _ Hi) as [Hs Hf]. 
  constructor; cbn.
  - by rewrite length_insert, (work_insert _ _ _ Queued).
  - by rewrite length_insert.
  - intros i' j' Hj'. destruct (decide (i = i')) as [<-|Hne].
    + rewrite list_lookup_insert_eq in Hj' by done. injection Hj' as <-.
      unfold job_ok. cbn. rewrite !occurrences_snoc.
      rewrite decide_True, decide_False by done. lia.
    + rewrite list_lookup_insert_ne in Hj' by done.
      apply (job_ok_keep r done (log s)); [by apply Hstatus|congruence..|done].
  - intros i' Hi'. rewrite length_insert in Hi'.
    rewrite !occurrences_snoc.
    rewrite !decide_False by (intros [= ->]; lia).
    rewrite !Nat.add_0_r. by apply Hfresh.
  - done.
  - apply (inv_phase_insert done s); [done|by rewrite length_insert|].
    intros res Hres. rewrite Hres in Hphase. destruct Hphase as (_ & _ & Hall).
    apply (proj1 (Forall_lookup _ _) Hall) in Hi. done.
Qed.

Lemma inv_finish done s i s' :
  inv r l0 items done s → worker_finish r i s = Some s' →
  inv r l0 items (done ++ [Finish i]) s'.
Proof.
  intros Hinv Hstep.
  pose proof Hinv as [Hwork Hpend Hstatus Hfresh Hlog Hphase].
  unfold worker_finish in Hstep.
  destruct (pool s !! i) as [[data [| |res]]|] eqn:Hi; try done.
  destruct (run_job r data) as [l res] eqn:Hrun. injection Hstep as <-.
  pose proof (lookup_lt_Some _ _ _ Hi) as Hlt.
  pose proof (Hstatus i _ Hi) as [Hs Hf].
  constructor; cbn.
  - by rewrite length_insert, (work_insert _ _ _ Running).
  - by rewrite length_insert.
  - intros i' j' Hj'. destruct (decide (i = i')) as [<-|Hne].
    + rewrite list_lookup_insert_eq in Hj' by done. injection Hj' as <-.
      unfold job_ok. cbn. rewrite !occurrences_snoc.
      rewrite (decide_False (P := Finish i = Start i)) by done.
      rewrite (decide_True (P := Finish i = Finish i)) by done.
      rewrite Hrun. cbn.
      split_and!; [lia|lia|done|apply within_end].
    + rewrite list_lookup_insert_ne in Hj' by done.
      apply (job_ok_keep r done (log s));
        [by apply Hstatus|congruence..|by apply prefix_app_r].
  - intros i' Hi'. rewrite length_insert in Hi'.
    rewrite !occurrences_snoc.
    rewrite !decide_False by (intros [= ->]; lia).
    rewrite !Nat.add_0_r. by apply Hfresh.
  - by apply prefix_app_r.
  - apply (inv_phase_insert done s); [done|by rewrite length_insert|].
    intros res' Hres. rewrite Hres in Hphase.
    destruct Hphase as (_ & _ & Hall). by apply Forall_insert.
Qed.

(** Every state of a run is as [inv] says. *)
Lemma inv_exec sched s :
  exec r sched (initial l0 items) = Some s → inv r l0 items sched s.
Proof.
  revert sched s.
  apply (exec_ind r (inv r l0 items) (initial l0 items)); [apply inv_initial|].
  intros done s1 a s2 _ Hinv Hstep. destruct a; cbn in Hstep.
  - by apply (inv_coordinator done s1).
  - by apply (inv_start done s1).
  - by apply (inv_finish done s1).
Qed.

(** A run that has not returned can move. *)
Lemma inv_progress done s :
  inv r l0 items done s → returned s = false →
  ∃ a s', step r a s = Some s'.
Proof.
  intros Hinv Hret.
  pose proof Hinv as [Hwork Hpend Hstatus Hfresh Hlog Hphase].
  assert (Hnw : (0 < num_workers (run_args r))%Z).
  { unfold use_pool in Hpool. apply andb_true_iff in Hpool as [_ Hnw].
    apply Z.ltb_lt in Hnw. lia. }
  unfold returned in Hret.
  destruct (pc s) as [[|data rest]|[|p rest]|res|res] eqn:Hpc; [..|done].
  - exists Coordinator. cbn. unfold coordinator. rewrite Hpc.
    destruct (pendings s); eauto.
  - exists Coordinator. cbn. unfold coordinator. rewrite Hpc, Hpool. eauto.
  - exists Coordinator. cbn. unfold coordinator. rewrite Hpc. eauto.
  - destruct Hphase as (Hlen & k & Hjoined & Hrest & Hk & Hoks).
    apply seq_cons_inv in Hrest as (-> & _ & Hpos).
    assert (Hj : ∃ j, pool s !! k = Some j).
    { apply lookup_lt_is_Some. lia. }
    destruct Hj as [j Hj]. destruct (is_done j) eqn:Hdone.
    + exists Coordinator. cbn. unfold coordinator. rewrite Hpc, Hj. cbn.
      unfold is_done in Hdone. destruct (st j); eauto; done.
    + destruct (worker_can_move r s k j Hnw Hj Hdone) as (a & s' & _ & ?).
      eauto.
  - destruct (forallb is_done (pool s)) eqn:Hall.
    + exists Coordinator. cbn. unfold coordinator. rewrite Hpc, Hall. eauto.
    + assert (Hj : ∃ j, j ∈ pool s ∧ is_done j = false).
      { clear -Hall. induction (pool s) as [|j pl IH]; [done|].
        cbn in Hall. destruct (is_done j) eqn:Hj.
        - destruct (IH Hall) as (j' & ? & ?). exists j'. split; [by right|done].
        - exists j. split; [by left|done]. }
      destruct Hj as (j & [i Hi]%list_elem_of_lookup & Hdone).
      destruct (worker_can_move r s i j Hnw Hi Hdone) as (a & s' & _ & ?).
      eauto.
Qed.

(** Every run can be taken to its end, whatever was scheduled so far. *)
Lemma pool_run_completes sched s :
  exec r sched (initial l0 items) = Some s →
  ∃ sched' s' res, exec r sched' s = Some s' ∧ pc s' = Returned res.
Proof.
  intros Hs. pose proof (inv_exec sched s Hs) as Hinv.
  clear Hs. remember (measure s) as n eqn:Hn.
  revert sched s Hinv Hn. induction n as [n IH] using lt_wf_ind.
  intros done s Hinv ->. destruct (returned s) eqn:Hret.
  - unfold returned in Hret. destruct (pc s) as [| | |res] eqn:Hpc; try done.
    by exists [], s, res.
  - destruct (inv_progress done s Hinv Hret) as (a & s1 & Hstep).
    assert (Hlen : length (pendings s) ≤ length (pool s)).
    { rewrite (inv_pendings _ _ _ _ _ Hinv), length_seq. done. }
    destruct (step_measure r a s s1 Hlen Hstep) as [Hlt _].
    assert (Hinv1 : inv r l0 items (done ++ [a]) s1).
    { destruct a; cbn in Hstep.
      - by apply (inv_coordinator done s).
      - by apply (inv_start done s).
      - by apply (inv_finish done s). }
    destruct (IH _ Hlt _ _ Hinv1 eq_refl) as (sched' & s' & res & Hs' & Hpc).
    exists (a :: sched'), s', res. cbn. rewrite Hstep. done.
Qed.

End Pool.

Section Inline.
Context `{Collab} (r : Run).
Hypothesis Hinline : use_pool (run_args r) = false.

Lemma exec_exiting_empty sched l res s res' :
  exec r sched {| pc := Exiting res; pool := []; pendings := [];
                  joined := []; log := l |} = Some s →
  pc s = Returned res' →
  res' = res ∧ log s = l ∧ pool s = [] ∧ sched = [Coordinator].
Proof.
  destruct sched as [|[|i|i] sched]; cbn; try done.
  - by intros [= <-].
  - destruct sched as [|[|i|i] sched]; cbn; try done.
    intros [= <-] [= <-]. done.
Qed.

(** Without the pool the coordinator is the only one to move, and the
    call is [run_inline]. *)
Lemma exec_inline items l sched s res :
  exec r sched (initial l items) = Some s → pc s = Returned res →
  log s = l ++ (run_inline r items).1 ∧ res = (run_inline r items).2
  ∧ pool s = [] ∧ sched = replicate (length sched) Coordinator.
Proof.
  unfold initial. revert l sched.
  induction items as [|data rest IH]; intros l sched.
  - destruct sched as [|[|i|i] sched]; cbn; try done.
    + by intros [= <-].
    + intros Hs Hpc.
      destruct (exec_exiting_empty _ _ _ _ _ Hs Hpc) as (-> & -> & Hpl & ->).
      split_and!; [by rewrite app_nil_r|done|done|done].
  - destruct sched as [|[|i|i] sched]; cbn; try done.
    + by intros [= <-].
    + unfold coordinator. cbn. rewrite Hinline.
      destruct (inline r data) as [l1 [[]|e]] eqn:Hd; cbn.
      * intros Hs Hpc. destruct (IH _ _ Hs Hpc) as (Hlog & Hres & Hpl & Hsc).
        destruct (run_inline r rest) as [l2 r2]. cbn in *.
        split_and!; [by rewrite Hlog, (assoc_L (++))|done|done|].
        by rewrite <-Hsc.
      * intros Hs Hpc.
        destruct (exec_exiting_empty _ _ _ _ _ Hs Hpc)
          as (-> & -> & Hpl & ->).
        done.
Qed.

Lemma inline_completes items l :
  ∃ sched s res, exec r sched (initial l items) = Some s
                 ∧ pc s = Returned res.
Proof.
  unfold initial. revert l. induction items as [|data rest IH]; intros l.
  - exists [Coordinator; Coordinator]. by eexists _, _.
  - destruct (inline r data) as [l1 [[]|e]] eqn:Hd.
    + destruct (IH (l ++ l1)) as (sched & s & res & Hs & Hpc).
      exists (Coordinator :: sched), s, res. cbn. unfold coordinator. cbn.
      by rewrite Hinline, Hd.
    + exists [Coordinator; Coordinator]. eexists _, _. cbn.
      unfold coordinator. cbn. rewrite Hinline, Hd. cbn. done.
Qed.

Lemma inline_shape items l sched s :
  exec r sched (initial l items) = Some s →
  pool s = [] ∧ pendings s = [] ∧ joined s = []
  ∧ ∀ rest, pc s ≠ Draining rest.
Proof.
  revert sched s. apply (exec_ind r (λ _ s,
    pool s = [] ∧ pendings s = [] ∧ joined s = []
    ∧ ∀ rest, pc s ≠ Draining rest)); [done|].
  intros done s a s' _ (Hpl & Hpe & Hj & Hpc) Hstep.
  destruct a as [|i|i]; cbn in Hstep.
  - unfold coordinator in Hstep.
    destruct (pc s) as [[|data rest]|[|p rest]|res|res].
    + rewrite Hpe in Hstep. by injection Hstep as <-.
    + rewrite Hinline in Hstep.
      by destruct (inline r data) as [l1 [[]|e]]; injection Hstep as <-.
    + by destruct (Hpc []).
    + by destruct (Hpc (p :: rest)).
    + destruct (forallb _ _); [|done]. by injection Hstep as <-.
    + done.
  - unfold worker_start in Hstep. by rewrite Hpl in Hstep.
  - unfold worker_finish in Hstep. by rewrite Hpl in Hstep.
Qed.

Lemma inline_run_completes items l sched s :
  exec r sched (initial l items) = Some s →
  ∃ sched' s' res, exec r sched' s = Some s' ∧ pc s' = Returned res.
Proof.
  intros Hs. destruct (inline_shape _ _ _ _ Hs) as (Hpl & Hpe & Hj & Hpc).
  destruct s as [ph pl pe jn lg]. cbn in *. subst pl pe jn.
  destruct ph as [rest|rest|res|res].
  - apply inline_completes.
  - by destruct (Hpc rest).
  - by exists [Coordinator], {| pc := Returned res; pool := [];
      pendings := []; joined := []; log := lg |}, res.
  - by exists [], {| pc := Returned res; pool := [];
      pendings := []; joined := []; log := lg |}, res.
Qed.

End Inline.
End SchedFacts.

(** C1: for the item at hand the coordinator submits a job to the pool,
    without running it and whatever the other jobs are doing, exactly
    when the device is [cpu] and [num_workers > 1]; otherwise it runs the
    estimate and the writing itself before it goes on (or stops, on a
    failure).  The job is the call of [_estimate_and_save] on the model,
    the item, the output directory and the arguments; and the pool never
    runs more than [num_workers] jobs at a time. *)
Theorem dispatch_per_item `{Enhance.Collab} (r : Enhance.Run)
    (noisy_signals : Tensor.tensor3) (filenames : list string)
    (rest : list Enhance.batch) (pl : list Enhance.job)
    (pend jn : list nat) (lg : list Eff.effect) :
  let s := {| Enhance.pc :=
                Enhance.Dispatching ((noisy_signals, filenames) :: rest);
              Enhance.pool := pl; Enhance.pendings := pend;
              Enhance.joined := jn; Enhance.log := lg |} in
  let inline :=
    (estimate ← Eff.lift (Enhance.get_estimate (Enhance.run_model r)
                            noisy_signals (Enhance.run_args r));
     Enhance.save_wavs estimate noisy_signals filenames
       (Enhance.run_out_dir r)
       (Enhance.or_none (Enhance.noisy_dir (Enhance.run_args r)))
       (Enhance.sample_rate (Enhance.run_model r))) in
  (Enhance.device (Enhance.run_args r) = "cpu"
   ∧ (1 < Enhance.num_workers (Enhance.run_args r))%Z →
   Enhance.step r Enhance.Coordinator s
   = Some {| Enhance.pc := Enhance.Dispatching rest;
             Enhance.pool :=
               pl ++ [{| Enhance.work := (noisy_signals, filenames);
                         Enhance.st := Enhance.Queued |}];
             Enhance.pendings := pend ++ [length pl];
             Enhance.joined := jn; Enhance.log := lg |})
  ∧ (¬ (Enhance.device (Enhance.run_args r) = "cpu"
        ∧ (1 < Enhance.num_workers (Enhance.run_args r))%Z) →
     Enhance.step r Enhance.Coordinator s
     = Some {| Enhance.pc :=
                 match inline.2 with
                 | Py.Ok _ => Enhance.Dispatching rest
                 | Py.Raise e => Enhance.Exiting (Py.Raise e)
                 end;
               Enhance.pool := pl; Enhance.pendings := pend;
               Enhance.joined := jn; Enhance.log := lg ++ inline.1 |})
  ∧ Enhance.run_job r (noisy_signals, filenames)
    = Enhance._estimate_and_save (Enhance.run_model r) noisy_signals
        filenames (Enhance.run_out_dir r) (Enhance.run_args r)
  ∧ (∀ l0 items sched s',
       Enhance.exec r sched (Enhance.initial l0 items) = Some s' →
       (Z.of_nat (Enhance.running (Enhance.pool s'))
        ≤ Z.max 0 (Enhance.num_workers (Enhance.run_args r)))%Z).
Proof.
  intros s inline. split; [|split; [|split]].
  - intros [Hdev Hnw]. cbn. unfold Enhance.coordinator. cbn.
    unfold Enhance.use_pool.
    rewrite bool_decide_eq_true_2 by done.
    by rewrite (proj2 (Z.ltb_lt _ _) Hnw).
  - intros Hnot. unfold Enhance.step, Enhance.coordinator.
    cbn [Enhance.pc Enhance.pool Enhance.pendings Enhance.joined
         Enhance.log s].
    assert (Enhance.use_pool (Enhance.run_args r) = false) as ->.
    { unfold Enhance.use_pool. apply andb_false_iff.
      destruct (decide (Enhance.device (Enhance.run_args r) = "cpu"));
        [right|left; by apply bool_decide_eq_false_2].
      apply Z.ltb_ge. destruct (Z.lt_ge_cases 1
        (Enhance.num_workers (Enhance.run_args r))); [|lia].
      by destruct Hnot. }
    change (Enhance.inline r (noisy_signals, filenames)) with inline.
    subst s inline. cbn.
    destruct (Enhance.get_estimate _ _ _) as [estimate|e]; [|done].
    by destruct (Enhance.save_wavs _ _ _ _ _ _) as [l [[]|e]].
  - done.
  - intros l0 items sched s' Hs.
    apply (SchedFacts.running_bound r sched _ _ Hs). cbn. lia.
Qed.

Lemma dispatch_per_item_witness :
  Enhance.step (H := Demo.collab) Demo.five_run Enhance.Coordinator
    (Enhance.initial [] [([[[1%Qc]]], ["/five/1.wav"])])
  = Some {| Enhance.pc := Enhance.Dispatching [];
            Enhance.pool := [{| Enhance.work := ([[[1%Qc]]], ["/five/1.wav"]);
                                Enhance.st := Enhance.Queued |}];
            Enhance.pendings := [0]; Enhance.joined := [];
            Enhance.log := [] |}.
Proof.
  refine (proj1 (dispatch_per_item (H := Demo.collab) Demo.five_run
                   [[[1%Qc]]] ["/five/1.wav"] [] [] [] [] []) _).
  split; [reflexivity|]. cbn. lia.
Defined.

(** C2: in a run that uses the pool and has come to its end, every item
    was submitted, in the order of the loader, before the first future
    was joined; the futures were joined in that order, all of them when
    no job failed, and otherwise up to the first job that failed, whose
    exception the call raises, the futures after it left alone; and every
    job was started once and finished once. *)
Theorem drain_in_submission_order `{Enhance.Collab} (r : Enhance.Run)
    (l0 : list Eff.effect) (items : list Enhance.batch)
    (sched : list Enhance.actor) (s : Enhance.state)
    (res : Py.result unit) :
  Enhance.use_pool (Enhance.run_args r) = true →
  Enhance.exec r sched (Enhance.initial l0 items) = Some s →
  Enhance.pc s = Enhance.Returned res →
  Enhance.work <$> Enhance.pool s = items
  ∧ Enhance.pendings s = seq 0 (length items)
  ∧ (∀ sched1 sched2 s1,
       sched = sched1 ++ sched2 →
       Enhance.exec r sched1 (Enhance.initial l0 items) = Some s1 →
       Enhance.joined s1 ≠ [] →
       Enhance.work <$> Enhance.pool s1 = items)
  ∧ match res with
    | Py.Ok _ =>
        Enhance.joined s = Enhance.pendings s
        ∧ Forall (λ x, x = Py.Ok tt) (Enhance.results r items)
    | Py.Raise e =>
        ∃ k, Enhance.joined s = seq 0 (S k)
             ∧ Enhance.results r items !! k = Some (Py.Raise e)
             ∧ ∀ i, i < k → Enhance.results r items !! i = Some (Py.Ok tt)
    end
  ∧ ∀ i, i < length items →
      Enhance.occurrences (Enhance.Start i) sched = 1
      ∧ Enhance.occurrences (Enhance.Finish i) sched = 1.
Proof.
  intros Hpool Hs Hpc.
  pose proof (SchedFacts.inv_exec r l0 items Hpool sched s Hs)
    as [Hwork Hpend Hstatus _ _ Hphase].
  rewrite Hpc in Hphase. destruct Hphase as (Hlen & Hdrained & Hdone).
  rewrite Hlen in Hwork, Hpend. rewrite take_ge in Hwork by done.
  split_and!; [done|done| | |].
  - intros sched1 sched2 s1 _ Hs1 Hjoined.
    pose proof (SchedFacts.inv_exec r l0 items Hpool sched1 s1 Hs1)
      as [Hwork1 _ _ _ _ Hphase1].
    assert (Hlen1 : length (Enhance.pool s1) = length items).
    { destruct (Enhance.pc s1); by destruct Hphase1. }
    rewrite Hlen1 in Hwork1. by rewrite take_ge in Hwork1.
  - unfold Enhance.drained in Hdrained. destruct res as [u|e]; [|done].
    destruct Hdrained as [Hj Hall]. split; [|done].
    rewrite Hj, Hpend. unfold Enhance.results. by rewrite length_map.
  - intros i Hi. rewrite <-Hlen in Hi.
    apply lookup_lt_is_Some in Hi as [j Hj].
    pose proof (Hstatus i j Hj) as Hok.
    apply (proj1 (Forall_lookup _ _) Hdone) in Hj.
    unfold Enhance.job_ok in Hok. unfold Enhance.is_done in Hj.
    destruct (Enhance.st j); [done..|]. by destruct Hok as (? & ? & _).
Qed.

Lemma drain_in_submission_order_witness :
  ∃ s, Enhance.exec (H := Demo.collab) Demo.five_run
         (Demo.until_failure ++ Demo.after_failure)
         (Enhance.initial [] Demo.five_items) = Some s
       ∧ Enhance.joined s = [0; 1; 2]
       ∧ Enhance.pendings s = [0; 1; 2; 3; 4].
Proof.
  destruct (Enhance.exec (H := Demo.collab) Demo.five_run
              (Demo.until_failure ++ Demo.after_failure)
              (Enhance.initial [] Demo.five_items)) as [s|] eqn:Hs;
    [|by vm_compute in Hs].
  exists s. split; [done|].
  assert (Hpc : Enhance.pc s
                = Enhance.Returned (Py.Raise Py.InferenceError)).
  { assert (Hc : Enhance.pc <$> Enhance.exec (H := Demo.collab)
             Demo.five_run (Demo.until_failure ++ Demo.after_failure)
             (Enhance.initial [] Demo.five_items)
           = Some (Enhance.Returned (Py.Raise Py.InferenceError)))
      by (vm_compute; reflexivity).
    rewrite Hs in Hc. by injection Hc. }
  destruct (drain_in_submission_order (H := Demo.collab) Demo.five_run []
              Demo.five_items _ s _ eq_refl Hs Hpc)
    as (_ & Hpend & _ & (k & Hj & Hk & Hoks) & _).
  split; [|exact Hpend].
  assert (k = 2) as ->; [|exact Hj].
  destruct k as [|[|[|k]]]; [by vm_compute in Hk..|done|].
  specialize (Hoks 2 ltac:(lia)). by vm_compute in Hoks.
Defined.

(** C7, as the code has it: all the items are submitted before the first
    future is joined, and leaving the [with] block waits for the pool.
    So when the job of item [k] is the first to fail, the call raises its
    exception with the futures after it never joined; nothing that was
    logged or written is undone; and every item, those after [k] too, has
    been processed by the time the call ends: the effects of its job are
    in the log. *)
Theorem failure_keeps_outputs `{Enhance.Collab} (r : Enhance.Run)
    (l0 : list Eff.effect) (items : list Enhance.batch)
    (sched : list Enhance.actor) (s : Enhance.state)
    (res : Py.result unit) (k : nat) (e : Py.exn) :
  Enhance.use_pool (Enhance.run_args r) = true →
  Enhance.exec r sched (Enhance.initial l0 items) = Some s →
  Enhance.pc s = Enhance.Returned res →
  Enhance.results r items !! k = Some (Py.Raise e) →
  (∀ i, i < k → Enhance.results r items !! i = Some (Py.Ok tt)) →
  res = Py.Raise e
  ∧ Enhance.joined s = seq 0 (S k)
  ∧ (∀ sched1 sched2 s1,
       sched = sched1 ++ sched2 →
       Enhance.exec r sched1 (Enhance.initial l0 items) = Some s1 →
       Enhance.log s1 `prefix_of` Enhance.log s)
  ∧ (∀ i data, items !! i = Some data →
       Enhance.within (Enhance.run_job r data).1 (Enhance.log s)).
Proof.
  intros Hpool Hs Hpc Hk Hoks.
  pose proof (SchedFacts.inv_exec r l0 items Hpool sched s Hs)
    as [Hwork Hpend Hstatus _ _ Hphase].
  rewrite Hpc in Hphase. destruct Hphase as (Hlen & Hdrained & Hdone).
  assert (Hres : res = Py.Raise e ∧ Enhance.joined s = seq 0 (S k)).
  { unfold Enhance.drained in Hdrained. destruct res as [u|e'].
    - destruct Hdrained as [_ Hall].
      apply (proj1 (Forall_lookup _ _) Hall) in Hk. done.
    - destruct Hdrained as (k' & Hj & Hk' & Hoks').
      destruct (Nat.lt_trichotomy k k') as [Hlt|[->|Hgt]].
      + apply Hoks' in Hlt. congruence.
      + split; congruence.
      + apply Hoks in Hgt. congruence. }
  destruct Hres as [-> Hj]. split_and!; [done|done| |].
  - intros sched1 sched2 s1 -> Hs1. rewrite SchedFacts.exec_app, Hs1 in Hs.
    by apply (SchedFacts.exec_log r sched2).
  - intros i data Hi.
    assert (Hjob : ∃ j, Enhance.pool s !! i = Some j
                        ∧ Enhance.work j = data).
    { rewrite Hlen, take_ge in Hwork by done.
      rewrite <-Hwork, list_lookup_fmap in Hi.
      apply fmap_Some in Hi as (j & Hj' & ->). eauto. }
    destruct Hjob as (j & Hj' & <-).
    pose proof (Hstatus i j Hj') as Hok.
    apply (proj1 (Forall_lookup _ _) Hdone) in Hj'.
    unfold Enhance.job_ok in Hok. unfold Enhance.is_done in Hj'.
    destruct (Enhance.st j); [done..|]. by destruct Hok as (_ & _ & _ & ?).
Qed.

Lemma failure_keeps_outputs_witness :
  ∃ s, Enhance.exec (H := Demo.collab) Demo.five_run
         (Demo.until_failure ++ Demo.after_failure)
         (Enhance.initial [] Demo.five_items) = Some s
       ∧ Enhance.pc s = Enhance.Returned (Py.Raise Py.InferenceError)
       ∧ Enhance.joined s = [0; 1; 2]
       ∧ Enhance.within
           (Enhance.run_job (H := Demo.collab) Demo.five_run
              ([Demo.audio "/five/5.wav"], ["/five/5.wav"])).1
           (Enhance.log s).
Proof.
  destruct (Enhance.exec (H := Demo.collab) Demo.five_run
              (Demo.until_failure ++ Demo.after_failure)
              (Enhance.initial [] Demo.five_items)) as [s|] eqn:Hs;
    [|by vm_compute in Hs].
  exists s. split; [done|].
  assert (Hpc : Enhance.pc s
                = Enhance.Returned (Py.Raise Py.InferenceError)).
  { assert (Hc : Enhance.pc <$> Enhance.exec (H := Demo.collab)
             Demo.five_run (Demo.until_failure ++ Demo.after_failure)
             (Enhance.initial [] Demo.five_items)
           = Some (Enhance.Returned (Py.Raise Py.InferenceError)))
      by (vm_compute; reflexivity).
    rewrite Hs in Hc. by injection Hc. }
  split; [done|].
  destruct (failure_keeps_outputs (H := Demo.collab) Demo.five_run []
              Demo.five_items _ s _ 2 Py.InferenceError eq_refl Hs Hpc)
    as (_ & Hj & _ & Hall).
  - vm_compute. reflexivity.
  - intros [|[|i]] Hi; [vm_compute; reflexivity..|lia].
  - split; [exact Hj|]. by apply (Hall 4).
Defined.

(** C7 as stated fails: in a run of five items on a pool whose third job
    raises [InferenceError] after the first two have written their
    files, the coordinator meets the failure with two files written and
    cannot leave; the fourth and fifth items are processed then, and the
    process ends with status 1 and their two files written as well. *)
Lemma later_items_are_processed :
  (λ s, (Enhance.pc s, Eff.saved (Enhance.log s),
         Enhance.step (H := Demo.collab) Demo.five_run Enhance.Coordinator s))
    <$> Enhance.exec (H := Demo.collab) Demo.five_run Demo.until_failure
          (Enhance.initial [Eff.Makedirs "/out"; Eff.Barrier]
             Demo.five_items)
  = Some (Enhance.Exiting (Py.Raise Py.InferenceError),
          ["/out/1.wav"; "/out/2.wav"], None)
  ∧ (λ '(l, status), (Eff.saved l, status))
      <$> Enhance.main (H := Demo.collab)
            (Demo.until_failure ++ Demo.after_failure) Demo.five_args
    = Some (["/out/1.wav"; "/out/2.wav"; "/out/4.wav"; "/out/5.wav"], 1%Z).
Proof. split; vm_compute; reflexivity. Qed.

(** ** Further properties of the loop *)

(** Every run ends: a schedule makes at most [4 * n + 3] moves on [n]
    items, and whatever has been scheduled so far, the moves that are
    left can be made and take the call to its return.  (When the pool
    is used [num_workers > 1], so a queued job can be started as soon as
    no other job runs.) *)
Theorem every_run_ends `{Enhance.Collab} (r : Enhance.Run)
    (l0 : list Eff.effect) (items : list Enhance.batch)
    (sched : list Enhance.actor) (s : Enhance.state) :
  Enhance.exec r sched (Enhance.initial l0 items) = Some s →
  length sched ≤ 4 * length items + 3
  ∧ ∃ sched' s' res,
      Enhance.exec r (sched ++ sched') (Enhance.initial l0 items) = Some s'
      ∧ Enhance.pc s' = Enhance.Returned res.
Proof.
  intros Hs. split.
  - assert (Hlen : length (Enhance.pendings (Enhance.initial l0 items))
                   ≤ length (Enhance.pool (Enhance.initial l0 items)))
      by done.
    pose proof (SchedFacts.exec_measure r sched _ s Hlen Hs) as Hm.
    unfold Enhance.measure in Hm at 2. cbn in Hm. lia.
  - assert (Hend : ∃ sched' s' res,
      Enhance.exec r sched' s = Some s'
      ∧ Enhance.pc s' = Enhance.Returned res).
    { destruct (Enhance.use_pool (Enhance.run_args r)) eqn:Hpool.
      - by apply (SchedFacts.pool_run_completes r l0 items Hpool sched).
      - by apply (SchedFacts.inline_run_completes r Hpool items l0 sched). }
    destruct Hend as (sched' & s' & res & Hs' & Hpc).
    exists sched', s', res. by rewrite SchedFacts.exec_app, Hs.
Qed.

Lemma every_run_ends_witness :
  length Demo.until_failure ≤ 4 * length Demo.five_items + 3
  ∧ ∃ sched' s' res,
      Enhance.exec (H := Demo.collab) Demo.five_run
        (Demo.until_failure ++ sched')
        (Enhance.initial [] Demo.five_items) = Some s'
      ∧ Enhance.pc s' = Enhance.Returned res.
Proof.
  destruct (Enhance.exec (H := Demo.collab) Demo.five_run
              Demo.until_failure (Enhance.initial [] Demo.five_items))
    as [s|] eqn:Hs; [|by vm_compute in Hs].
  exact (every_run_ends (H := Demo.collab) Demo.five_run []
           Demo.five_items Demo.until_failure s Hs).
Defined.

(** Without the pool (an accelerator, or one worker) the coordinator
    alone moves: the items are run one after the other, the call's log
    is what they logged up to the first failure, which the call raises,
    and the items after it are not touched. *)
Theorem inline_run `{Enhance.Collab} (r : Enhance.Run)
    (l0 : list Eff.effect) (items : list Enhance.batch)
    (sched : list Enhance.actor) (s : Enhance.state)
    (res : Py.result unit) :
  Enhance.use_pool (Enhance.run_args r) = false →
  Enhance.exec r sched (Enhance.initial l0 items) = Some s →
  Enhance.pc s = Enhance.Returned res →
  Enhance.log s = l0 ++ (Enhance.run_inline r items).1
  ∧ res = (Enhance.run_inline r items).2
  ∧ Enhance.pool s = []
  ∧ sched = replicate (length sched) Enhance.Coordinator
  ∧ ∀ done data rest e,
      items = done ++ data :: rest →
      Enhance.run_inline r done = ((Enhance.run_inline r done).1, Py.Ok tt) →
      (Enhance.inline r data).2 = Py.Raise e →
      res = Py.Raise e
      ∧ Enhance.log s
        = l0 ++ (Enhance.run_inline r done).1 ++ (Enhance.inline r data).1.
Proof.
  intros Hinline Hs Hpc.
  destruct (SchedFacts.exec_inline r Hinline items l0 sched s res Hs Hpc)
    as (Hlog & Hres & Hpl & Hsched).
  split_and!; [done..|].
  intros done data rest e -> Hdone Hdata.
  assert (Hrun : Enhance.run_inline r (done ++ data :: rest)
                 = ((Enhance.run_inline r done).1
                    ++ (Enhance.inline r data).1, Py.Raise e)).
  { clear -Hdone Hdata. induction done as [|d done IH].
    - cbn. destruct (Enhance.inline r data) as [l1 res1]. cbn in *.
      subst res1. done.
    - cbn in *. destruct (Enhance.inline r d) as [l1 [[]|e1]]; cbn in *.
      + destruct (Enhance.run_inline r done) as [l2 r2] eqn:Hd. cbn in *.
        injection Hdone as ->. rewrite IH by done. cbn.
        by rewrite (assoc_L (++)).
      + done. }
  rewrite Hrun in Hlog, Hres. done.
Qed.

Lemma inline_run_witness :
  ∃ s, Enhance.exec (H := Demo.collab)
         {| Enhance.run_model := Demo.model;
            Enhance.run_args := Demo.with_workers 1 Demo.five_args;
            Enhance.run_out_dir := "/out" |}
         (replicate 4 Enhance.Coordinator)
         (Enhance.initial [] Demo.five_items) = Some s
       ∧ Enhance.pc s = Enhance.Returned (Py.Raise Py.InferenceError)
       ∧ Enhance.pool s = []
       ∧ Eff.saved (Enhance.log s) = ["/out/1.wav"; "/out/2.wav"].
Proof.
  destruct (Enhance.exec (H := Demo.collab)
              {| Enhance.run_model := Demo.model;
                 Enhance.run_args := Demo.with_workers 1 Demo.five_args;
                 Enhance.run_out_dir := "/out" |}
              (replicate 4 Enhance.Coordinator)
              (Enhance.initial [] Demo.five_items)) as [s|] eqn:Hs;
    [|by vm_compute in Hs].
  exists s. split; [done|].
  assert (Hc : (λ s, (Enhance.pc s, Eff.saved (Enhance.log s)))
                 <$> Enhance.exec (H := Demo.collab)
                       {| Enhance.run_model := Demo.model;
                          Enhance.run_args :=
                            Demo.with_workers 1 Demo.five_args;
                          Enhance.run_out_dir := "/out" |}
                       (replicate 4 Enhance.Coordinator)
                       (Enhance.initial [] Demo.five_items)
               = Some (Enhance.Returned (Py.Raise Py.InferenceError),
                       ["/out/1.wav"; "/out/2.wav"]))
    by (vm_compute; reflexivity).
  rewrite Hs in Hc. injection Hc as Hpc Hsaved.
  split_and!; [done| |done].
  refine (proj1 (proj2 (proj2 (inline_run (H := Demo.collab) _ []
                                 Demo.five_items _ s _ _ Hs Hpc)))).
  reflexivity.
Defined.

(** ** What a run logs, and what does not depend on the schedule *)

Module LogFacts.
Import Tensor Eff Enhance SchedFacts.

Section Pool.
Context `{Collab} (r : Run) (l0 : list effect) (items : list batch).
Hypothesis Hpool : use_pool (run_args r) = true.

Lemma done_effects_app pl1 pl2 :
  done_effects r (pl1 ++ pl2) = (done_effects r pl1 ++ done_effects r pl2)%list.
Proof. unfold done_effects. by rewrite flat_map_app. Qed.

Lemma done_effects_insert pl i j j' :
  pl !! i = Some j →
  done_effects r pl
  = (done_effects r (take i pl)
     ++ (if is_done j then (run_job r (work j)).1 else [])
     ++ done_effects r (drop (S i) pl))%list
  ∧ done_effects r (<[i := j']> pl)
    = (done_effects r (take i pl)
       ++ (if is_done j' then (run_job r (work j')).1 else [])
       ++ done_effects r (drop (S i) pl))%list.
Proof.
  intros Hi. split.
  - rewrite <-(take_drop_middle pl i j Hi) at 1.
    rewrite done_effects_app. done.
  - rewrite insert_take_drop by (by eapply lookup_lt_Some).
    rewrite done_effects_app. done.
Qed.

Lemma log_step a s s' :
  step r a s = Some s' →
  log s ≡ₚ l0 ++ printed s ++ done_effects r (pool s) →
  log s' ≡ₚ l0 ++ printed s' ++ done_effects r (pool s').
Proof.
  intros Hstep Hlog. destruct a as [|i|i]; cbn in Hstep.
  - unfold coordinator in Hstep. unfold printed in *.
    destruct (pc s) as [[|data rest]|[|p rest]|res|res] eqn:Hpc.
    + destruct (pendings s) eqn:Hp; injection Hstep as <-;
        cbn [pc pool pendings log]; rewrite ?Hp; [done|].
      rewrite Hlog. cbn [app].
      rewrite <-(assoc_L (++)). apply Permutation_app_head.
      symmetry. apply Permutation_cons_append.
    + rewrite Hpool in Hstep. injection Hstep as <-.
      cbn [pc pool pendings log].
      rewrite done_effects_app. cbn. by rewrite app_nil_r.
    + by injection Hstep as <-.
    + destruct (st <$> pool s !! p) as [[| |[[]|e]]|]; try done;
        by injection Hstep as <-.
    + destruct (forallb _ _); [|done]. by injection Hstep as <-.
    + done.
  - unfold worker_start in Hstep.
    destruct (pool s !! i) as [[data [| |res]]|] eqn:Hi; try done.
    destruct (_ <? _)%Z; [|done]. injection Hstep as <-.
    destruct (done_effects_insert _ _ _ {| work := data; st := Running |} Hi)
      as [H1 H2].
    unfold printed in *. cbn [pc pool pendings log] in *.
    rewrite H2. rewrite H1 in Hlog. done.
  - unfold worker_finish in Hstep.
    destruct (pool s !! i) as [[data [| |res]]|] eqn:Hi; try done.
    destruct (run_job r data) as [l res] eqn:Hjob. injection Hstep as <-.
    destruct (done_effects_insert _ _ _ {| work := data; st := Done res |} Hi)
      as [H1 H2].
    unfold printed in *. cbn [pc pool pendings log] in *.
    rewrite H2. rewrite H1 in Hlog. cbn [is_done st work app] in *.
    rewrite Hjob. cbn [fst].
    rewrite Hlog. rewrite <-!(assoc_L (++)).
    do 3 apply Permutation_app_head. apply Permutation_app_comm.
Qed.

Lemma log_exec sched s :
  exec r sched (initial l0 items) = Some s →
  log s ≡ₚ l0 ++ printed s ++ done_effects r (pool s).
Proof.
  revert sched s. apply (exec_ind r); [by cbn; rewrite app_nil_r|].
  intros done s a s' _ Hlog Hstep. by eapply log_step.
Qed.

Lemma done_effects_all pl :
  Forall (λ j, is_done j = true) pl →
  done_effects r pl = job_effects r (work <$> pl).
Proof.
  unfold done_effects, job_effects.
  induction 1 as [|j pl Hj _ IH]; [done|].
  cbn. by rewrite Hj, IH.
Qed.

(** What a run that has returned has logged. *)
Lemma returned_log sched s res :
  exec r sched (initial l0 items) = Some s → pc s = Returned res →
  work <$> pool s = items
  ∧ drained (results r items) (joined s) res
  ∧ log s ≡ₚ l0 ++ match items with
                   | [] => []
                   | _ => [Stdout "Waiting for pending jobs..."]
                   end ++ job_effects r items.
Proof.
  intros Hs Hpc.
  pose proof (inv_exec r l0 items Hpool sched s Hs) as Hinv.
  pose proof (inv_phase _ _ _ _ _ Hinv) as Hphase.
  rewrite Hpc in Hphase. destruct Hphase as (Hlen & Hdr & Hdone).
  assert (Hwork : work <$> pool s = items).
  { rewrite (inv_work _ _ _ _ _ Hinv), Hlen. apply firstn_all. }
  split; [done|]. split; [done|].
  rewrite (log_exec sched s Hs). apply Permutation_app_head.
  rewrite (done_effects_all _ Hdone), Hwork.
  unfold printed. rewrite Hpc, (inv_pendings _ _ _ _ _ Hinv), Hlen.
  by destruct items.
Qed.

End Pool.

Section Outcome.
Context `{Collab}.

(** The way a drain ends is fixed by the results of the jobs. *)
Lemma drained_unique rs j1 j2 res1 res2 :
  drained rs j1 res1 → drained rs j2 res2 → res1 = res2 ∧ j1 = j2.
Proof.
  destruct res1 as [[]|e1], res2 as [[]|e2]; cbn.
  - by intros [-> _] [-> _].
  - intros [_ Hall] (k & _ & Hk & _).
    eapply Forall_lookup_1 in Hall; [|exact Hk]. done.
  - intros (k & _ & Hk & _) [_ Hall].
    eapply Forall_lookup_1 in Hall; [|exact Hk]. done.
  - intros (k1 & -> & Hk1 & Hlt1) (k2 & -> & Hk2 & Hlt2).
    destruct (lt_eq_lt_dec k1 k2) as [[Hlt| ->]|Hlt].
    + rewrite (Hlt2 _ Hlt) in Hk1. done.
    + rewrite Hk1 in Hk2. by injection Hk2 as ->.
    + rewrite (Hlt1 _ Hlt) in Hk2. done.
Qed.

(** The call a worker makes is the code of the loop's other branch. *)
Lemma job_is_inline (r r' : Run) data :
  run_model r = run_model r' → run_out_dir r = run_out_dir r' →
  streaming (run_args r) = streaming (run_args r') →
  dry (run_args r) = dry (run_args r') →
  noisy_dir (run_args r) = noisy_dir (run_args r') →
  run_job r data = inline r' data.
Proof.
  intros Hm Ho Hs Hd Hn. destruct data as [noisy filenames].
  unfold run_job, inline, _estimate_and_save, get_estimate.
  by rewrite Hm, Ho, Hs, Hd, Hn.
Qed.

(** The items that [run_inline] gets through: all of them, or those up
    to the first failure. *)
Lemma run_inline_spec (r : Run) items :
  ∃ n,
    (run_inline r items).1
    = flat_map (λ data, (inline r data).1) (take n items)
    ∧ drained (map (λ data, (inline r data).2) items) (seq 0 n)
        (run_inline r items).2.
Proof.
  induction items as [|data rest (n & Hlog & Hdr)].
  - exists 0. cbn. done.
  - cbn [run_inline]. destruct (inline r data) as [l1 [[]|e]] eqn:Hd.
    + exists (S n). destruct (run_inline r rest) as [l2 res2].
      cbn in *. rewrite Hd. cbn. split; [by rewrite Hlog|].
      destruct res2 as [[]|e2].
      * destruct Hdr as [Hn Hall]. cbn.
        apply (f_equal length) in Hn. rewrite !length_seq in Hn. subst n.
        split; [done|by constructor].
      * destruct Hdr as (k & Hn & Hk & Hlt). exists (S k). cbn.
        apply (f_equal length) in Hn. rewrite !length_seq in Hn. subst n.
        split_and!; [done..|].
        intros [|i] Hi; cbn; [done|]. apply Hlt. lia.
    + exists 1. cbn. rewrite Hd. cbn. rewrite take_0. cbn.
      split; [by rewrite app_nil_r|]. exists 0. cbn.
      split_and!; [done..|]. intros; lia.
Qed.

End Outcome.
End LogFacts.

Module RunFacts.
Import Eff Enhance.

Lemma exec_returns `{Collab} (r : Run) sched s0 ph :
  pc <$> exec r sched s0 = Some ph →
  ∃ s, exec r sched s0 = Some s ∧ pc s = ph.
Proof.
  destruct (exec r sched s0) as [s|]; [|done]. intros [= <-]. eauto.
Qed.

Lemma saved_Permutation l l' : l ≡ₚ l' → saved l ≡ₚ saved l'.
Proof.
  unfold saved. induction 1; cbn; repeat case_match; try done;
    try (by constructor); try (by etrans).
Qed.

End RunFacts.

(** With the pool, a call that has returned has run the job of every
    item to its end, whether or not a job failed: up to their order, its
    log holds the effects of all the jobs and the line printed before
    the drain (when there is an item), each once and nothing else. *)
Theorem pool_processes_every_item `{Enhance.Collab} (r : Enhance.Run)
    (l0 : list Eff.effect) (items : list Enhance.batch)
    (sched : list Enhance.actor) (s : Enhance.state)
    (res : Py.result unit) :
  Enhance.use_pool (Enhance.run_args r) = true →
  Enhance.exec r sched (Enhance.initial l0 items) = Some s →
  Enhance.pc s = Enhance.Returned res →
  Enhance.log s
  ≡ₚ l0 ++ match items with
           | [] => []
           | _ => [Eff.Stdout "Waiting for pending jobs..."]
           end ++ Enhance.job_effects r items.
Proof.
  intros Hpool Hs Hpc.
  by destruct (LogFacts.returned_log r l0 items Hpool sched s res Hs Hpc)
    as (_ & _ & Hlog).
Qed.

Lemma pool_processes_every_item_witness :
  ∃ s, Enhance.exec (H := Demo.collab) Demo.five_run
         (Demo.until_failure ++ Demo.after_failure)
         (Enhance.initial [] Demo.five_items) = Some s
       ∧ Enhance.pc s = Enhance.Returned (Py.Raise Py.InferenceError)
       ∧ Enhance.log s
         ≡ₚ Eff.Stdout "Waiting for pending jobs..."
            :: Enhance.job_effects (H := Demo.collab) Demo.five_run
                 Demo.five_items.
Proof.
  destruct (RunFacts.exec_returns (H := Demo.collab) Demo.five_run
              (Demo.until_failure ++ Demo.after_failure)
              (Enhance.initial [] Demo.five_items)
              (Enhance.Returned (Py.Raise Py.InferenceError)))
    as (s & Hs & Hpc); [vm_compute; reflexivity|].
  exists s. split; [exact Hs|]. split; [exact Hpc|].
  exact (pool_processes_every_item (H := Demo.collab) Demo.five_run
           [] Demo.five_items _ s _ eq_refl Hs Hpc).
Defined.

(** How a call ends does not depend on the schedule: two runs over the
    same items that have returned ended the same way (both normally, or
    both with the same exception), joined the same futures and made the
    same effects, up to their order. *)
Theorem outcome_independent_of_schedule `{Enhance.Collab} (r : Enhance.Run)
    (l0 : list Eff.effect) (items : list Enhance.batch)
    (sched1 sched2 : list Enhance.actor) (s1 s2 : Enhance.state)
    (res1 res2 : Py.result unit) :
  Enhance.exec r sched1 (Enhance.initial l0 items) = Some s1 →
  Enhance.pc s1 = Enhance.Returned res1 →
  Enhance.exec r sched2 (Enhance.initial l0 items) = Some s2 →
  Enhance.pc s2 = Enhance.Returned res2 →
  res1 = res2
  ∧ Enhance.joined s1 = Enhance.joined s2
  ∧ Enhance.log s1 ≡ₚ Enhance.log s2
  ∧ Eff.saved (Enhance.log s1) ≡ₚ Eff.saved (Enhance.log s2).
Proof.
  intros Hs1 Hpc1 Hs2 Hpc2.
  assert (Hmain : res1 = res2 ∧ Enhance.joined s1 = Enhance.joined s2
                  ∧ Enhance.log s1 ≡ₚ Enhance.log s2).
  { destruct (Enhance.use_pool (Enhance.run_args r)) eqn:Hpool.
    - destruct (LogFacts.returned_log r l0 items Hpool _ _ _ Hs1 Hpc1)
        as (_ & Hd1 & Hl1).
      destruct (LogFacts.returned_log r l0 items Hpool _ _ _ Hs2 Hpc2)
        as (_ & Hd2 & Hl2).
      destruct (LogFacts.drained_unique _ _ _ _ _ Hd1 Hd2) as [-> ->].
      by rewrite Hl1, Hl2.
    - destruct (SchedFacts.exec_inline r Hpool _ _ _ _ _ Hs1 Hpc1)
        as (Hl1 & -> & _).
      destruct (SchedFacts.exec_inline r Hpool _ _ _ _ _ Hs2 Hpc2)
        as (Hl2 & -> & _).
      destruct (SchedFacts.inline_shape r Hpool _ _ _ _ Hs1)
        as (_ & _ & -> & _).
      destruct (SchedFacts.inline_shape r Hpool _ _ _ _ Hs2)
        as (_ & _ & -> & _).
      by rewrite Hl1, Hl2. }
  destruct Hmain as (Hres & Hj & Hl). split_and!; [done..|].
  by apply RunFacts.saved_Permutation.
Qed.

Lemma outcome_independent_of_schedule_witness :
  ∃ s1 s2,
    Enhance.exec (H := Demo.collab) Demo.five_run
      (Demo.until_failure ++ Demo.after_failure)
      (Enhance.initial [] Demo.five_items) = Some s1
    ∧ Enhance.exec (H := Demo.collab) Demo.five_run Demo.last_first
        (Enhance.initial [] Demo.five_items) = Some s2
    ∧ Enhance.joined s1 = Enhance.joined s2
    ∧ Eff.saved (Enhance.log s1) ≡ₚ Eff.saved (Enhance.log s2).
Proof.
  destruct (RunFacts.exec_returns (H := Demo.collab) Demo.five_run
              (Demo.until_failure ++ Demo.after_failure)
              (Enhance.initial [] Demo.five_items)
              (Enhance.Returned (Py.Raise Py.InferenceError)))
    as (s1 & Hs1 & Hpc1); [vm_compute; reflexivity|].
  destruct (RunFacts.exec_returns (H := Demo.collab) Demo.five_run
              Demo.last_first
              (Enhance.initial [] Demo.five_items)
              (Enhance.Returned (Py.Raise Py.InferenceError)))
    as (s2 & Hs2 & Hpc2); [vm_compute; reflexivity|].
  exists s1, s2.
  destruct (outcome_independent_of_schedule (H := Demo.collab)
              Demo.five_run [] Demo.five_items _ _ s1 s2 _ _
              Hs1 Hpc1 Hs2 Hpc2) as (_ & Hj & _ & Hsv).
  split; [exact Hs1|]. split; [exact Hs2|]. split; [exact Hj|exact Hsv].
Defined.

(** The pool changes the order of the effects, not the outcome: a run on
    the pool and a run without it (one worker, or another device) over
    the same items, with the same model, output directory, [dry],
    [streaming] and [noisy_dir], end the same way.  The run on the pool
    logs what the other run logs and the line printed before the drain;
    and, when a job failed, the effects of the items after the failing
    one, which the run without the pool never starts. *)
Theorem pool_agrees_with_inline `{Enhance.Collab} (r r' : Enhance.Run)
    (l0 : list Eff.effect) (items : list Enhance.batch)
    (sched sched' : list Enhance.actor) (s s' : Enhance.state)
    (res res' : Py.result unit) :
  Enhance.run_model r = Enhance.run_model r' →
  Enhance.run_out_dir r = Enhance.run_out_dir r' →
  Enhance.streaming (Enhance.run_args r)
  = Enhance.streaming (Enhance.run_args r') →
  Enhance.dry (Enhance.run_args r) = Enhance.dry (Enhance.run_args r') →
  Enhance.noisy_dir (Enhance.run_args r)
  = Enhance.noisy_dir (Enhance.run_args r') →
  Enhance.use_pool (Enhance.run_args r) = true →
  Enhance.use_pool (Enhance.run_args r') = false →
  Enhance.exec r sched (Enhance.initial l0 items) = Some s →
  Enhance.pc s = Enhance.Returned res →
  Enhance.exec r' sched' (Enhance.initial l0 items) = Some s' →
  Enhance.pc s' = Enhance.Returned res' →
  res = res'
  ∧ Enhance.log s
    ≡ₚ Enhance.printed s ++ Enhance.log s'
       ++ Enhance.job_effects r
            (drop (length (Enhance.joined s)) items)
  ∧ (res' = Py.Ok tt →
     Enhance.log s ≡ₚ Enhance.printed s ++ Enhance.log s').
Proof.
  intros Hm Ho Hst Hdry Hnd Hpool Hinline Hs Hpc Hs' Hpc'.
  destruct (LogFacts.returned_log r l0 items Hpool _ _ _ Hs Hpc)
    as (Hwork & Hd & Hlog).
  pose proof (SchedFacts.inv_exec r l0 items Hpool sched s Hs) as Hinv.
  destruct (SchedFacts.exec_inline r' Hinline _ _ _ _ _ Hs' Hpc')
    as (Hlog' & Hres' & _).
  destruct (LogFacts.run_inline_spec r' items) as (n & Hn & Hd').
  assert (Hjobs : ∀ data, Enhance.inline r' data = Enhance.run_job r data)
    by (intros; symmetry; by apply LogFacts.job_is_inline).
  assert (Hrs : map (λ data, (Enhance.inline r' data).2) items
                = Enhance.results r items).
  { unfold Enhance.results. apply map_ext. intros. by rewrite Hjobs. }
  rewrite Hrs, <-Hres' in Hd'.
  destruct (LogFacts.drained_unique _ _ _ _ _ Hd Hd') as [-> Hj].
  assert (Hprinted : Enhance.printed s
                     = match items with
                       | [] => []
                       | _ => [Eff.Stdout "Waiting for pending jobs..."]
                       end).
  { unfold Enhance.printed.
    rewrite Hpc, (Enhance.inv_pendings _ _ _ _ _ Hinv).
    rewrite <-(length_fmap Enhance.work), Hwork. by destruct items. }
  assert (Hall : Enhance.log s
    ≡ₚ Enhance.printed s ++ Enhance.log s'
       ++ Enhance.job_effects r (drop (length (Enhance.joined s)) items)).
  { rewrite Hlog, Hprinted, Hlog', Hn, Hj, length_seq.
    rewrite <-(take_drop n items) at 2.
    unfold Enhance.job_effects. rewrite flat_map_app.
    rewrite (flat_map_ext (λ data, (Enhance.inline r' data).1)
               (λ data, (Enhance.run_job r data).1))
      by (intros; by rewrite Hjobs).
    rewrite (Permutation_app_swap_app l0).
    by rewrite <-!(assoc_L (++)). }
  split_and!; [done..|].
  intros Hok. rewrite Hall. rewrite Hok in Hd. destruct Hd as [-> _].
  rewrite length_seq. unfold Enhance.results. rewrite length_map.
  rewrite drop_all. unfold Enhance.job_effects. cbn.
  by rewrite app_nil_r.
Qed.

Lemma pool_agrees_with_inline_witness :
  ∃ s s',
    Enhance.exec (H := Demo.collab) (Demo.in_run 4) (Enhance.sequential 2)
      (Enhance.initial [] Demo.in_items) = Some s
    ∧ Enhance.exec (H := Demo.collab) (Demo.in_run 1)
        (replicate 4 Enhance.Coordinator)
        (Enhance.initial [] Demo.in_items) = Some s'
    ∧ Enhance.log s
      ≡ₚ Eff.Stdout "Waiting for pending jobs..." :: Enhance.log s'.
Proof.
  destruct (RunFacts.exec_returns (H := Demo.collab) (Demo.in_run 4)
              (Enhance.sequential 2) (Enhance.initial [] Demo.in_items)
              (Enhance.Returned (Py.Ok tt)))
    as (s & Hs & Hpc); [vm_compute; reflexivity|].
  destruct (RunFacts.exec_returns (H := Demo.collab) (Demo.in_run 1)
              (replicate 4 Enhance.Coordinator)
              (Enhance.initial [] Demo.in_items)
              (Enhance.Returned (Py.Ok tt)))
    as (s' & Hs' & Hpc'); [vm_compute; reflexivity|].
  exists s, s'. split; [exact Hs|]. split; [exact Hs'|].
  destruct (pool_agrees_with_inline (H := Demo.collab) (Demo.in_run 4)
              (Demo.in_run 1) [] Demo.in_items _ _ s s' _ _
              eq_refl eq_refl eq_refl eq_refl eq_refl eq_refl eq_refl
              Hs Hpc Hs' Hpc') as (_ & _ & Hlog).
  assert (Hpr : (λ s, Enhance.printed s) <$>
                  Enhance.exec (H := Demo.collab) (Demo.in_run 4)
                    (Enhance.sequential 2)
                    (Enhance.initial [] Demo.in_items)
                = Some [Eff.Stdout "Waiting for pending jobs..."])
    by (vm_compute; reflexivity).
  rewrite Hs in Hpr. injection Hpr as Hpr.
  pose proof (Hlog eq_refl) as Hl. rewrite Hpr in Hl. exact Hl.
Defined.

(** ** The loop of [save_wavs] and the writer *)

Module SaveFacts.
Import Tensor Eff Enhance.
Local Open Scope string_scope.

Lemma bind_ok {A B} (l : list effect) (a : A) (k : A → io B) :
  ((l, Py.Ok a) ≫= k) = ((l ++ (k a).1)%list, (k a).2).
Proof. cbn. by destruct (k a). Qed.

Section Save.
Context `{Collab}.

(** The path planned for a file that has a name, and what planning it
    logs. *)
Lemma output_path_ok filename out_dir input_root :
  filename ≠ "" →
  ∃ l stem,
    output_path filename out_dir input_root = (l, Py.Ok (stem ++ ".wav"))
    ∧ saved l = []
    ∧ length l = if Py.truthy input_root then 1%nat else 0%nat.
Proof.
  intros Hname. unfold output_path.
  destruct (Py.truthy input_root) eqn:Hroot.
  - assert (Hrel : ∃ rel,
      PosixPath.relpath getcwd filename (default "" input_root) = Py.Ok rel).
    { unfold PosixPath.relpath. rewrite bool_decide_eq_false_2 by done.
      destruct (_ ++ _)%list; eauto. }
    destruct Hrel as [rel ->]. cbn. eauto.
  - unfold PosixPath.join. cbn [foldl].
    set (name := Str.rsplit1_head "." (PosixPath.basename filename)).
    unfold PosixPath.join1.
    destruct (Str.startswith _ _); [by exists [], name|].
    destruct (_ || _).
    + exists [], (out_dir ++ name). by rewrite StrFacts.app_assoc.
    + exists [], (out_dir ++ "/" ++ name).
      by rewrite !StrFacts.app_assoc.
Qed.

Lemma write_ok wav filename sr :
  concat wav ≠ [] →
  ∃ wav', write wav filename sr = ([Save filename wav' sr], Py.Ok tt).
Proof.
  intros Hne. unfold write.
  destruct (WriterFacts.max_item_nonempty (abs2 wav)) as [peak Hpeak].
  { unfold abs2. rewrite WriterFacts.concat_map_map.
    by destruct (concat wav). }
  rewrite Hpeak. cbn. eauto.
Qed.

Lemma write_empty wav filename sr :
  concat wav = [] → write wav filename sr = ([], Py.Raise Py.RuntimeError).
Proof.
  intros He. unfold write, max_item, abs2.
  rewrite WriterFacts.concat_map_map, He. done.
Qed.

(** One round of the loop of [save_wavs], for a waveform that has a
    sample and a file that has a name. *)
Lemma save_one estimate filename out_dir input_root sr :
  concat estimate ≠ [] → filename ≠ "" →
  ∃ l stem,
    (path ← output_path filename out_dir input_root; write estimate path sr)
    = (l, Py.Ok tt)
    ∧ (output_path filename out_dir input_root).2 = Py.Ok (stem ++ ".wav")
    ∧ saved l = [stem ++ ".wav"]
    ∧ length l = if Py.truthy input_root then 2%nat else 1%nat.
Proof.
  intros He Hf.
  destruct (output_path_ok filename out_dir input_root Hf)
    as (l & stem & Hp & Hsaved & Hlen).
  destruct (write_ok estimate (stem ++ ".wav") sr He) as [wav' Hw].
  exists (l ++ [Save (stem ++ ".wav") wav' sr])%list, stem.
  rewrite Hp, bind_ok, Hw. cbn [fst snd].
  split_and!; [done|done| |].
  - unfold saved in *. rewrite omap_app, Hsaved. done.
  - rewrite length_app, Hlen. cbn. by destruct (Py.truthy input_root).
Qed.

Lemma save_wavs_cons estimate estimates noisy noisy_sigs filename filenames
    out_dir input_root sr :
  save_wavs (estimate :: estimates) (noisy :: noisy_sigs)
    (filename :: filenames) out_dir input_root sr
  = ((path ← output_path filename out_dir input_root;
      write estimate path sr);;
     save_wavs estimates noisy_sigs filenames out_dir input_root sr).
Proof.
  cbn [save_wavs].
  destruct (output_path filename out_dir input_root) as [l1 [p|e]]; [|done].
  rewrite !bind_ok.
  destruct (write estimate p sr) as [l2 [[]|e]]; [|done].
  rewrite !bind_ok. cbn [fst snd]. rewrite bind_ok.
  by rewrite (assoc_L (++)).
Qed.

Lemma save_wavs_zip estimates noisy_sigs filenames out_dir input_root sr :
  Forall (λ e, concat e ≠ []) estimates →
  Forall (λ f, f ≠ "") filenames →
  ∃ l,
    save_wavs estimates noisy_sigs filenames out_dir input_root sr
    = (l, Py.Ok tt)
    ∧ Forall2 (λ f p, (output_path f out_dir input_root).2 = Py.Ok p
                      ∧ ∃ stem, p = stem ++ ".wav")
        (take (length estimates `min` length noisy_sigs) filenames)
        (saved l)
    ∧ length l
      = ((if Py.truthy input_root then 2 else 1)
         * length (saved l))%nat.
Proof.
  intros He. revert noisy_sigs filenames.
  induction He as [|e es He _ IH]; intros ns fs Hf.
  - exists []. cbn. rewrite take_0. split_and!; [done|constructor|lia].
  - destruct ns as [|n ns].
    { exists []. cbn. rewrite take_0. split_and!; [done|constructor|lia]. }
    destruct Hf as [|f fs Hf Hfs].
    { exists []. cbn. split_and!; [done|constructor|lia]. }
    rewrite save_wavs_cons.
    destruct (save_one e f out_dir input_root sr He Hf)
      as (l1 & stem & -> & Hp & Hs1 & Hl1).
    destruct (IH ns fs Hfs) as (l2 & -> & Hall & Hl2).
    exists (l1 ++ l2)%list. rewrite bind_ok. cbn [fst snd length take].
    rewrite <-Nat.succ_min_distr. cbn [take].
    assert (Hsaved : saved (l1 ++ l2) = (stem ++ ".wav") :: saved l2).
    { unfold saved in *. by rewrite omap_app, Hs1. }
    rewrite Hsaved. split_and!; [done| |].
    + constructor; [|done]. eauto.
    + rewrite length_app, Hl1, Hl2. cbn.
      destruct (Py.truthy input_root); lia.
Qed.

(** What planning a path logs: with an input root the creation of the
    directory of the path, without one nothing. *)
Lemma output_path_log filename out_dir input_root l p :
  output_path filename out_dir input_root = (l, Py.Ok p) →
  l = if Py.truthy input_root then [Makedirs (PosixPath.dirname p)] else [].
Proof.
  unfold output_path. destruct (Py.truthy input_root).
  - destruct (PosixPath.relpath _ _ _) as [rel|e]; [|done].
    cbn. by intros [= <- <-].
  - by intros [= <- <-].
Qed.

Lemma write_ok_any wav :
  concat wav ≠ [] →
  ∃ wav', ∀ filename sr,
    write wav filename sr = ([Save filename wav' sr], Py.Ok tt).
Proof.
  intros Hne. unfold write.
  destruct (WriterFacts.max_item_nonempty (abs2 wav)) as [peak Hpeak].
  { unfold abs2. rewrite WriterFacts.concat_map_map.
    by destruct (concat wav). }
  exists (div2 wav (Py.max peak 1)). intros filename sr.
  by rewrite Hpeak.
Qed.

(** The whole log of [save_wavs]: file by file, the creation of its
    directory when there is an input root, then the file. *)
Lemma save_wavs_log (estimates noisy_sigs : tensor3) filenames out_dir
    input_root sr :
  Forall (λ e, concat e ≠ []) estimates →
  Forall (λ f, f ≠ "") filenames →
  ∃ paths wavs,
    save_wavs estimates noisy_sigs filenames out_dir input_root sr
    = (flat_map (λ pw : string * tensor2,
                   (if Py.truthy input_root
                    then [Makedirs (PosixPath.dirname pw.1)] else [])
                   ++ [Save pw.1 pw.2 sr])%list
         (zip paths wavs),
       Py.Ok tt)
    ∧ Forall2 (λ f p, (output_path f out_dir input_root).2 = Py.Ok p
                      ∧ ∃ stem, p = stem ++ ".wav")
        (take (List.length estimates `min` List.length noisy_sigs)
           filenames)
        paths
    ∧ Forall2 (λ e w, ∀ filename sr',
                 write e filename sr' = ([Save filename w sr'], Py.Ok tt))
        (take (List.length noisy_sigs `min` List.length filenames)
           estimates)
        wavs
    ∧ saved (flat_map (λ pw : string * tensor2,
                         (if Py.truthy input_root
                          then [Makedirs (PosixPath.dirname pw.1)] else [])
                         ++ [Save pw.1 pw.2 sr])%list
               (zip paths wavs)) = paths.
Proof.
  intros He. revert noisy_sigs filenames.
  induction estimates as [|e es IH]; intros ns fs Hf.
  - exists [], []. cbn. rewrite !take_0, take_nil.
    split_and!; [done|constructor|constructor|done].
  - apply Forall_cons in He as [He Hes].
    destruct ns as [|n ns].
    { exists [], []. cbn. rewrite !take_0.
      split_and!; [done|constructor|constructor|done]. }
    destruct Hf as [|f fs Hf Hfs].
    { exists [], []. cbn. rewrite ?Nat.min_0_r, ?take_0, ?take_nil.
      split_and!; [done|constructor|constructor|done]. }
    rewrite save_wavs_cons.
    destruct (output_path_ok f out_dir input_root Hf)
      as (l1 & stem & Hp & _).
    pose proof (output_path_log _ _ _ _ _ Hp) as ->.
    destruct (write_ok_any e He) as [w Hw].
    destruct (IH Hes ns fs Hfs) as (paths & wavs & -> & Hpaths & Hwavs & Hs).
    exists ((stem ++ ".wav") :: paths), (w :: wavs).
    rewrite Hp, !bind_ok, Hw. cbn [fst snd length zip zip_with flat_map].
    rewrite <-!Nat.succ_min_distr. cbn [take].
    split_and!.
    + by rewrite bind_ok.
    + constructor; [|done]. rewrite Hp. eauto.
    + by constructor.
    + unfold saved in *. rewrite !omap_app, Hs.
      by destruct (Py.truthy input_root).
Qed.

(** The noisy signals are looked at for their number only. *)
Lemma save_wavs_noisy estimates noisy_sigs noisy' filenames out_dir
    input_root sr :
  length noisy' = length noisy_sigs →
  save_wavs estimates noisy' filenames out_dir input_root sr
  = save_wavs estimates noisy_sigs filenames out_dir input_root sr.
Proof.
  revert noisy_sigs noisy' filenames.
  induction estimates as [|e es IH]; intros [|n ns] [|n' ns'] fs Hlen;
    try done.
  destruct fs as [|f fs]; [done|].
  rewrite !save_wavs_cons. rewrite (IH ns ns') by (cbn in Hlen; lia). done.
Qed.

(** A waveform without a sample stops the loop. *)
Lemma save_wavs_stop (good : tensor3) (bad : tensor2)
    (rest noisy_sigs : tensor3) filenames filename out_dir input_root sr :
  Forall (λ e, concat e ≠ []) good → concat bad = [] →
  (List.length good < List.length noisy_sigs)%nat →
  filenames !! List.length good = Some filename →
  Forall (λ f, f ≠ "") filenames →
  save_wavs (good ++ bad :: rest)%list noisy_sigs filenames out_dir
    input_root sr
  = (((save_wavs good noisy_sigs filenames out_dir input_root sr).1
      ++ (output_path filename out_dir input_root).1)%list,
     Py.Raise Py.RuntimeError).
Proof.
  intros Hg Hb. revert noisy_sigs filenames.
  induction good as [|e es IH]; intros ns fs Hn Hk Hf.
  - destruct ns as [|n ns]; [cbn in Hn; lia|].
    destruct fs as [|f fs]; [done|]. cbn in Hk. injection Hk as ->.
    apply Forall_cons in Hf as [Hf _].
    cbn [app length save_wavs].
    destruct (output_path_ok filename out_dir input_root Hf)
      as (l & stem & Hp & _). rewrite Hp, !bind_ok.
    rewrite write_empty by done. cbn. by rewrite app_nil_r.
  - destruct ns as [|n ns]; [cbn in Hn; lia|].
    destruct fs as [|f fs]; [done|]. cbn in Hk, Hn.
    apply Forall_cons in Hf as [Hf Hfs].
    apply Forall_cons in Hg as [He Hes].
    cbn [app]. rewrite !save_wavs_cons.
    destruct (save_one e f out_dir input_root sr He Hf)
      as (l1 & stem & -> & _).
    rewrite (IH Hes ns fs) by (done || lia). rewrite !bind_ok. cbn [fst snd].
    by rewrite (assoc_L (++)).
Qed.

End Save.
End SaveFacts.

Module NormFacts.
Import Tensor Eff Enhance.
Local Open Scope Qc_scope.

(** Dividing by a positive number divides the peak. *)
Lemma max_item_div2 wav peak d :
  max_item (abs2 wav) = Py.Ok peak → 0 < d →
  max_item (abs2 (div2 wav d)) = Py.Ok (peak / d).
Proof.
  intros Hpeak Hd. apply WriterFacts.max_item_spec in Hpeak.
  apply WriterFacts.max_item_spec.
  unfold abs2, div2 in *. rewrite !WriterFacts.concat_map_map in *.
  destruct Hpeak as [Hin Hall]. split.
  - apply list_elem_of_fmap in Hin as (x & -> & Hx).
    apply list_elem_of_fmap. exists (x / d). split.
    + by rewrite WriterFacts.Qcabs_div.
    + apply list_elem_of_fmap. eauto.
  - apply Forall_forall. intros y Hy.
    apply list_elem_of_fmap in Hy as (z & -> & Hz).
    apply list_elem_of_fmap in Hz as (x & -> & Hx).
    rewrite WriterFacts.Qcabs_div by done.
    apply Qcmult_le_compat_r; [|by apply WriterFacts.Qcinv_nonneg].
    apply (proj1 (Forall_forall _ _) Hall).
    apply list_elem_of_fmap. eauto.
Qed.

Lemma peak_le_max peak : peak ≤ Py.max peak 1.
Proof.
  destruct (WriterFacts.Py_max_cases peak 1) as [[Hlt ->]|[_ ->]].
  - by apply Qclt_le_weak.
  - apply Qcle_refl.
Qed.

Lemma max_one_of_le x : x ≤ 1 → Py.max x 1 = 1.
Proof.
  intros Hx. destruct (WriterFacts.Py_max_cases x 1) as [[_ ->]|[Hge ->]];
    [done|by apply Qcle_antisym].
Qed.

(** What [write] saves has its peak at most 1, and [write] saves it
    as it is. *)
Lemma write_fixed wav filename sr wav' :
  write wav filename sr = ([Save filename wav' sr]%list, Py.Ok tt) →
  Forall (Forall (λ y, Qcabs y ≤ 1)) wav'
  ∧ ∀ filename' sr',
      write wav' filename' sr' = ([Save filename' wav' sr']%list, Py.Ok tt).
Proof.
  unfold write at 1.
  destruct (max_item (abs2 wav)) as [peak|e] eqn:Hpeak; [|done].
  cbn. intros [= <-].
  pose proof (WriterFacts.Py_max_one_ge peak) as Hd.
  assert (Hpos : 0 < Py.max peak 1)
    by (eapply Qclt_le_trans; [|exact Hd]; done).
  pose proof (max_item_div2 _ _ _ Hpeak Hpos) as Hpeak'.
  assert (Hle : peak / Py.max peak 1 ≤ 1)
    by (apply WriterFacts.Qcdiv_le_one; [done|apply peak_le_max]).
  split.
  - apply WriterFacts.max_item_spec in Hpeak' as [_ Hall].
    unfold abs2 in Hall. rewrite WriterFacts.concat_map_map in Hall.
    apply Forall_forall. intros ch Hch. apply Forall_forall. intros y Hy.
    eapply Qcle_trans; [|exact Hle].
    apply (proj1 (Forall_forall _ _) Hall).
    apply list_elem_of_fmap. exists y. split; [done|].
    apply list_elem_of_In, in_concat. exists ch.
    split; by apply list_elem_of_In.
  - intros filename' sr'. unfold write. rewrite Hpeak'. cbn.
    by rewrite (max_one_of_le _ Hle), WriterFacts.div2_one.
Qed.

End NormFacts.

(** [write] is idempotent: the waveform it saves has no sample above 1
    in absolute value, and writing that waveform again, under any name,
    saves it unchanged. *)
Theorem write_is_idempotent (wav wav' : Tensor.tensor2)
    (filename filename' : string) (sr sr' : Z) :
  Enhance.write wav filename sr
  = ([Eff.Save filename wav' sr], Py.Ok tt) →
  Forall (Forall (λ y, (Qcabs y ≤ 1)%Qc)) wav'
  ∧ Enhance.write wav' filename' sr'
    = ([Eff.Save filename' wav' sr'], Py.Ok tt).
Proof.
  intros Hw. destruct (NormFacts.write_fixed _ _ _ _ Hw) as [Hall Hfix].
  split; [done|apply Hfix].
Qed.

Lemma write_is_idempotent_witness :
  Enhance.write (Tensor.div2 [[Demo.q 3 1; Demo.q (-1) 1]] (Demo.q 3 1))
    "/out/b.wav" 8000
  = ([Eff.Save "/out/b.wav"
        (Tensor.div2 [[Demo.q 3 1; Demo.q (-1) 1]] (Demo.q 3 1)) 8000],
     Py.Ok tt).
Proof.
  refine (proj2 (write_is_idempotent [[Demo.q 3 1; Demo.q (-1) 1]]
                   (Tensor.div2 [[Demo.q 3 1; Demo.q (-1) 1]] (Demo.q 3 1))
                   "/out/a.wav" "/out/b.wav" 16000 8000 _)).
  by_computation.
Defined.

(** [save_wavs] writes one file for each estimate that has a noisy
    signal and a file name to go with it, and leaves the others alone.
    Its log is, file by file and in the order of the lists: with an
    input root the creation of the directory of the file and then the
    file, without one the file alone; and nothing else.  The files are
    at the planned paths of the first file names, all of them [.wav]
    files, and hold what [write] saves of the first estimates.  The noisy
    signals are not looked at, only their number is. *)
Theorem save_wavs_zips `{Enhance.Collab} (estimates noisy_sigs : Tensor.tensor3)
    (filenames : list string) (out_dir : string)
    (input_root : option string) (sr : Z) :
  Forall (λ e, concat e ≠ []) estimates →
  Forall (λ f, f ≠ ""%string) filenames →
  ∃ (paths : list string) (wavs : list Tensor.tensor2),
    Enhance.save_wavs estimates noisy_sigs filenames out_dir input_root sr
    = (flat_map (λ pw : string * Tensor.tensor2,
                   (if Py.truthy input_root
                    then [Eff.Makedirs (PosixPath.dirname pw.1)] else [])
                   ++ [Eff.Save pw.1 pw.2 sr])
         (zip paths wavs),
       Py.Ok tt)
    ∧ Forall2 (λ f p, (Enhance.output_path f out_dir input_root).2 = Py.Ok p
                      ∧ ∃ stem, p = (stem ++ ".wav")%string)
        (take (length estimates `min` length noisy_sigs) filenames)
        paths
    ∧ Forall2 (λ e w, ∀ filename sr',
                 Enhance.write e filename sr'
                 = ([Eff.Save filename w sr'], Py.Ok tt))
        (take (length noisy_sigs `min` length filenames) estimates)
        wavs
    ∧ Eff.saved
        (Enhance.save_wavs estimates noisy_sigs filenames out_dir
           input_root sr).1 = paths
    ∧ ∀ noisy', length noisy' = length noisy_sigs →
        Enhance.save_wavs estimates noisy' filenames out_dir input_root sr
        = Enhance.save_wavs estimates noisy_sigs filenames out_dir
            input_root sr.
Proof.
  intros He Hf.
  destruct (SaveFacts.save_wavs_log estimates noisy_sigs filenames out_dir
              input_root sr He Hf)
    as (paths & wavs & Hl & Hpaths & Hwavs & Hsaved).
  exists paths, wavs. split_and!; [done..| |].
  - by rewrite Hl.
  - intros noisy' Hn. by apply SaveFacts.save_wavs_noisy.
Qed.

Lemma save_wavs_zips_witness :
  length (Eff.saved
            (Enhance.save_wavs (H := Demo.collab)
               [[[Demo.q 1 1; Demo.q 2 1]]; [[Demo.q 3 1]]; [[Demo.q 4 1]]]
               [[[0%Qc]]; [[0%Qc]]]
               ["/in/a.flac"; "/in/d/b.mp3"; "/in/c.wav"]%string
               "/out" (Some "/in"%string) 16000).1) = 2.
Proof.
  destruct (save_wavs_zips (H := Demo.collab)
              [[[Demo.q 1 1; Demo.q 2 1]]; [[Demo.q 3 1]]; [[Demo.q 4 1]]]
              [[[0%Qc]]; [[0%Qc]]]
              ["/in/a.flac"; "/in/d/b.mp3"; "/in/c.wav"]%string
              "/out" (Some "/in"%string) 16000)
    as (paths & wavs & _ & Hall & _ & -> & _).
  - repeat constructor; done.
  - repeat constructor; done.
  - apply Forall2_length in Hall. by rewrite <-Hall.
Defined.

(** A waveform without a sample stops [save_wavs] with torch's
    [RuntimeError]: the files before it have been written and stay, with
    an input root the directory of the file at hand has been created,
    its file is not written, and nothing is done for the estimates after
    it. *)
Theorem save_wavs_stops_at_failure `{Enhance.Collab}
    (good : Tensor.tensor3) (bad : Tensor.tensor2)
    (rest noisy_sigs : Tensor.tensor3) (filenames : list string)
    (filename out_dir : string) (input_root : option string) (sr : Z) :
  Forall (λ e, concat e ≠ []) good → concat bad = [] →
  length good < length noisy_sigs →
  filenames !! length good = Some filename →
  Forall (λ f, f ≠ ""%string) filenames →
  Enhance.save_wavs (good ++ bad :: rest) noisy_sigs filenames out_dir
    input_root sr
  = ((Enhance.save_wavs good noisy_sigs filenames out_dir input_root sr).1
     ++ (Enhance.output_path filename out_dir input_root).1,
     Py.Raise Py.RuntimeError)
  ∧ (Enhance.save_wavs good noisy_sigs filenames out_dir input_root sr).2
    = Py.Ok tt
  ∧ length (Eff.saved
              (Enhance.save_wavs (good ++ bad :: rest) noisy_sigs filenames
                 out_dir input_root sr).1) = length good.
Proof.
  intros Hg Hb Hn Hk Hf.
  pose proof (SaveFacts.save_wavs_stop good bad rest noisy_sigs filenames
                filename out_dir input_root sr Hg Hb Hn Hk Hf) as Hstop.
  destruct (SaveFacts.save_wavs_zip good noisy_sigs filenames out_dir
              input_root sr Hg Hf) as (l & Hl & Hall & _).
  assert (Hfk : filename ≠ ""%string)
    by (eapply (proj1 (Forall_lookup _ _) Hf); eauto).
  destruct (SaveFacts.output_path_ok filename out_dir input_root Hfk)
    as (lp & stem & Hp & Hsaved & _).
  split; [done|]. rewrite Hstop, Hl, Hp. split; [done|]. cbn [fst].
  unfold Eff.saved in *. rewrite omap_app, Hsaved, app_nil_r.
  apply Forall2_length in Hall. rewrite <-Hall, length_take.
  apply lookup_lt_Some in Hk.
  unfold Tensor.tensor3, Tensor.tensor2, Tensor.tensor1 in *. lia.
Qed.

Lemma save_wavs_stops_at_failure_witness :
  Enhance.save_wavs (H := Demo.collab)
    [[[Demo.q 1 1]]; [[]]; [[Demo.q 4 1]]]
    [[[0%Qc]]; [[0%Qc]]; [[0%Qc]]]
    ["/in/a.flac"; "/in/d/b.mp3"; "/in/c.wav"]%string
    "/out" (Some "/in"%string) 16000
  = ((Enhance.save_wavs (H := Demo.collab) [[[Demo.q 1 1]]]
        [[[0%Qc]]; [[0%Qc]]; [[0%Qc]]]
        ["/in/a.flac"; "/in/d/b.mp3"; "/in/c.wav"]%string
        "/out" (Some "/in"%string) 16000).1
     ++ [Eff.Makedirs "/out/d"],
     Py.Raise Py.RuntimeError).
Proof.
  refine (proj1 (save_wavs_stops_at_failure (H := Demo.collab)
                   [[[Demo.q 1 1]]] [[]] [[[Demo.q 4 1]]]
                   [[[0%Qc]]; [[0%Qc]]; [[0%Qc]]]
                   ["/in/a.flac"; "/in/d/b.mp3"; "/in/c.wav"]%string
                   "/in/d/b.mp3" "/out" (Some "/in"%string) 16000
                   _ _ _ _ _)).
  - repeat constructor; done.
  - done.
  - cbn. lia.
  - done.
  - repeat constructor; done.
Defined.

(** ** Before the loop: model, dataset, output directory *)

Module PrologueFacts.
Import Tensor Eff Enhance.
Local Open Scope string_scope.

Section Prologue.
Context `{Collab}.

Lemma get_dataset_directory args sr ch :
  Py.truthy (dset_noisy_json (input_paths args)) = false →
  Py.truthy (dset_noisy_dir (input_paths args)) = true →
  get_dataset args sr ch
  = ([],
     files ← find_audio_files (default "" (dset_noisy_dir (input_paths args)));
     d ← Audioset files true sr ch true;
     Py.Ok (Some d)).
Proof.
  intros Hj Hd. unfold get_dataset. rewrite Hj, Hd.
  destruct (find_audio_files _) as [files|e]; [|done]. cbn.
  by destruct (Audioset files true sr ch true).
Qed.

(** Resolving the dataset writes no file. *)
Lemma get_dataset_saves_nothing args sr ch :
  saved (get_dataset args sr ch).1 = [].
Proof.
  unfold get_dataset.
  destruct (Py.truthy (dset_noisy_json _)).
  - destruct (json_load _) as [files|e]; [|done]. cbn.
    by destruct (Audioset files true sr ch true).
  - destruct (Py.truthy (dset_noisy_dir _)); [|done].
    destruct (find_audio_files _) as [files|e]; [|done]. cbn.
    by destruct (Audioset files true sr ch true).
Qed.

(** The output directory of a call (lines 124-127). *)
Local Abbreviation chosen args local_out_dir :=
  (if Py.truthy local_out_dir then default "" local_out_dir
   else out_dir args).

Lemma enhance_init_dataset args model local m ld d :
  resolve_model args model = Py.Ok m →
  get_dataset args (sample_rate m) (chin m) = (ld, Py.Ok (Some d)) →
  enhance_init args model local
  = ((ld ++ (if bool_decide (rank = 0%Z)
             then [Makedirs (chosen args local)] else [])
         ++ [Barrier])%list,
     if (num_workers args <=? 0)%Z then Py.Raise Py.ValueError
     else Py.Ok (Some ({| run_model := m; run_args := args;
                          run_out_dir := chosen args local |},
                       loader d 1%Z))).
Proof.
  intros Hm Hd. unfold enhance_init. rewrite Hm. cbn. rewrite Hd.
  cbn. destruct (bool_decide (rank = 0%Z)), (num_workers args <=? 0)%Z;
    cbn; by rewrite ?app_nil_r.
Qed.

Lemma enhance_model_raises sched args model local e :
  resolve_model args model = Py.Raise e →
  enhance sched args model local = Some ([], Py.Raise e).
Proof. intros Hm. unfold enhance, enhance_init. by rewrite Hm. Qed.

Lemma enhance_raises_early sched args model local l e :
  enhance_init args model local = (l, Py.Raise e) →
  enhance sched args model local = Some (l, Py.Raise e).
Proof. intros Hi. unfold enhance. by rewrite Hi. Qed.

Lemma main_of_enhance sched args l res :
  enhance sched args None (Some (out_dir args)) = Some (l, res) →
  main sched args
  = Some (l, match res with Py.Ok _ => 0%Z | Py.Raise _ => 1%Z end).
Proof. intros He. unfold main. by rewrite He. Qed.

End Prologue.
End PrologueFacts.

Module NameFacts.
Import Str PosixPath.
Local Open Scope string_scope.
Local Open Scope Z_scope.

(** A name without an extension: it has no dot, or its only dot comes
    first. *)
Lemma splitext_plain name :
  rfind sep name = -1 → rfind extsep name ≤ 0 → splitext name = (name, "").
Proof.
  intros Hsep Hdot. unfold splitext. rewrite Hsep.
  pose proof (StrFacts.rfind_bounds extsep name) as Hb.
  destruct (-1 <? rfind extsep name) eqn:Hlt; [|done].
  apply Z.ltb_lt in Hlt.
  assert (rfind extsep name = 0) as -> by lia.
  done.
Qed.

Lemma rsplit1_head_plain name :
  rfind extsep name ≤ 0 →
  rsplit1_head extsep name
  = if rfind extsep name =? 0 then "" else name.
Proof.
  intros Hdot. unfold rsplit1_head.
  pose proof (StrFacts.rfind_bounds extsep name) as Hb.
  destruct (rfind extsep name =? 0) eqn:Hz.
  - apply Z.eqb_eq in Hz. rewrite Hz. by destruct name.
  - apply Z.eqb_neq in Hz.
    assert (rfind extsep name = -1) as -> by lia. done.
Qed.

Lemma splitext_plain_names dirs name :
  Forall path_name dirs → path_name name → rfind extsep name ≤ 0 →
  fst (splitext (String.concat "/" (dirs ++ [name]))) ++ ".wav"
  = String.concat "/" (dirs ++ [name ++ ".wav"]).
Proof.
  intros Hdirs [_ Hsep] Hdot.
  destruct (PathFacts.concat_snoc dirs Hdirs) as (pre & Hpre & Hcat).
  rewrite !Hcat, PathFacts.splitext_prefix by done.
  rewrite splitext_plain by done. cbn [fst].
  by rewrite StrFacts.app_assoc.
Qed.

End NameFacts.

(** With [noisy_dir] and no manifest, dataset resolution lists the
    directory and builds the dataset from what it finds, logging
    nothing; when the listing or the dataset fails, [enhance] raises the
    same exception before it has created anything, and the process ends
    with status 1. *)
Theorem directory_resolution `{Enhance.Collab} (sched : list Enhance.actor)
    (args : Enhance.Args) (model : option Enhance.Model)
    (local_out_dir : option string) (m : Enhance.Model) (dir : string) :
  Py.truthy (Enhance.dset_noisy_json (Enhance.input_paths args)) = false →
  Enhance.dset_noisy_dir (Enhance.input_paths args) = Some dir →
  dir ≠ ""%string →
  Enhance.resolve_model args model = Py.Ok m →
  Enhance.get_dataset args (Enhance.sample_rate m) (Enhance.chin m)
  = ([], files ← Enhance.find_audio_files dir;
         d ← Enhance.Audioset files true (Enhance.sample_rate m)
               (Enhance.chin m) true;
         Py.Ok (Some d))
  ∧ ∀ e,
      (Enhance.get_dataset args (Enhance.sample_rate m) (Enhance.chin m)).2
      = Py.Raise e →
      Enhance.enhance sched args model local_out_dir
      = Some ([], Py.Raise e)
      ∧ (model = None → Enhance.main sched args = Some ([], 1%Z)).
Proof.
  intros Hj Hdir Hne Hm.
  assert (Hd : Enhance.get_dataset args (Enhance.sample_rate m)
                 (Enhance.chin m)
    = ([], files ← Enhance.find_audio_files dir;
           d ← Enhance.Audioset files true (Enhance.sample_rate m)
                 (Enhance.chin m) true;
           Py.Ok (Some d))).
  { rewrite PrologueFacts.get_dataset_directory;
      rewrite ?Hdir; [done..|by destruct dir]. }
  split; [exact Hd|]. intros e He. rewrite Hd in He. cbn [snd] in He.
  rewrite He in Hd. split.
  - by apply (InitFacts.enhance_dataset_raises _ _ _ _ m).
  - intros ->. unfold Enhance.main.
    by rewrite (InitFacts.enhance_dataset_raises _ _ _ _ m _ _ Hm Hd).
Qed.

Lemma directory_resolution_witness :
  Enhance.main (H := Demo.unreadable) []
    (Demo.with_input (Some "/in"%string) None Demo.args0)
  = Some ([], 1%Z).
Proof.
  refine (proj2 (proj2
    (directory_resolution (H := Demo.unreadable) []
       (Demo.with_input (Some "/in"%string) None Demo.args0) None None
       Demo.model "/in" _ _ _ _) Py.OSError _) _); reflexivity || done.
Defined.

(** The order of what [enhance] does before the loop: the model comes
    first, so a model that cannot be loaded ends the call before the
    dataset is looked at; and once the dataset is there, the output
    directory ([local_out_dir], or [args.out_dir] when that is empty or
    absent) is created, on rank 0 only, and the barrier passed, before
    anything is written. *)
Theorem prologue_order `{Enhance.Collab} (sched : list Enhance.actor)
    (args : Enhance.Args) (model : option Enhance.Model)
    (local_out_dir : option string) :
  (∀ e, Enhance.resolve_model args model = Py.Raise e →
        Enhance.enhance sched args model local_out_dir
        = Some ([], Py.Raise e))
  ∧ ∀ m d ld l res,
      Enhance.resolve_model args model = Py.Ok m →
      Enhance.get_dataset args (Enhance.sample_rate m) (Enhance.chin m)
      = (ld, Py.Ok (Some d)) →
      Enhance.enhance sched args model local_out_dir = Some (l, res) →
      Eff.saved ld = []
      ∧ ∃ rest,
          l = ld
              ++ (if bool_decide (Enhance.rank = 0%Z)
                  then [Eff.Makedirs
                          (if Py.truthy local_out_dir
                           then default ""%string local_out_dir
                           else Enhance.out_dir args)]
                  else [])
              ++ Eff.Barrier :: rest.
Proof.
  split; [intros e; apply PrologueFacts.enhance_model_raises|].
  intros m d ld l res Hm Hd He. split.
  - pose proof (PrologueFacts.get_dataset_saves_nothing args
                  (Enhance.sample_rate m) (Enhance.chin m)) as Hs.
    by rewrite Hd in Hs.
  - unfold Enhance.enhance in He.
    rewrite (PrologueFacts.enhance_init_dataset _ _ _ m ld d Hm Hd) in He.
    destruct (Enhance.num_workers args <=? 0)%Z.
    + injection He as <- <-. by exists [].
    + destruct (Enhance.exec _ _ _) as [s|] eqn:Hs; [|done].
      cbn in He. destruct (Enhance.pc s); try done.
      injection He as <- <-.
      apply SchedFacts.exec_log in Hs as [rest Hrest]. cbn in Hrest.
      exists rest. rewrite Hrest. by rewrite <-!(assoc_L (++)).
Qed.

Lemma prologue_order_witness :
  ∃ rest,
    Enhance.enhance (H := Demo.collab) (Enhance.sequential 2)
      (Demo.with_input (Some "/in"%string) None Demo.args0) None
      (Some "/out"%string)
    = Some (Eff.Makedirs "/out" :: Eff.Barrier :: rest, Py.Ok tt).
Proof.
  destruct (Enhance.enhance (H := Demo.collab) (Enhance.sequential 2)
              (Demo.with_input (Some "/in"%string) None Demo.args0) None
              (Some "/out"%string)) as [[l res]|] eqn:He;
    [|by vm_compute in He].
  destruct (proj2 (prologue_order (H := Demo.collab) (Enhance.sequential 2)
                     (Demo.with_input (Some "/in"%string) None Demo.args0)
                     None (Some "/out"%string))
              Demo.model
              (Enhance.PyList [Enhance.PyStr "/in/a.wav";
                               Enhance.PyStr "/in/d/b.wav"])
              [] l res eq_refl eq_refl He) as (_ & rest & ->).
  exists rest. f_equal. f_equal.
  assert (Hres : snd <$> Enhance.enhance (H := Demo.collab)
                   (Enhance.sequential 2)
                   (Demo.with_input (Some "/in"%string) None Demo.args0)
                   None (Some "/out"%string) = Some (Py.Ok tt))
    by (vm_compute; reflexivity).
  rewrite He in Hres. by injection Hres.
Defined.

(** A pool cannot be made for no workers: when there is a dataset and
    [num_workers <= 0], [enhance] raises [ValueError] once the output
    directory is created and the barrier passed, whatever the device
    and the schedule, no item is processed, and the process ends with
    status 1. *)
Theorem nonpositive_workers `{Enhance.Collab} (sched : list Enhance.actor)
    (args : Enhance.Args) (model : option Enhance.Model)
    (local_out_dir : option string) (m : Enhance.Model)
    (d : Enhance.dataset) (ld : list Eff.effect) :
  Enhance.resolve_model args model = Py.Ok m →
  Enhance.get_dataset args (Enhance.sample_rate m) (Enhance.chin m)
  = (ld, Py.Ok (Some d)) →
  (Enhance.num_workers args ≤ 0)%Z →
  ∃ l,
    l = ld
        ++ (if bool_decide (Enhance.rank = 0%Z)
            then [Eff.Makedirs
                    (if Py.truthy local_out_dir
                     then default ""%string local_out_dir
                     else Enhance.out_dir args)]
            else [])
        ++ [Eff.Barrier]
    ∧ Enhance.enhance sched args model local_out_dir
      = Some (l, Py.Raise Py.ValueError)
    ∧ Eff.saved l = []
    ∧ (model = None → local_out_dir = Some (Enhance.out_dir args) →
       Enhance.main sched args = Some (l, 1%Z)).
Proof.
  intros Hm Hd Hnw. eexists. split; [reflexivity|].
  pose proof (PrologueFacts.enhance_init_dataset args model local_out_dir
                m ld d Hm Hd) as Hi.
  rewrite (proj2 (Z.leb_le _ _) Hnw) in Hi.
  pose proof (PrologueFacts.enhance_raises_early sched _ _ _ _ _ Hi) as He.
  split_and!; [done| |].
  - pose proof (PrologueFacts.get_dataset_saves_nothing args
                  (Enhance.sample_rate m) (Enhance.chin m)) as Hs.
    rewrite Hd in Hs. cbn [fst] in Hs.
    unfold Eff.saved in *. rewrite omap_app, Hs.
    by destruct (bool_decide _).
  - intros -> ->. by rewrite (PrologueFacts.main_of_enhance _ _ _ _ He).
Qed.

Lemma nonpositive_workers_witness :
  Enhance.main (H := Demo.collab) []
    (Demo.with_workers 0
       (Demo.with_input (Some "/in"%string) None Demo.args0))
  = Some ([Eff.Makedirs "enhanced"; Eff.Barrier], 1%Z).
Proof.
  destruct (nonpositive_workers (H := Demo.collab) []
              (Demo.with_workers 0
                 (Demo.with_input (Some "/in"%string) None Demo.args0))
              None (Some "enhanced"%string) Demo.model
              (Enhance.PyList [Enhance.PyStr "/in/a.wav";
                               Enhance.PyStr "/in/d/b.wav"])
              [] eq_refl eq_refl) as (l & -> & _ & _ & Hmain).
  - cbn. lia.
  - by apply Hmain.
Defined.

(** Names without an extension.  A file whose name has no dot gets
    [.wav] appended to its name, with and without an input root.  A file
    whose name has one dot, in front (a hidden file), keeps its name and
    gets [.wav] appended with an input root, and without one loses its
    name: it is written at [out_dir/.wav], whatever it is called. *)
Theorem names_without_extension `{Enhance.Collab}
    (out_dir dir root name : string) (dirs : list string) :
  PosixPath.path_name name →
  (Str.rfind "." name ≤ 0)%Z →
  Enhance.output_path (dir ++ "/" ++ name) out_dir None
  = ([], Py.Ok (PosixPath.join out_dir
                  [((if (Str.rfind "." name =? 0)%Z then "" else name)
                    ++ ".wav")%string]))
  ∧ (root ≠ ""%string → PosixPath.isabs Enhance.getcwd = true →
     Forall PosixPath.normal_name (dirs ++ [name]) →
     Enhance.output_path
       (PosixPath.join root [String.concat "/" (dirs ++ [name])])
       out_dir (Some root)
     = ([Eff.Makedirs
           (PosixPath.dirname
              (PosixPath.join out_dir
                 [String.concat "/" (dirs ++ [(name ++ ".wav")%string])]))],
        Py.Ok (PosixPath.join out_dir
                 [String.concat "/" (dirs ++ [(name ++ ".wav")%string])]))).
Proof.
  intros Hname Hdot. split.
  - unfold Enhance.output_path. cbn [Py.truthy].
    rewrite PathFacts.basename_app by apply Hname.
    by rewrite NameFacts.rsplit1_head_plain.
  - intros Hroot Hcwd Hall.
    assert (Hnames : Forall PosixPath.path_name dirs).
    { apply Forall_app in Hall as [Hdirs _].
      eapply Forall_impl; [exact Hdirs|]. by intros x [? _]. }
    unfold Enhance.output_path.
    destruct root as [|c root]; [done|].
    cbn [Py.truthy default from_option id].
    rewrite PathFacts.relpath_below by (done || by destruct dirs).
    cbn [mbind io_bind_inst Eff.io_bind Eff.lift Eff.emit mret io_ret_inst
         Eff.io_ret app].
    rewrite PathFacts.splitext_join.
    + by rewrite NameFacts.splitext_plain_names.
    + apply PathFacts.concat_relative.
      apply Forall_app. split; [done|]. by apply Forall_singleton.
Qed.

Lemma names_without_extension_witness :
  Enhance.output_path (H := Demo.collab) "/data/.take1" "/out" None
  = ([], Py.Ok "/out/.wav"%string)
  ∧ Enhance.output_path (H := Demo.collab) "/in/d/.take1" "/out"
      (Some "/in"%string)
    = ([Eff.Makedirs "/out/d"], Py.Ok "/out/d/.take1.wav"%string).
Proof.
  destruct (names_without_extension (H := Demo.collab) "/out" "/data" "/in"
              ".take1" ["d"%string]) as [H1 H2].
  - done.
  - cbn. lia.
  - split; [exact H1|]. apply H2; [done|done|].
    repeat constructor; done.
Defined.

(** ** Which files share an output path *)

Module PlanFacts.
Import Str PosixPath Eff Enhance.
Local Open Scope string_scope.
Local Open Scope Z_scope.

Lemma app_inv_head a b c : a ++ b = a ++ c → b = c.
Proof.
  induction a as [|x a IH]; [by rewrite !StrFacts.app_nil_l|].
  rewrite !StrFacts.app_cons. intros [= Heq]. auto.
Qed.

Lemma app_inv_tail a b c : a ++ c = b ++ c → a = b.
Proof.
  revert b. induction a as [|x a IH]; intros [|y b].
  - done.
  - intros Heq. apply (f_equal String.length) in Heq.
    rewrite StrFacts.app_nil_l, StrFacts.length_app in Heq. cbn in Heq. lia.
  - intros Heq. apply (f_equal String.length) in Heq.
    rewrite StrFacts.app_nil_l, StrFacts.length_app in Heq. cbn in Heq. lia.
  - rewrite !StrFacts.app_cons. intros [= -> Heq]. f_equal. auto.
Qed.

Lemma slash_free_relative s : rfind sep s = -1 → startswith sep s = false.
Proof.
  destruct s as [|a s]; [done|]. intros Hs.
  by apply PathFacts.rfind_cons_none in Hs as [Ha _].
Qed.

(** The name of an output file, for a stem that is a name. *)
Lemma wav_name stem :
  rfind sep stem = -1 → path_name (stem ++ ".wav").
Proof.
  intros Hs. split.
  - destruct stem; [done|]. by rewrite StrFacts.app_cons.
  - rewrite StrFacts.rfind_app.
    assert (rfind sep ".wav" = -1) as -> by done. done.
Qed.

Lemma stem_slash_free stem ext :
  path_name (stem ++ "." ++ ext) → rfind sep stem = -1 ∧ rfind sep ext = -1.
Proof.
  intros [_ Hs]. apply PathFacts.rfind_app_none in Hs as [Hstem Hs].
  split; [done|]. change ("." ++ ext) with (String "."%char ext) in Hs.
  by apply PathFacts.rfind_cons_none in Hs as [_ Hs].
Qed.

(** Joining a directory with two relative paths gives the same path for
    the same two paths only. *)
Lemma join_inj out_dir a b :
  startswith sep a = false → startswith sep b = false →
  join out_dir [a] = join out_dir [b] → a = b.
Proof.
  intros Ha Hb. unfold join. cbn [foldl].
  destruct (PathFacts.join1_relative out_dir a Ha) as (pre & _ & Hpre).
  rewrite !Hpre by done. apply app_inv_head.
Qed.

Section Plan.
Context `{Collab}.

Lemma output_path_flat dir stem ext out_dir :
  path_name (stem ++ "." ++ ext) → rfind extsep ext = -1 →
  output_path (dir ++ "/" ++ stem ++ "." ++ ext) out_dir None
  = ([], Py.Ok (join out_dir [stem ++ ".wav"])).
Proof.
  intros Hname Hdot. unfold output_path. cbn [Py.truthy].
  rewrite PathFacts.basename_app by apply Hname.
  change "."%char with extsep.
  by rewrite PathFacts.rsplit1_head_app.
Qed.

Lemma output_path_below root dirs stem ext out_dir :
  root ≠ "" → isabs getcwd = true →
  Forall normal_name (dirs ++ [stem ++ "." ++ ext]) →
  all_chars extsep stem = false → rfind extsep ext = -1 →
  output_path (join root [String.concat "/" (dirs ++ [stem ++ "." ++ ext])])
    out_dir (Some root)
  = ([Makedirs
        (dirname
           (join out_dir [String.concat "/" (dirs ++ [stem ++ ".wav"])]))],
     Py.Ok (join out_dir [String.concat "/" (dirs ++ [stem ++ ".wav"])])).
Proof.
  intros Hroot Hcwd Hall Hstem Hext.
  assert (Hnames : Forall path_name (dirs ++ [stem ++ "." ++ ext])).
  { eapply Forall_impl; [exact Hall|]. by intros x [? _]. }
  unfold output_path. destruct root as [|c root]; [done|].
  cbn [Py.truthy default from_option id].
  rewrite PathFacts.relpath_below by (done || by destruct dirs).
  cbn [mbind io_bind_inst Eff.io_bind Eff.lift Eff.emit mret io_ret_inst
       Eff.io_ret app].
  rewrite PathFacts.splitext_join by (by apply PathFacts.concat_relative).
  apply Forall_app in Hnames as [Hdirs Hlast].
  apply Forall_inv in Hlast.
  by rewrite PathFacts.splitext_names.
Qed.

Lemma below_inj out_dir dirs1 dirs2 stem1 stem2 :
  Forall path_name dirs1 → Forall path_name dirs2 →
  rfind sep stem1 = -1 → rfind sep stem2 = -1 →
  join out_dir [String.concat "/" (dirs1 ++ [stem1 ++ ".wav"])]
  = join out_dir [String.concat "/" (dirs2 ++ [stem2 ++ ".wav"])] →
  dirs1 = dirs2 ∧ stem1 = stem2.
Proof.
  intros Hd1 Hd2 Hs1 Hs2 Heq.
  assert (Hn1 : Forall path_name (dirs1 ++ [stem1 ++ ".wav"])).
  { apply Forall_app. split; [done|]. by apply Forall_singleton, wav_name. }
  assert (Hn2 : Forall path_name (dirs2 ++ [stem2 ++ ".wav"])).
  { apply Forall_app. split; [done|]. by apply Forall_singleton, wav_name. }
  apply join_inj in Heq; [|by apply PathFacts.concat_relative..].
  apply (f_equal (split sep)) in Heq.
  rewrite !PathFacts.split_concat in Heq by (done || by destruct dirs1, dirs2).
  apply app_inj_tail in Heq as [-> Heq]. split; [done|].
  by apply app_inv_tail in Heq.
Qed.

End Plan.
End PlanFacts.

(** Which input files are written to the same output file.  Without an
    input root, two files collide exactly when their names have the same
    stem, whatever their directories and extensions; with an input root,
    two files below it collide exactly when they are in the same
    directory and have the same stem, that is when they differ in their
    extension only. *)
Theorem output_collisions `{Enhance.Collab} (out_dir : string)
    (dirs1 dirs2 : list string) (stem1 stem2 ext1 ext2 : string) :
  Forall PosixPath.normal_name (dirs1 ++ [(stem1 ++ "." ++ ext1)%string]) →
  Forall PosixPath.normal_name (dirs2 ++ [(stem2 ++ "." ++ ext2)%string]) →
  Str.all_chars "." stem1 = false → Str.all_chars "." stem2 = false →
  Str.rfind "." ext1 = (-1)%Z → Str.rfind "." ext2 = (-1)%Z →
  (∀ dir1 dir2 : string,
     Enhance.output_path (dir1 ++ "/" ++ stem1 ++ "." ++ ext1) out_dir None
     = Enhance.output_path (dir2 ++ "/" ++ stem2 ++ "." ++ ext2) out_dir None
     ↔ stem1 = stem2)
  ∧ (∀ root : string,
       root ≠ ""%string → PosixPath.isabs Enhance.getcwd = true →
       Enhance.output_path
         (PosixPath.join root
            [String.concat "/" (dirs1 ++ [(stem1 ++ "." ++ ext1)%string])])
         out_dir (Some root)
       = Enhance.output_path
           (PosixPath.join root
              [String.concat "/" (dirs2 ++ [(stem2 ++ "." ++ ext2)%string])])
           out_dir (Some root)
       ↔ dirs1 = dirs2 ∧ stem1 = stem2).
Proof.
  intros Hall1 Hall2 Hst1 Hst2 He1 He2.
  assert (Hn1 : Forall PosixPath.path_name
                  (dirs1 ++ [(stem1 ++ "." ++ ext1)%string])).
  { eapply Forall_impl; [exact Hall1|]. by intros x [? _]. }
  assert (Hn2 : Forall PosixPath.path_name
                  (dirs2 ++ [(stem2 ++ "." ++ ext2)%string])).
  { eapply Forall_impl; [exact Hall2|]. by intros x [? _]. }
  apply Forall_app in Hn1 as [Hd1 Hl1]. apply Forall_inv in Hl1.
  apply Forall_app in Hn2 as [Hd2 Hl2]. apply Forall_inv in Hl2.
  destruct (PlanFacts.stem_slash_free _ _ Hl1) as [Hs1 _].
  destruct (PlanFacts.stem_slash_free _ _ Hl2) as [Hs2 _].
  split.
  - intros dir1 dir2. rewrite !PlanFacts.output_path_flat by done. split.
    + intros [= Heq].
      apply PlanFacts.join_inj in Heq.
      * by apply PlanFacts.app_inv_tail in Heq.
      * apply PlanFacts.slash_free_relative, PlanFacts.wav_name, Hs1.
      * apply PlanFacts.slash_free_relative, PlanFacts.wav_name, Hs2.
    + by intros ->.
  - intros root Hroot Hcwd. rewrite !PlanFacts.output_path_below by done.
    split.
    + intros [= _ Heq]. by apply PlanFacts.below_inj in Heq.
    + by intros [-> ->].
Qed.

Lemma output_collisions_witness :
  Enhance.output_path (H := Demo.collab) "/a/x.flac" "/out" None
  = Enhance.output_path (H := Demo.collab) "/b/c/x.mp3" "/out" None
  ∧ Enhance.output_path (H := Demo.collab) "/in/a/x.flac" "/out"
      (Some "/in"%string)
    ≠ Enhance.output_path (H := Demo.collab) "/in/b/x.flac" "/out"
        (Some "/in"%string).
Proof.
  destruct (output_collisions (H := Demo.collab) "/out"
              ["a"%string] ["b"%string] "x" "x" "flac" "flac")
    as [_ Hroot]; [repeat constructor; done..|done|done|done|done|].
  destruct (output_collisions (H := Demo.collab) "/out"
              [] [] "x" "x" "flac" "mp3")
    as [Hflat _]; [repeat constructor; done..|done|done|done|done|].
  split.
  - by apply (Hflat "/a" "/b/c")%string.
  - intros Heq. apply (Hroot "/in"%string) in Heq as [[=] _]; done.
Defined.

(** ** One output file for every input file *)

Module FileFacts.
Import Tensor Eff Enhance.

Section Files.
Context `{Collab}.

Lemma zip_same_length {A} (f : A → A → Py.result A) a b r :
  zip_same f a b = Py.Ok r → length r = length a.
Proof.
  revert b r. induction a as [|x a IH]; intros [|y b] r; cbn; try done.
  - by intros [= <-].
  - destruct (f x y) as [z|e]; [|done]. cbn.
    destruct (zip_same f a b) as [r'|e] eqn:Hr; [|done]. cbn.
    intros [= <-]. cbn. f_equal. by eapply IH.
Qed.

(** The estimate for a batch of one clip has a clip, when the model
    returns as many clips as it is given. *)
Lemma estimate_nonempty model clip args est :
  (∀ noisy raw, forward model noisy = Py.Ok raw → length raw = length noisy) →
  get_estimate model [clip] args = Py.Ok est → est ≠ [].
Proof.
  intros Hmodel. unfold get_estimate. destruct (streaming args).
  - destruct (DemucsStreamer _ _) as [s0|e]; [|done]. cbn.
    destruct (feed s0 clip) as [[fed s1]|e]; [|done]. cbn.
    destruct (flush s1) as [[flushed s2]|e]; [|done]. cbn.
    destruct (cat_dim1 fed flushed) as [t|e]; [|done]. cbn.
    by intros [= <-].
  - destruct (forward model [clip]) as [raw|e] eqn:Hraw; [|done]. cbn.
    apply Hmodel in Hraw. unfold add3, broadcast.
    rewrite decide_True by (unfold scale3; by rewrite !length_map).
    intros Hz. apply zip_same_length in Hz.
    unfold scale3 in Hz. rewrite length_map, Hraw in Hz.
    by destruct est.
Qed.

(** A job for one clip that ends well has written one file, at the path
    planned for its name. *)
Lemma job_saves_one (r : Run) clip filename :
  (∀ noisy raw, forward (run_model r) noisy = Py.Ok raw →
                length raw = length noisy) →
  (run_job r ([clip], [filename])).2 = Py.Ok tt →
  ∃ p, (output_path filename (run_out_dir r)
          (or_none (noisy_dir (run_args r)))).2 = Py.Ok p
       ∧ saved (run_job r ([clip], [filename])).1 = [p].
Proof.
  intros Hmodel. unfold run_job, _estimate_and_save.
  destruct (get_estimate _ _ _) as [est|e] eqn:Hest; [|done].
  apply estimate_nonempty in Hest; [|done].
  destruct est as [|e es]; [done|].
  unfold lift. rewrite SaveFacts.bind_ok, app_nil_l. cbn [save_wavs].
  destruct (output_path _ _ _) as [lp [p|e']] eqn:Hp; [|done].
  rewrite SaveFacts.bind_ok.
  assert (Hlp : saved lp = []).
  { unfold output_path in Hp.
    destruct (Py.truthy _); [|by injection Hp as <-].
    destruct (PosixPath.relpath _ _ _); [|by injection Hp as <-].
    cbn in Hp. by injection Hp as <-. }
  assert (save_wavs es [] [] (run_out_dir r)
            (or_none (noisy_dir (run_args r))) (sample_rate (run_model r))
          = ([], Py.Ok tt)) as -> by (by destruct es).
  unfold write. destruct (max_item (abs2 e)) as [peak|e']; [|done].
  cbn. intros _. exists p. split; [done|].
  unfold saved in *. rewrite omap_app, Hlp. done.
Qed.

(** In either mode, a call that has ended well has logged the effects of
    the jobs of all the items, none of which failed. *)
Lemma returned_ok (r : Run) l0 items sched s :
  exec r sched (initial l0 items) = Some s → pc s = Returned (Py.Ok tt) →
  log s ≡ₚ l0 ++ printed s ++ job_effects r items
  ∧ Forall (λ data, (run_job r data).2 = Py.Ok tt) items.
Proof.
  intros Hs Hpc. destruct (use_pool (run_args r)) eqn:Hpool.
  - destruct (LogFacts.returned_log r l0 items Hpool _ _ _ Hs Hpc)
      as (Hwork & [_ Hall] & _).
    pose proof (LogFacts.log_exec r l0 items Hpool _ _ Hs) as Hlog.
    pose proof (SchedFacts.inv_exec r l0 items Hpool sched s Hs) as Hinv.
    pose proof (inv_phase _ _ _ _ _ Hinv) as Hphase.
    rewrite Hpc in Hphase. destruct Hphase as (_ & _ & Hdone).
    rewrite (LogFacts.done_effects_all _ _ Hdone), Hwork in Hlog.
    split; [done|]. unfold results in Hall.
    by apply Forall_fmap in Hall.
  - destruct (SchedFacts.exec_inline r Hpool _ _ _ _ _ Hs Hpc)
      as (Hlog & Hres & _).
    destruct (SchedFacts.inline_shape r Hpool _ _ _ _ Hs)
      as (_ & Hpend & _).
    destruct (LogFacts.run_inline_spec r items) as (n & Hn & Hd).
    rewrite <-Hres in Hd. destruct Hd as [Hseq Hall].
    apply (f_equal length) in Hseq. rewrite !length_seq, length_map in Hseq.
    subst n. rewrite firstn_all in Hn.
    assert (Hjobs : ∀ data, inline r data = run_job r data)
      by (intros; symmetry; by apply LogFacts.job_is_inline).
    split.
    + rewrite Hlog, Hn. unfold printed. rewrite Hpend.
      unfold job_effects.
      rewrite (flat_map_ext _ (λ data, (run_job r data).1))
        by (intros; by rewrite Hjobs).
      by destruct (pc s).
    + apply Forall_fmap in Hall. eapply Forall_impl; [exact Hall|].
      intros data. cbn. by rewrite Hjobs.
Qed.

Lemma saved_app l l' : saved (l ++ l') = saved l ++ saved l'.
Proof. unfold saved. by rewrite omap_app. Qed.

Lemma saved_printed s : saved (printed s) = [].
Proof. unfold printed. by destruct (pc s), (pendings s). Qed.

(** The files of the jobs that ended well, for batches of one clip. *)
Lemma jobs_save_one_each (r : Run) items :
  (∀ noisy raw, forward (run_model r) noisy = Py.Ok raw →
                length raw = length noisy) →
  Forall (λ data, ∃ clip filename, data = ([clip], [filename])) items →
  Forall (λ data, (run_job r data).2 = Py.Ok tt) items →
  Forall2 (λ data p, ∃ clip filename,
             data = ([clip], [filename])
             ∧ (output_path filename (run_out_dir r)
                  (or_none (noisy_dir (run_args r)))).2 = Py.Ok p)
    items (saved (job_effects r items)).
Proof.
  intros Hmodel Hone Hok. unfold job_effects.
  induction Hone as [|data items (clip & filename & ->) _ IH]; [constructor|].
  apply Forall_cons in Hok as [Hd Hok]. cbn [flat_map].
  rewrite saved_app.
  destruct (job_saves_one r clip filename Hmodel Hd) as (p & Hp & ->).
  constructor; [eauto|by apply IH].
Qed.

End Files.
End FileFacts.

(** One output file for every input file.  When the loader yields one
    clip and one file name at a time and the model returns as many clips
    as it is given, a call that ends normally, with or without the pool
    and under any schedule, has written one file for each item, at the
    path planned for its name, and no other file. *)
Theorem every_file_is_enhanced `{Enhance.Collab} (r : Enhance.Run)
    (l0 : list Eff.effect) (items : list Enhance.batch)
    (sched : list Enhance.actor) (s : Enhance.state) :
  (∀ noisy raw, Enhance.forward (Enhance.run_model r) noisy = Py.Ok raw →
                length raw = length noisy) →
  Forall (λ data, ∃ clip filename, data = ([clip], [filename])) items →
  Enhance.exec r sched (Enhance.initial l0 items) = Some s →
  Enhance.pc s = Enhance.Returned (Py.Ok tt) →
  ∃ paths,
    Forall2 (λ data p, ∃ clip filename,
               data = ([clip], [filename])
               ∧ (Enhance.output_path filename (Enhance.run_out_dir r)
                    (Enhance.or_none
                       (Enhance.noisy_dir (Enhance.run_args r)))).2
                 = Py.Ok p)
      items paths
    ∧ Eff.saved (Enhance.log s) ≡ₚ Eff.saved l0 ++ paths.
Proof.
  intros Hmodel Hone Hs Hpc.
  destruct (FileFacts.returned_ok r l0 items sched s Hs Hpc) as [Hlog Hok].
  exists (Eff.saved (Enhance.job_effects r items)). split.
  - by apply FileFacts.jobs_save_one_each.
  - rewrite (RunFacts.saved_Permutation _ _ Hlog).
    by rewrite !FileFacts.saved_app, FileFacts.saved_printed.
Qed.

Lemma every_file_is_enhanced_witness :
  ∃ s paths,
    Enhance.exec (H := Demo.collab) (Demo.in_run 4) (Enhance.sequential 2)
      (Enhance.initial [] Demo.in_items) = Some s
    ∧ Eff.saved (Enhance.log s) ≡ₚ paths
    ∧ length paths = 2.
Proof.
  destruct (RunFacts.exec_returns (H := Demo.collab) (Demo.in_run 4)
              (Enhance.sequential 2) (Enhance.initial [] Demo.in_items)
              (Enhance.Returned (Py.Ok tt)))
    as (s & Hs & Hpc); [vm_compute; reflexivity|].
  destruct (every_file_is_enhanced (H := Demo.collab) (Demo.in_run 4) []
              Demo.in_items (Enhance.sequential 2) s)
    as (paths & Hall & Hsaved); [| |done|done|].
  - intros noisy raw. cbn. case_bool_decide; [done|].
    intros [= <-]. unfold Tensor.scale3. by rewrite length_map.
  - repeat constructor; eauto.
  - exists s, paths. split; [done|]. split; [done|].
    apply Forall2_length in Hall. by rewrite <-Hall.
Defined.
